(** * Klondike solitaire: the game-state engine of [src/pages/game/Game.tsx]

    A shallow embedding of the engine inside the [Game] component (the
    second, history-aware listing of the file): card model, deal, rule
    predicates, move executor, stock/waste draw, undo history and the
    event handlers that validate and then execute a move.

    Conventions of the embedding.
    - A JavaScript array is a [list]; its top is the last element.
    - The pile identifier strings ['stock'], ['waste'], ['foundation-i'] and
      ['tableau-i'] are represented in parsed form by [PileId]; the tests
      [=== 'waste'] and [startsWith('tableau-')] become pattern matching.
    - The component's [useState] cells are the fields of [Store].  A handler
      is a function of the store that was rendered (its closure: the source
      reads [gameState], [selectedCard], ... from it) and queues updates
      ([Upd]); applying the queued updates to a store ([render]) gives the
      store of the next render.
    - React calls the queued updater functions during the next render, cell
      by cell in the order of the [useState] calls: the updaters of
      [gameState] (the first cell) run before those of [gameHistory] (the
      fourth).  The copy that [saveGameState] pushes is made inside such an
      updater, so it is made after the [setGameState] updaters of the same
      batch have run.  (This is the order React documents.  React may also
      call the first updater queued on an idle component at once, while the
      handler is still running; it does not promise to, and the source does
      not depend on it anywhere else.)
    - The cards of a state are values.  An updater that assigns
      [card.faceUp = true] writes to an object that the [gameState] of the
      render still holds; the write shows in the state the updater returns
      and is recorded, by pile and index, in the batch ([written]), where
      the snapshot finds it.  Within a batch a pile of the pending state
      shares its card objects with the render's state index by index: the
      updaters that write only drop cards from the end of a pile or append
      to one, and the batches of the page hold one such updater, or the
      same [moveCard] twice when a click on a foundation card bubbles.
    - An uncaught [TypeError] (an index outside an array) is [None].
    - The pointer-drag effect, which repeats the placement logic of
      [handleDrop] inline, comes with cells of its own ([DragStore]); the
      drag positions and the settings are not embedded. *)

From stdpp Require Import numbers list strings.
From Stdlib Require Import DecimalString.

Open Scope Z_scope.

(** ** Card model *)

Inductive Suit := hearts | diamonds | clubs | spades.

#[global] Instance Suit_eq_dec : EqDecision Suit.
Proof. solve_decision. Defined.

Definition Rank := Z.

Record Card := mkCard {
  suit : Suit;
  rank : Rank;
  faceUp : bool;
  id : string
}.

#[global] Instance Card_eq_dec : EqDecision Card.
Proof. solve_decision. Defined.

Record GameState := mkGameState {
  stock : list Card;
  waste : list Card;
  foundations : list (list Card);
  tableau : list (list Card)
}.

#[global] Instance GameState_eq_dec : EqDecision GameState.
Proof. solve_decision. Defined.

(** [card.faceUp = b] on a card object. *)
Definition setFaceUp (b : bool) (card : Card) : Card :=
  {| suit := suit card; rank := rank card; faceUp := b; id := id card |}.

(** [card.suit === 'hearts' || card.suit === 'diamonds'] *)
Definition isRedSuit (card : Card) : bool :=
  bool_decide (suit card = hearts) || bool_decide (suit card = diamonds).

(** ** Pile identifiers and intents *)

Inductive PileId :=
  | Stock
  | Waste
  | Foundation (i : nat)
  | Tableau (i : nat).

#[global] Instance PileId_eq_dec : EqDecision PileId.
Proof. solve_decision. Defined.

(** [{card, source, index?}]: the selected or dragged card. *)
Record Intent := mkIntent {
  card : Card;
  source : PileId;
  index : option nat
}.

#[global] Instance Intent_eq_dec : EqDecision Intent.
Proof. solve_decision. Defined.

(** ** JavaScript array primitives *)

Module JS.

(** Relative index of [Array.prototype.slice]: a negative index counts
    from the end, and the result is clamped to [0, len]. *)
Definition relIndex (len k : Z) : Z :=
  if decide (k < 0) then Z.max (len + k) 0 else Z.min k len.

(** [arr.slice(start, end)]; [end = None] stands for an absent argument. *)
Definition slice {A} (arr : list A) (start : Z) (end_ : option Z) : list A :=
  let len := Z.of_nat (length arr) in
  let k := relIndex len start in
  let final := from_option (relIndex len) len end_ in
  take (Z.to_nat (final - k)) (drop (Z.to_nat k) arr).

(** [arr.pop()] on a copy: the last element and the remaining array. *)
Definition pop {A} (arr : list A) : option (A * list A) :=
  x ← last arr; Some (x, take (length arr - 1)%nat arr).

End JS.

(** ** The component state and its setters *)

Record Store := mkStore {
  gameState : GameState;
  selectedCard : option Intent;
  draggedCard : option Intent;
  gameHistory : list GameState
}.

#[global] Instance Store_eq_dec : EqDecision Store.
Proof. solve_decision. Defined.

(** A card object of a state, named by the pile that holds it and its
    index in that pile. *)
Definition CardRef : Type := PileId * nat.

(** The state object after [card.faceUp = true] on the card at [ref]. *)
Definition assignFaceUp (state : GameState) (ref : CardRef) : GameState :=
  let touch := alter (setFaceUp true) ref.2 in
  match ref.1 with
  | Stock =>
      {| stock := touch (stock state); waste := waste state;
         foundations := foundations state; tableau := tableau state |}
  | Waste =>
      {| stock := stock state; waste := touch (waste state);
         foundations := foundations state; tableau := tableau state |}
  | Foundation i =>
      {| stock := stock state; waste := waste state;
         foundations := alter touch i (foundations state);
         tableau := tableau state |}
  | Tableau i =>
      {| stock := stock state; waste := waste state;
         foundations := foundations state;
         tableau := alter touch i (tableau state) |}
  end.

(** A state object of the render as it is once the card objects at
    [writes] have been assigned [faceUp = true]. *)
Definition afterWrites (writes : list CardRef) (state : GameState)
    : GameState :=
  foldl assignFaceUp state writes.

(** An updater of [gameHistory]; it runs when the updaters of [gameState]
    are done and is given the writes they made, which is how it sees the
    objects of the render. *)
Definition HistoryUpdater : Type :=
  list CardRef → list GameState → list GameState.

(** A render in progress: the writes the [gameState] updaters have made so
    far to card objects of the render's state, the cells as the updaters run
    so far leave them ([gameHistory] still as rendered), and the queue of
    the [gameHistory] cell. *)
Record Batch := mkBatch {
  written : list CardRef;
  cells : Store;
  historyQueue : list HistoryUpdater
}.

(** The updates a handler queues; [None] when the handler or one of its
    updaters throws. *)
Record Upd := mkUpd { enqueue : Batch → option Batch }.

Definition skip : Upd := mkUpd Some.

(** An uncaught exception in the handler. *)
Definition throw : Upd := mkUpd (λ _, None).

Definition seq_upd (u1 u2 : Upd) : Upd :=
  mkUpd (λ b, b' ← enqueue u1 b; enqueue u2 b').

Notation "u1 ;> u2" := (seq_upd u1 u2) (at level 62, right associativity).

(** The handler computes [o] from its closure and goes on with the value. *)
Definition letUpd {A} (o : option A) (k : A → Upd) : Upd :=
  from_option k throw o.

(** [setGameState(prev => ...)] for an updater that returns [f prev] and on
    its way assigns [faceUp = true] to the card objects at [writes prev] of
    [prev]. *)
Definition setGameStateWriting (writes : GameState → list CardRef)
    (f : GameState → option GameState) : Upd :=
  mkUpd (λ b,
    let prev := gameState (cells b) in
    g ← f prev;
    Some {| written := written b ++ writes prev;
            cells := {| gameState := g;
                        selectedCard := selectedCard (cells b);
                        draggedCard := draggedCard (cells b);
                        gameHistory := gameHistory (cells b) |};
            historyQueue := historyQueue b |}).

(** [setGameState(prev => ...)] for an updater that writes to no card of
    [prev]. *)
Definition setGameState (f : GameState → option GameState) : Upd :=
  setGameStateWriting (λ _, []) f.

(** [setGameState(value)] *)
Definition putGameState (g : GameState) : Upd := setGameState (λ _, Some g).

(** [setGameHistory(prev => ...)] *)
Definition setGameHistory (f : HistoryUpdater) : Upd :=
  mkUpd (λ b,
    Some {| written := written b; cells := cells b;
            historyQueue := historyQueue b ++ [f] |}).

Definition setSelectedCard (v : option Intent) : Upd :=
  mkUpd (λ b,
    Some {| written := written b;
            cells := {| gameState := gameState (cells b);
                        selectedCard := v;
                        draggedCard := draggedCard (cells b);
                        gameHistory := gameHistory (cells b) |};
            historyQueue := historyQueue b |}).

Definition setDraggedCard (v : option Intent) : Upd :=
  mkUpd (λ b,
    Some {| written := written b;
            cells := {| gameState := gameState (cells b);
                        selectedCard := selectedCard (cells b);
                        draggedCard := v;
                        gameHistory := gameHistory (cells b) |};
            historyQueue := historyQueue b |}).

(** The batch a render starts with. *)
Definition startBatch (s : Store) : Batch :=
  {| written := []; cells := s; historyQueue := [] |}.

(** The end of the render: the queue of [gameHistory] runs. *)
Definition commit (b : Batch) : Store :=
  {| gameState := gameState (cells b);
     selectedCard := selectedCard (cells b);
     draggedCard := draggedCard (cells b);
     gameHistory :=
       foldl (λ history updater, updater (written b) history)
             (gameHistory (cells b)) (historyQueue b) |}.

(** The store of the next render: [u s] for short. *)
Definition render (u : Upd) (s : Store) : option Store :=
  commit <$> enqueue u (startBatch s).

Coercion render : Upd >-> Funclass.

(** An event handler runs against the store that was rendered. *)
Definition dispatch (handler : Store → Upd) (s : Store) : option Store :=
  handler s s.

(** A function of the component that queues updates and returns a value;
    [None] when it throws. *)
Record Returning (A : Type) := mkReturning { outcome : option (A * Upd) }.

Arguments mkReturning {A} _.
Arguments outcome {A} _.

Definition renderReturning {A} (h : Returning A) (s : Store)
    : option (A * Store) :=
  '(a, u) ← outcome h; s' ← render u s; Some (a, s').

Coercion renderReturning : Returning >-> Funclass.

(** ** History manager *)

(** [JSON.parse(JSON.stringify(state))]: every object and array of the
    state is rebuilt from its fields. *)
Definition cloneCard (c : Card) : Card :=
  {| suit := suit c; rank := rank c; faceUp := faceUp c; id := id c |}.

Definition cloneState (state : GameState) : GameState :=
  {| stock := cloneCard <$> stock state;
     waste := cloneCard <$> waste state;
     foundations := fmap (M:=list) cloneCard <$> foundations state;
     tableau := fmap (M:=list) cloneCard <$> tableau state |}.

(** [state] is the [gameState] object of the render; the updater copies it
    as it is when the updater runs. *)
Definition saveGameState (state : GameState) : Upd :=
  setGameHistory (λ writes prev,
    JS.slice (prev ++ [cloneState (afterWrites writes state)]) (-10) None).

(** ** Rule engine *)

Section RuleEngine.

(** The [gameState] the predicates close over. *)
Variable r : Store.

Definition canPlaceOnFoundation (card : Card) (foundationIndex : nat)
  : option bool :=
  foundation ← foundations (gameState r) !! foundationIndex;
  match last foundation with
  | None => Some (bool_decide (rank card = 1))
  | Some topCard =>
      Some (bool_decide (suit card = suit topCard)
            && bool_decide (rank card = rank topCard + 1))
  end.

Definition canPlaceOnTableau (card : Card) (columnIndex : nat)
  : option bool :=
  column ← tableau (gameState r) !! columnIndex;
  match last column with
  | None => Some (bool_decide (rank card = 13))
  | Some topCard =>
      let isRed := isRedSuit card in
      let topIsRed := isRedSuit topCard in
      Some (negb (eqb isRed topIsRed)
            && bool_decide (rank card = rank topCard - 1))
  end.

(** The [for] loop of [getMoveableSequence] over the cards at positions
    [i, i+1, ...] of the column, with the [sequence] built so far; the
    two [break]s return it. *)
Fixpoint moveableLoop (cards : list Card) (sequence : list Card)
  : list Card :=
  match cards with
  | [] => sequence
  | card :: rest =>
      if negb (faceUp card) then sequence
      else
        match last sequence with
        | Some prevCard =>
            let isRed := isRedSuit card in
            let prevIsRed := isRedSuit prevCard in
            if eqb isRed prevIsRed
               || negb (bool_decide (rank card = rank prevCard - 1))
            then sequence
            else moveableLoop rest (sequence ++ [card])
        | None => moveableLoop rest (sequence ++ [card])
        end
  end.

Definition getMoveableSequence (columnIndex cardIndex : nat)
  : option (list Card) :=
  column ← tableau (gameState r) !! columnIndex;
  Some (moveableLoop (drop cardIndex column) []).

End RuleEngine.

(** ** Move executor and event handlers *)

(** [arr[i] = v] for an index inside the array (an assignment past the
    end would leave holes, which no state of the game has). *)
Definition assign {A} (i : nat) (v : A) (arr : list A) : option (list A) :=
  if decide (i < length arr)%nat then Some (<[i := v]> arr) else None.

(** [column[column.length - 1].faceUp = true] *)
Definition setTopFaceUp (column : list Card) : option (list Card) :=
  topCard ← last column;
  Some (<[(length column - 1)%nat := setFaceUp true topCard]> column).

(** [if (column.length > 0 && !column[column.length - 1].faceUp)
       column[column.length - 1].faceUp = true] *)
Definition flipTop (column : list Card) : list Card :=
  match last column with
  | Some topCard =>
      if negb (faceUp topCard)
      then <[(length column - 1)%nat := setFaceUp true topCard]> column
      else column
  | None => column
  end.

(** The block "Remove cards from source" of [moveCard]. *)
Definition removeFromSource (from : Intent) (cardsToMove : list Card)
    (newState : GameState) : option GameState :=
  match source from with
  | Waste =>
      Some {| stock := stock newState;
              waste := JS.slice (waste newState) 0 (Some (-1));
              foundations := foundations newState;
              tableau := tableau newState |}
  | Tableau colIndex =>
      col ← tableau newState !! colIndex;
      let column :=
        flipTop (JS.slice col 0 (Some (- Z.of_nat (length cardsToMove)))) in
      Some {| stock := stock newState;
              waste := waste newState;
              foundations := foundations newState;
              tableau := <[colIndex := column]> (tableau newState) |}
  | Foundation foundIndex =>
      pile ← foundations newState !! foundIndex;
      Some {| stock := stock newState;
              waste := waste newState;
              foundations :=
                <[foundIndex := JS.slice pile 0 (Some (-1))]>
                  (foundations newState);
              tableau := tableau newState |}
  | Stock => Some newState
  end.

(** The block "Add cards to destination" of [moveCard]. *)
Definition addToDestination (to : PileId) (cardsToMove : list Card)
    (newState : GameState) : option GameState :=
  match to with
  | Foundation foundIndex =>
      pile ← foundations newState !! foundIndex;
      Some {| stock := stock newState;
              waste := waste newState;
              foundations :=
                <[foundIndex := pile ++ cardsToMove]> (foundations newState);
              tableau := tableau newState |}
  | Tableau colIndex =>
      col ← tableau newState !! colIndex;
      Some {| stock := stock newState;
              waste := waste newState;
              foundations := foundations newState;
              tableau := <[colIndex := col ++ cardsToMove]> (tableau newState) |}
  | _ => Some newState
  end.

(** The card object that the block "Flip the top card if it exists and is
    face down" writes to: the last card that the [slice] leaves in the
    source column, when it is face-down. *)
Definition uncovered (from : Intent) (removed : nat) (prev : GameState)
    : list CardRef :=
  match source from with
  | Tableau colIndex =>
      match tableau prev !! colIndex with
      | Some col =>
          let column := JS.slice col 0 (Some (- Z.of_nat removed)) in
          match last column with
          | Some topCard =>
              if negb (faceUp topCard)
              then [(Tableau colIndex, (length column - 1)%nat)]
              else []
          | None => []
          end
      | None => []
      end
  | _ => []
  end.

(** [sequence || [from.card]]: an array, even an empty one, is truthy. *)
Definition cardsToMoveOf (from : Intent) (sequence : option (list Card))
    : list Card :=
  default [card from] sequence.

(** The updater that [moveCard] passes to [setGameState]. *)
Definition moveCardUpdater (from : Intent) (to : PileId)
    (sequence : option (list Card)) (prev : GameState) : option GameState :=
  let cardsToMove := cardsToMoveOf from sequence in
  newState ← removeFromSource from cardsToMove prev;
  addToDestination to cardsToMove newState.

(** [arr.every(foundation => foundation.length === 13)] *)
Definition isGameWon (g : GameState) : bool :=
  forallb (λ foundation, bool_decide (length foundation = 13%nat))
          (foundations g).

Section Handlers.

(** The store the handlers were rendered with. *)
Variable r : Store.

Definition moveCard (from : Intent) (to : PileId)
    (sequence : option (list Card)) : Upd :=
  saveGameState (gameState r) ;>
  setGameStateWriting
    (uncovered from (length (cardsToMoveOf from sequence)))
    (moveCardUpdater from to sequence).

(** [drawnCard.faceUp = true] writes to the last card of [prev.stock]. *)
Definition handleStockClick : Upd :=
  saveGameState (gameState r) ;>
  setGameStateWriting
    (λ prev,
       if decide (length (stock prev) = 0%nat) then []
       else [(Stock, (length (stock prev) - 1)%nat)])
    (λ prev,
       if decide (length (stock prev) = 0%nat) then
         let newStock := setFaceUp false <$> reverse (waste prev) in
         Some {| stock := newStock; waste := [];
                 foundations := foundations prev; tableau := tableau prev |}
       else
         '(drawnCard, newStock) ← JS.pop (stock prev);
         Some {| stock := newStock;
                 waste := waste prev ++ [setFaceUp true drawnCard];
                 foundations := foundations prev; tableau := tableau prev |}).

(** [gameHistory.length > 0] holds exactly when the history has a last
    entry. *)
Definition handleUndo : Upd :=
  match last (gameHistory r) with
  | Some previousState =>
      putGameState previousState ;>
      setGameHistory (λ _ prev, JS.slice prev 0 (Some (-1))) ;>
      setSelectedCard None
  | None => skip
  end.

(** The sequence handed to [moveCard] by the tableau placements. *)
Definition sequenceOf (from : Intent) : option (option (list Card)) :=
  match source from, index from with
  | Tableau sourceCol, Some i => Some <$> getMoveableSequence r sourceCol i
  | _, _ => Some None
  end.

(** The validate-then-execute step that [handleCardClick] and
    [handleDrop] both spell out for a foundation target. *)
Definition placeOnFoundation (from : Intent) (foundationIndex : nat) : Upd :=
  letUpd (canPlaceOnFoundation r (card from) foundationIndex) (λ ok : bool,
    if ok then moveCard from (Foundation foundationIndex) None else skip).

(** The same step for a tableau target. *)
Definition placeOnTableau (from : Intent) (columnIndex : nat) : Upd :=
  letUpd (canPlaceOnTableau r (card from) columnIndex) (λ ok : bool,
    if ok then
      letUpd (sequenceOf from) (λ sequence,
        moveCard from (Tableau columnIndex) sequence)
    else skip).

(** [column[column.length - 1] === card] compares object identities;
    the cards of a state are told apart by their fields.  The updater of
    the flip writes to the last card of the render's own [column]. *)
Definition handleCardClick (card : Card) (source : PileId)
    (index : option nat) : Upd :=
  if negb (faceUp card) then
    match source with
    | Tableau colIndex =>
        letUpd (tableau (gameState r) !! colIndex) (λ column,
          if decide (last column = Some card) then
            setGameStateWriting
              (λ _, [(Tableau colIndex, (length column - 1)%nat)])
              (λ prev,
                 flipped ← setTopFaceUp column;
                 newTableau ← assign colIndex flipped (tableau prev);
                 Some {| stock := stock prev; waste := waste prev;
                         foundations := foundations prev;
                         tableau := newTableau |})
          else skip)
    | _ => skip
    end
  else
    match selectedCard r with
    | Some selected =>
        match source with
        | Foundation foundationIndex =>
            placeOnFoundation selected foundationIndex
        | Tableau columnIndex => placeOnTableau selected columnIndex
        | _ => skip
        end ;>
        setSelectedCard None
    | None =>
        setSelectedCard
          (Some {| card := card; source := source; index := index |})
    end.

Definition handleDragStart (card : Card) (source : PileId)
    (index : option nat) : Upd :=
  setDraggedCard (Some {| card := card; source := source; index := index |}).

Definition handleDrop (target : PileId) : Upd :=
  match draggedCard r with
  | None => skip
  | Some dragged =>
      match target with
      | Foundation foundationIndex =>
          placeOnFoundation dragged foundationIndex
      | Tableau columnIndex => placeOnTableau dragged columnIndex
      | _ => skip
      end ;>
      setDraggedCard None
  end.

(** The [for (let i = 0; i < 4; i++)] loop of [autoMoveToFoundation],
    over the indices still to try. *)
Fixpoint autoMoveLoop (indices : list nat) (card : Card) (source : PileId)
    (index : option nat) : Returning bool :=
  match indices with
  | [] => mkReturning (Some (false, skip))
  | i :: rest =>
      match canPlaceOnFoundation r card i with
      | Some true =>
          mkReturning
            (Some (true,
                   moveCard {| card := card; source := source; index := index |}
                            (Foundation i) None))
      | Some false => autoMoveLoop rest card source index
      | None => mkReturning None
      end
  end.

Definition autoMoveToFoundation :=
  autoMoveLoop [0; 1; 2; 3]%nat.

Definition handleDoubleClick (card : Card) (source : PileId)
    (index : option nat) : Upd :=
  if faceUp card then
    letUpd (outcome (autoMoveToFoundation card source index)) snd
  else skip.

(** [onClick] of a foundation slot. *)
Definition foundationClick (index : nat) : Upd :=
  match selectedCard r with
  | Some selected =>
      letUpd (canPlaceOnFoundation r (card selected) index) (λ ok : bool,
        if ok then
          moveCard selected (Foundation index) None ;> setSelectedCard None
        else skip)
  | None => skip
  end.

(** [onClick] of a tableau column. *)
Definition columnClick (colIndex : nat) : Upd :=
  match selectedCard r, tableau (gameState r) !! colIndex with
  | Some selected, Some [] =>
      letUpd (canPlaceOnTableau r (card selected) colIndex) (λ ok : bool,
        if ok then
          letUpd (sequenceOf selected) (λ sequence,
            moveCard selected (Tableau colIndex) sequence ;>
            setSelectedCard None)
        else skip)
  | _, _ => skip
  end.

End Handlers.

(** ** Deal and shuffle *)

Definition suits : list Suit := [hearts; diamonds; clubs; spades].

Definition ranks : list Rank := [1; 2; 3; 4; 5; 6; 7; 8; 9; 10; 11; 12; 13].

Definition suitName (s : Suit) : string :=
  match s with
  | hearts => "hearts"
  | diamonds => "diamonds"
  | clubs => "clubs"
  | spades => "spades"
  end.

(** The template literal [`${suit}-${rank}`]. *)
Definition cardId (s : Suit) (rk : Rank) : string :=
  suitName s +:+ "-" +:+ NilZero.string_of_int (Z.to_int rk).

(** The two nested [forEach] loops of [createDeck]. *)
Definition orderedDeck : list Card :=
  s ← suits; rk ← ranks;
  [{| suit := s; rank := rk; faceUp := false; id := cardId s rk |}].

(** [[deck[i], deck[j]] = [deck[j], deck[i]]] *)
Definition swap (i j : nat) (deck : list Card) : list Card :=
  match deck !! i, deck !! j with
  | Some ci, Some cj => <[j := ci]> (<[i := cj]> deck)
  | _, _ => deck
  end.

Section Deal.

(** [Math.random]: [rand i] is the number drawn in round [i] of the
    shuffle, already scaled; [Math.floor(Math.random() * (i + 1))] is an
    index in [0, i]. *)
Variable rand : nat → nat.

(** The loop [for (let i = deck.length - 1; i > 0; i--)]. *)
Fixpoint shuffleLoop (i : nat) (deck : list Card) : list Card :=
  match i with
  | O => deck
  | S i' =>
      let j := (rand i `mod` (i + 1))%nat in
      shuffleLoop i' (swap i j deck)
  end.

Definition createDeck : list Card :=
  shuffleLoop (length orderedDeck - 1) orderedDeck.

(** The inner loop [for (let row = 0; row <= col; row++)] over the rows
    still to deal, with the running [deckIndex] and the column built so
    far. *)
Fixpoint dealRows (deck : list Card) (col : nat) (rows : list nat)
    (deckIndex : nat) (column : list Card) : option (nat * list Card) :=
  match rows with
  | [] => Some (deckIndex, column)
  | row :: rows' =>
      card ← deck !! deckIndex;
      dealRows deck col rows' (S deckIndex)
               (column ++ [setFaceUp (bool_decide (row = col)) card])
  end.

(** The outer loop [for (let col = 0; col < 7; col++)]. *)
Fixpoint dealCols (deck : list Card) (cols : list nat) (deckIndex : nat)
    (newTableau : list (list Card)) : option (nat * list (list Card)) :=
  match cols with
  | [] => Some (deckIndex, newTableau)
  | col :: cols' =>
      '(deckIndex', column) ← dealRows deck col (seq 0 (S col)) deckIndex [];
      dealCols deck cols' deckIndex' (<[col := column]> newTableau)
  end.

(** The layout [dealCards] computes from a deck. *)
Definition dealt (deck : list Card) : option GameState :=
  '(deckIndex, newTableau) ← dealCols deck (seq 0 7) 0%nat (replicate 7 []);
  Some {| stock := JS.slice deck (Z.of_nat deckIndex) None;
          waste := [];
          foundations := [[]; []; []; []];
          tableau := newTableau |}.

Definition dealCards : Upd :=
  setGameState (λ _, dealt createDeck).

Definition confirmRestart : Upd :=
  dealCards ;>
  setGameHistory (λ _ _, []) ;>
  setSelectedCard None.

End Deal.

(** The initial value of the [useState] cells. *)
Definition initialStore : Store :=
  {| gameState := {| stock := []; waste := [];
                     foundations := [[]; []; []; []];
                     tableau := [[]; []; []; []; []; []; []] |};
     selectedCard := None; draggedCard := None; gameHistory := [] |}.

(** ** User events

    The bindings of the JSX: which handler an element calls, and with
    which card of the rendered state.  A click on a card bubbles to the
    [onClick] of the slot that contains it, within the same render. *)

Inductive Event :=
  | ClickStock
  | ClickUndo
  | ClickWaste
  | DoubleClickWaste
  | DragWaste
  | ClickFoundation (i : nat)
  | DragFoundation (i : nat)
  | DropOnFoundation (i : nat)
  | ClickTableauCard (col k : nat)
  | DoubleClickTableauCard (col k : nat)
  | DragTableauCard (col k : nat)
  | ClickEmptyColumn (col : nat)
  | DropOnTableau (col : nat)
  | ConfirmRestart (rand : nat → nat)
  | NewGame (rand : nat → nat).

(** The native drag starts only on a face-up card ([Card]'s own
    [handleDragStart]). *)
Definition dragStart (r : Store) (c : Card) (source : PileId)
    (index : option nat) : Upd :=
  if faceUp c then handleDragStart c source index else skip.

Definition handlerOf (e : Event) (r : Store) : Upd :=
  let g := gameState r in
  match e with
  | ClickStock => handleStockClick r
  | ClickUndo => handleUndo r
  | ClickWaste =>
      match last (waste g) with
      | Some c => handleCardClick r c Waste None
      | None => skip
      end
  | DoubleClickWaste =>
      match last (waste g) with
      | Some c => handleDoubleClick r c Waste None
      | None => skip
      end
  | DragWaste =>
      match last (waste g) with
      | Some c => dragStart r c Waste None
      | None => skip
      end
  | ClickFoundation i =>
      match foundations g !! i ≫= last with
      | Some c => handleCardClick r c (Foundation i) None ;> foundationClick r i
      | None => foundationClick r i
      end
  | DragFoundation i =>
      match foundations g !! i ≫= last with
      | Some c => dragStart r c (Foundation i) None
      | None => skip
      end
  | DropOnFoundation i => handleDrop r (Foundation i)
  | ClickTableauCard col k =>
      match tableau g !! col ≫= (.!! k) with
      | Some c => handleCardClick r c (Tableau col) (Some k) ;> columnClick r col
      | None => skip
      end
  | DoubleClickTableauCard col k =>
      match tableau g !! col ≫= (.!! k) with
      | Some c => handleDoubleClick r c (Tableau col) (Some k)
      | None => skip
      end
  | DragTableauCard col k =>
      match tableau g !! col ≫= (.!! k) with
      | Some c => dragStart r c (Tableau col) (Some k)
      | None => skip
      end
  | ClickEmptyColumn col => columnClick r col
  | DropOnTableau col => handleDrop r (Tableau col)
  | ConfirmRestart rand => confirmRestart rand
  | NewGame rand => if isGameWon g then dealCards rand else skip
  end.

Definition fire (s : Store) (e : Event) : option Store :=
  dispatch (handlerOf e) s.

(** Firing a list of events, one render after the other. *)
Fixpoint run (s : Store) (events : list Event) : option Store :=
  match events with
  | [] => Some s
  | e :: rest => s' ← fire s e; run s' rest
  end.

(** The states of a game session: the first deal (the mount effect) and
    whatever the events lead to. *)
Inductive reachable : Store → Prop :=
  | reachable_deal rand s :
      dealCards rand initialStore = Some s → reachable s
  | reachable_fire s e s' :
      reachable s → fire s e = Some s' → reachable s'.

(** ** Hint advisor *)

(** [${n}] inside a template literal. *)
Definition showNat (n : nat) : string :=
  NilZero.string_of_uint (Nat.to_uint n).

(** A [for] loop whose body either returns a message or goes on to the
    next index; [None] when the body throws. *)
Fixpoint firstHint (body : nat → option (option string)) (indices : list nat)
  : option (option string) :=
  match indices with
  | [] => Some None
  | i :: rest =>
      h ← body i;
      match h with
      | Some message => Some (Some message)
      | None => firstHint body rest
      end
  end.

(** One scan of [getHint] followed by the rest of the function: the rest
    runs only when the scan returned nothing. *)
Definition orElse (scan rest : option (option string))
  : option (option string) :=
  h ← scan;
  match h with
  | Some message => Some (Some message)
  | None => rest
  end.

Section Hint.

Variable r : Store.

(** [for (let i = 0; i < 4; i++)
       if (canPlaceOnFoundation(card, i)) return message] *)
Definition foundationScan (card : Card) (message : string)
  : option (option string) :=
  firstHint
    (λ i, ok ← canPlaceOnFoundation r card i;
          Some (if ok : bool then Some message else None))
    [0; 1; 2; 3]%nat.

(** The first block of [getHint]: the top card of the waste. *)
Definition wasteScan : option (option string) :=
  match last (waste (gameState r)) with
  | Some wasteCard =>
      if faceUp wasteCard
      then foundationScan wasteCard "Move the waste pile card to a foundation!"
      else Some None
  | None => Some None
  end.

(** The body of the loop "tableau cards that can move to foundations". *)
Definition columnToFoundation (col : nat) : option (option string) :=
  column ← tableau (gameState r) !! col;
  match last column with
  | Some topCard =>
      if faceUp topCard
      then foundationScan topCard
             ("Move a card from column " +:+ showNat (col + 1)
              +:+ " to a foundation!")
      else Some None
  | None => Some None
  end.

(** The body of the loop "face-down cards that can be flipped". *)
Definition columnToFlip (col : nat) : option (option string) :=
  column ← tableau (gameState r) !! col;
  match last column with
  | Some topCard =>
      if negb (faceUp topCard)
      then Some (Some ("Click the face-down card in column "
                       +:+ showNat (col + 1) +:+ " to flip it!"))
      else Some None
  | None => Some None
  end.

(** The body of the outer loop "moves between tableau columns". *)
Definition columnToColumn (sourceCol : nat) : option (option string) :=
  sourceColumn ← tableau (gameState r) !! sourceCol;
  match last sourceColumn with
  | Some sourceCard =>
      if faceUp sourceCard
      then
        firstHint
          (λ targetCol,
             if decide (sourceCol ≠ targetCol) then
               ok ← canPlaceOnTableau r sourceCard targetCol;
               Some (if ok : bool
                     then Some ("Move a card from column "
                                +:+ showNat (sourceCol + 1) +:+ " to column "
                                +:+ showNat (targetCol + 1) +:+ "!")
                     else None)
             else Some None)
          (seq 0 7)
      else Some None
  | None => Some None
  end.

Definition getHint : option string :=
  h ← orElse wasteScan
        (orElse (firstHint columnToFoundation (seq 0 7))
           (orElse (firstHint columnToFlip (seq 0 7))
              (orElse (firstHint columnToColumn (seq 0 7))
                 (Some None))));
  match h with
  | Some message => Some message
  | None =>
      if decide (0 < length (stock (gameState r)))%nat
      then Some "Draw cards from the stock pile!"
      else Some "No obvious moves available. Try looking for sequences to move!"
  end.

End Hint.

(** ** The custom pointer drag *)

(** The store together with the cells of the pointer drag. *)
Record DragStore := mkDragStore {
  base : Store;
  customDragCard : option Intent;
  isDragging : bool;
  isReturning : bool
}.

(** A render in progress, with the cells of the pointer drag. *)
Record DragBatch := mkDragBatch {
  game : Batch;
  customDragCardB : option Intent;
  isDraggingB : bool;
  isReturningB : bool
}.

Record DUpd := mkDUpd { enqueueD : DragBatch → option DragBatch }.

Definition skipD : DUpd := mkDUpd Some.

Definition throwD : DUpd := mkDUpd (λ _, None).

Definition seq_dupd (u1 u2 : DUpd) : DUpd :=
  mkDUpd (λ b, b' ← enqueueD u1 b; enqueueD u2 b').

Notation "u1 ;>> u2" := (seq_dupd u1 u2) (at level 62, right associativity).

Definition letDUpd {A} (o : option A) (k : A → DUpd) : DUpd :=
  from_option k throwD o.

(** The setters of the game cells, acting inside the larger store. *)
Definition liftUpd (u : Upd) : DUpd :=
  mkDUpd (λ b,
    g ← enqueue u (game b);
    Some {| game := g; customDragCardB := customDragCardB b;
            isDraggingB := isDraggingB b; isReturningB := isReturningB b |}).

Definition setCustomDragCard (v : option Intent) : DUpd :=
  mkDUpd (λ b,
    Some {| game := game b; customDragCardB := v;
            isDraggingB := isDraggingB b; isReturningB := isReturningB b |}).

Definition setIsDragging (v : bool) : DUpd :=
  mkDUpd (λ b,
    Some {| game := game b; customDragCardB := customDragCardB b;
            isDraggingB := v; isReturningB := isReturningB b |}).

Definition setIsReturning (v : bool) : DUpd :=
  mkDUpd (λ b,
    Some {| game := game b; customDragCardB := customDragCardB b;
            isDraggingB := isDraggingB b; isReturningB := v |}).

Definition startDragBatch (d : DragStore) : DragBatch :=
  {| game := startBatch (base d); customDragCardB := customDragCard d;
     isDraggingB := isDragging d; isReturningB := isReturning d |}.

Definition commitDrag (b : DragBatch) : DragStore :=
  {| base := commit (game b); customDragCard := customDragCardB b;
     isDragging := isDraggingB b; isReturning := isReturningB b |}.

(** The store of the next render: [u d] for short. *)
Definition renderDrag (u : DUpd) (d : DragStore) : option DragStore :=
  commitDrag <$> enqueueD u (startDragBatch d).

Coercion renderDrag : DUpd >-> Funclass.

(** The updater of the pointer drop on a foundation. *)
Definition pointerFoundationUpdater (dragged : Intent) (foundationIndex : nat)
    (prev : GameState) : option GameState :=
  newState ←
    match source dragged with
    | Waste =>
        Some {| stock := stock prev;
                waste := JS.slice (waste prev) 0 (Some (-1));
                foundations := foundations prev;
                tableau := tableau prev |}
    | Tableau colIndex =>
        col ← tableau prev !! colIndex;
        let column := flipTop (JS.slice col 0 (Some (-1))) in
        Some {| stock := stock prev;
                waste := waste prev;
                foundations := foundations prev;
                tableau := <[colIndex := column]> (tableau prev) |}
    | Foundation foundIndex =>
        pile ← foundations prev !! foundIndex;
        Some {| stock := stock prev;
                waste := waste prev;
                foundations :=
                  <[foundIndex := JS.slice pile 0 (Some (-1))]>
                    (foundations prev);
                tableau := tableau prev |}
    | Stock => Some prev
    end;
  pile ← foundations newState !! foundationIndex;
  Some {| stock := stock newState;
          waste := waste newState;
          foundations :=
            <[foundationIndex := pile ++ [card dragged]]>
              (foundations newState);
          tableau := tableau newState |}.

(** The updater of the pointer drop on a tableau column. *)
Definition pointerTableauUpdater (dragged : Intent) (columnIndex : nat)
    (cardsToMove : list Card) (prev : GameState) : option GameState :=
  newState ←
    match source dragged with
    | Waste =>
        Some {| stock := stock prev;
                waste := JS.slice (waste prev) 0 (Some (-1));
                foundations := foundations prev;
                tableau := tableau prev |}
    | Tableau colIndex =>
        col ← tableau prev !! colIndex;
        let column :=
          flipTop (JS.slice col 0 (Some (- Z.of_nat (length cardsToMove)))) in
        Some {| stock := stock prev;
                waste := waste prev;
                foundations := foundations prev;
                tableau := <[colIndex := column]> (tableau prev) |}
    | Foundation foundIndex =>
        pile ← foundations prev !! foundIndex;
        Some {| stock := stock prev;
                waste := waste prev;
                foundations :=
                  <[foundIndex := JS.slice pile 0 (Some (-1))]>
                    (foundations prev);
                tableau := tableau prev |}
    | Stock => Some prev
    end;
  col ← tableau newState !! columnIndex;
  Some {| stock := stock newState;
          waste := waste newState;
          foundations := foundations newState;
          tableau := <[columnIndex := col ++ cardsToMove]> (tableau newState) |}.

Section PointerDrag.

(** The store the effect was registered with. *)
Variable r : DragStore.

Definition handleCustomDragStart (card : Card) (source : PileId)
    (index : option nat) : DUpd :=
  if negb (faceUp card) then skipD
  else
    setCustomDragCard
      (Some {| card := card; source := source; index := index |}) ;>>
    setIsDragging true.

(** The validity check of the drop, spelled out in the effect. *)
Definition pointerValid (dragged : Intent) (dropTarget : option PileId)
  : option bool :=
  match dropTarget with
  | Some (Foundation foundationIndex) =>
      foundation ← foundations (gameState (base r)) !! foundationIndex;
      match last foundation with
      | None => Some (bool_decide (rank (card dragged) = 1))
      | Some topCard =>
          Some (bool_decide (suit (card dragged) = suit topCard)
                && bool_decide (rank (card dragged) = rank topCard + 1))
      end
  | Some (Tableau columnIndex) =>
      column ← tableau (gameState (base r)) !! columnIndex;
      match last column with
      | None => Some (bool_decide (rank (card dragged) = 13))
      | Some topCard =>
          let isRed := isRedSuit (card dragged) in
          let topIsRed := isRedSuit topCard in
          Some (negb (eqb isRed topIsRed)
                && bool_decide (rank (card dragged) = rank topCard - 1))
      end
  | _ => Some false
  end.

(** [cardsToMove] of the drop on a column; the loop is the one of
    [getMoveableSequence], written out again in the effect. *)
Definition pointerCardsToMove (dragged : Intent) : option (list Card) :=
  match source dragged, index dragged with
  | Tableau sourceCol, Some i =>
      column ← tableau (gameState (base r)) !! sourceCol;
      Some (moveableLoop (drop i column) [])
  | _, _ => Some [card dragged]
  end.

(** The callback of [setTimeout(..., 0)] in [handleGlobalPointerUp]. *)
Definition pointerDrop (dragged : Intent) (dropTarget : option PileId)
    : DUpd :=
  letDUpd (pointerValid dragged dropTarget) (λ isValidMove : bool,
    if isValidMove then
      match dropTarget with
      | Some (Foundation foundationIndex) =>
          liftUpd (saveGameState (gameState (base r)) ;>
                   setGameStateWriting
                     (uncovered dragged 1)
                     (pointerFoundationUpdater dragged foundationIndex)) ;>>
          setCustomDragCard None
      | Some (Tableau columnIndex) =>
          letDUpd (pointerCardsToMove dragged) (λ cardsToMove,
            liftUpd (saveGameState (gameState (base r)) ;>
                     setGameStateWriting
                       (uncovered dragged (length cardsToMove))
                       (pointerTableauUpdater dragged columnIndex
                          cardsToMove)) ;>>
            setCustomDragCard None)
      | _ => setCustomDragCard None
      end
    else setIsReturning true).

(** The listener is installed only while a card is being dragged. *)
Definition handleGlobalPointerUp (dropTarget : option PileId) : DUpd :=
  match isDragging r, customDragCard r with
  | true, Some dragged => setIsDragging false ;>> pointerDrop dragged dropTarget
  | _, _ => skipD
  end.

(** The callback of [setTimeout(..., 300)] after an invalid drop. *)
Definition returnTimeout : DUpd :=
  setIsReturning false ;>> setCustomDragCard None.

End PointerDrag.

(** * Properties *)

(** ** Vocabulary of the specification *)

Inductive Color := red | black.

(** Hearts and diamonds are red, clubs and spades are black. *)
Definition colorOf (s : Suit) : Color :=
  match s with
  | hearts | diamonds => red
  | clubs | spades => black
  end.

(** [c] may follow [p] in a run: the other colour, exactly one rank lower. *)
Definition follows (p c : Card) : Prop :=
  colorOf (suit c) ≠ colorOf (suit p) ∧ rank c = rank p - 1.

(** Every card is face-up and each card after the first [follows] its
    predecessor; [prev] is the card before the run, if there is one. *)
Fixpoint runFrom (prev : option Card) (cards : list Card) : Prop :=
  match cards with
  | [] => True
  | c :: rest =>
      faceUp c = true ∧ from_option (λ p, follows p c) True prev
      ∧ runFrom (Some c) rest
  end.

Definition validRun (cards : list Card) : Prop := runFrom None cards.

(** ** Arrays *)

Lemma slice_tail {A} (arr : list A) (n : nat) :
  JS.slice arr (- Z.of_nat (S n)) None = drop (length arr - S n) arr.
Proof.
  unfold JS.slice, JS.relIndex; cbn [from_option].
  destruct (decide (- Z.of_nat (S n) < 0)); [|lia].
  rewrite take_ge by (rewrite length_drop; lia).
  f_equal. lia.
Qed.

Lemma slice_init {A} (arr : list A) (n : nat) :
  JS.slice arr 0 (Some (- Z.of_nat (S n))) = take (length arr - S n) arr.
Proof.
  unfold JS.slice, JS.relIndex; cbn [from_option].
  destruct (decide (- Z.of_nat (S n) < 0)); [|lia].
  destruct (decide (0 < 0)); [lia|].
  rewrite Z.min_l by lia. rewrite drop_0. f_equal. lia.
Qed.

(** [arr.slice(0, -0)] is [arr.slice(0, 0)]: nothing is kept. *)
Lemma slice_init_0 {A} (arr : list A) :
  JS.slice arr 0 (Some (- Z.of_nat 0)) = [].
Proof.
  unfold JS.slice, JS.relIndex; cbn [from_option].
  change (- Z.of_nat 0) with 0.
  destruct (decide (0 < 0)); [lia|].
  rewrite Z.min_l by lia. reflexivity.
Qed.

Lemma slice_from {A} (arr : list A) (n : nat) :
  JS.slice arr (Z.of_nat n) None = drop n arr.
Proof.
  unfold JS.slice, JS.relIndex; cbn [from_option].
  destruct (decide (Z.of_nat n < 0)); [lia|].
  destruct (decide (n ≤ length arr)%nat).
  - rewrite Z.min_l by lia. rewrite Nat2Z.id.
    apply take_ge. rewrite length_drop. lia.
  - rewrite Z.min_r by lia. rewrite Nat2Z.id.
    rewrite !drop_ge by lia. by rewrite take_nil.
Qed.

Lemma pop_snoc {A} (arr : list A) (x : A) :
  JS.pop (arr ++ [x]) = Some (x, arr).
Proof.
  unfold JS.pop. rewrite last_snoc. cbn.
  rewrite length_app. cbn.
  replace (length arr + 1 - 1)%nat with (length arr) by lia.
  by rewrite take_app_length.
Qed.

Lemma last_is_Some_snoc {A} (l : list A) (x : A) :
  last l = Some x → ∃ l', l = l' ++ [x].
Proof.
  intros H. destruct l as [|y l] using rev_ind; [done|].
  rewrite last_snoc in H. injection H as ->. eauto.
Qed.

(** ** The JSON round trip

    [JSON.parse(JSON.stringify(state))] copies the state as it is at the
    time of the copy: the copy has the fields of the original. *)

Lemma cloneCard_id (c : Card) : cloneCard c = c.
Proof. by destruct c. Qed.

Lemma cloneCards_id (l : list Card) : cloneCard <$> l = l.
Proof.
  induction l as [|c l IH]; [done|].
  rewrite fmap_cons, IH, cloneCard_id. done.
Qed.

Lemma clonePiles_id (ls : list (list Card)) :
  fmap (M:=list) cloneCard <$> ls = ls.
Proof.
  induction ls as [|l ls IH]; [done|].
  rewrite fmap_cons, IH, cloneCards_id. done.
Qed.

Lemma cloneState_id (g : GameState) : cloneState g = g.
Proof.
  destruct g. unfold cloneState. cbn.
  by rewrite !cloneCards_id, !clonePiles_id.
Qed.

(** ** Rule engine *)

Lemma isRedSuit_color (c : Card) :
  isRedSuit c = true ↔ colorOf (suit c) = red.
Proof. unfold isRedSuit. destruct (suit c); cbn; naive_solver. Qed.

Lemma eqb_isRedSuit (c p : Card) :
  eqb (isRedSuit c) (isRedSuit p) = false
  ↔ colorOf (suit c) ≠ colorOf (suit p).
Proof.
  unfold isRedSuit. destruct (suit c), (suit p); cbn; naive_solver.
Qed.

(** C4. On a foundation that exists (index 0..3 of the four piles),
    [canPlaceOnFoundation] answers, and it answers [true] exactly when the
    pile is empty and the card is an ace, or the top card has the card's
    suit and the card's rank is the top's rank plus one.  So an ace goes
    on an empty foundation and a two does not. *)
Theorem C4_canPlaceOnFoundation_iff (r : Store) (c : Card)
    (foundationIndex : nat) (pile : list Card) :
  foundations (gameState r) !! foundationIndex = Some pile →
  ∃ b, canPlaceOnFoundation r c foundationIndex = Some b
    ∧ (b = true ↔
         (pile = [] ∧ rank c = 1)
         ∨ (∃ topCard, last pile = Some topCard
              ∧ suit c = suit topCard ∧ rank c = rank topCard + 1))
    ∧ (pile = [] → rank c = 1 → b = true)
    ∧ (pile = [] → rank c = 2 → b = false).
Proof.
  intros Hpile. unfold canPlaceOnFoundation. rewrite Hpile. cbn.
  destruct (last pile) as [topCard|] eqn:Htop.
  - eexists; split; [done|]. split; [|split].
    + rewrite andb_true_iff, !bool_decide_eq_true. split.
      * intros [? ?]. right. eauto.
      * intros [[-> _]|(t & [= <-] & ? & ?)]; done.
    + intros ->. done.
    + intros ->. done.
  - apply last_None in Htop. subst pile.
    eexists; split; [done|]. split; [|split].
    + rewrite bool_decide_eq_true. split; [by left|].
      intros [[_ ?]|(t & ? & _)]; done.
    + intros _ ?. by apply bool_decide_eq_true.
    + intros _ H2. apply bool_decide_eq_false. lia.
Qed.

Lemma C4_canPlaceOnFoundation_iff_witness :
  ∃ b, canPlaceOnFoundation initialStore (mkCard hearts 1 true "hearts-1") 0
       = Some b
    ∧ (b = true ↔
         (@nil Card = [] ∧ 1 = 1)
         ∨ (∃ topCard, last (@nil Card) = Some topCard
              ∧ hearts = suit topCard ∧ 1 = rank topCard + 1))
    ∧ (@nil Card = [] → 1 = 1 → b = true)
    ∧ (@nil Card = [] → 1 = 2 → b = false).
Proof.
  apply (C4_canPlaceOnFoundation_iff initialStore
           (mkCard hearts 1 true "hearts-1") 0 []).
  reflexivity.
Defined.

(** C5. On a column that exists (index 0..6 of the seven columns),
    [canPlaceOnTableau] answers, and it answers [true] exactly when the
    column is empty and the card is a king, or the top card is of the other
    colour and the card's rank is the top's rank minus one.  So a king goes
    on an empty column and a queen does not. *)
Theorem C5_canPlaceOnTableau_iff (r : Store) (c : Card)
    (columnIndex : nat) (column : list Card) :
  tableau (gameState r) !! columnIndex = Some column →
  ∃ b, canPlaceOnTableau r c columnIndex = Some b
    ∧ (b = true ↔
         (column = [] ∧ rank c = 13)
         ∨ (∃ topCard, last column = Some topCard
              ∧ colorOf (suit c) ≠ colorOf (suit topCard)
              ∧ rank c = rank topCard - 1))
    ∧ (column = [] → rank c = 13 → b = true)
    ∧ (column = [] → rank c = 12 → b = false).
Proof.
  intros Hcol. unfold canPlaceOnTableau. rewrite Hcol. cbn.
  destruct (last column) as [topCard|] eqn:Htop.
  - eexists; split; [done|]. split; [|split].
    + rewrite andb_true_iff, negb_true_iff, eqb_isRedSuit,
        bool_decide_eq_true.
      split.
      * intros [? ?]. right. eauto.
      * intros [[-> _]|(t & [= <-] & ? & ?)]; done.
    + intros ->. done.
    + intros ->. done.
  - apply last_None in Htop. subst column.
    eexists; split; [done|]. split; [|split].
    + rewrite bool_decide_eq_true. split; [by left|].
      intros [[_ ?]|(t & ? & _)]; done.
    + intros _ ?. by apply bool_decide_eq_true.
    + intros _ H12. apply bool_decide_eq_false. lia.
Qed.

Lemma C5_canPlaceOnTableau_iff_witness :
  ∃ b, canPlaceOnTableau initialStore (mkCard spades 13 true "spades-13") 3
       = Some b
    ∧ (b = true ↔
         (@nil Card = [] ∧ 13 = 13)
         ∨ (∃ topCard, last (@nil Card) = Some topCard
              ∧ colorOf spades ≠ colorOf (suit topCard)
              ∧ 13 = rank topCard - 1))
    ∧ (@nil Card = [] → 13 = 13 → b = true)
    ∧ (@nil Card = [] → 13 = 12 → b = false).
Proof.
  apply (C5_canPlaceOnTableau_iff initialStore
           (mkCard spades 13 true "spades-13") 3 []).
  reflexivity.
Defined.

(** *** Moveable sequences *)

(** The test that lets the loop of [getMoveableSequence] push [c] after
    [prev]. *)
Definition accepts (prev : option Card) (c : Card) : bool :=
  faceUp c
  && from_option
       (λ p, negb (eqb (isRedSuit c) (isRedSuit p)
                   || negb (bool_decide (rank c = rank p - 1))))
       true prev.

(** What the loop adds to the sequence it was started with. *)
Fixpoint extension (prev : option Card) (cards : list Card) : list Card :=
  match cards with
  | [] => []
  | c :: rest => if accepts prev c then c :: extension (Some c) rest else []
  end.

Lemma moveableLoop_extension (cards sequence : list Card) :
  moveableLoop cards sequence = sequence ++ extension (last sequence) cards.
Proof.
  revert sequence. induction cards as [|c rest IH]; intros sequence; cbn.
  - by rewrite app_nil_r.
  - unfold accepts. destruct (faceUp c); cbn; [|by rewrite app_nil_r].
    destruct (last sequence) as [p|] eqn:Hlast; cbn.
    + destruct (eqb (isRedSuit c) (isRedSuit p)
                || negb (bool_decide (rank c = rank p - 1))); cbn.
      * by rewrite app_nil_r.
      * rewrite IH, last_snoc, <- app_assoc. done.
    + rewrite IH, last_snoc, <- app_assoc. done.
Qed.

Lemma accepts_spec (prev : option Card) (c : Card) :
  accepts prev c = true
  ↔ faceUp c = true ∧ from_option (λ p, follows p c) True prev.
Proof.
  unfold accepts, follows. rewrite andb_true_iff.
  destruct prev as [p|]; cbn; [|tauto].
  rewrite negb_true_iff, orb_false_iff, negb_false_iff, eqb_isRedSuit,
    bool_decide_eq_true.
  done.
Qed.

Lemma extension_prefix (prev : option Card) (cards : list Card) :
  extension prev cards `prefix_of` cards.
Proof.
  revert prev. induction cards as [|c rest IH]; intros prev; cbn.
  - done.
  - destruct (accepts prev c); [|apply prefix_nil].
    apply prefix_cons, IH.
Qed.

Lemma extension_run (prev : option Card) (cards : list Card) :
  runFrom prev (extension prev cards).
Proof.
  revert prev. induction cards as [|c rest IH]; intros prev; cbn; [done|].
  destruct (accepts prev c) eqn:Hacc; cbn; [|done].
  apply accepts_spec in Hacc as [? ?]. auto.
Qed.

Lemma extension_longest (prev : option Card) (cards p : list Card) :
  p `prefix_of` cards → runFrom prev p → p `prefix_of` extension prev cards.
Proof.
  revert prev p. induction cards as [|c rest IH]; intros prev p Hpre Hrun.
  - apply prefix_nil_inv in Hpre as ->. done.
  - destruct p as [|c' p']; [apply prefix_nil|].
    pose proof (prefix_cons_inv_1 _ _ _ _ Hpre) as ->.
    apply prefix_cons_inv_2 in Hpre.
    cbn in Hrun. destruct Hrun as (Hup & Hfol & Hrest).
    cbn. rewrite (proj2 (accepts_spec prev c)) by done.
    apply prefix_cons, IH; done.
Qed.

(** C6. For a column of the tableau and a start index inside it,
    [getMoveableSequence] returns the longest prefix of the cards from the
    start index on that is a run (all face-up, each card of the other
    colour and one rank below the card before it): it is such a prefix and
    every such prefix is a prefix of it.  It is empty when the card at the
    start index is face-down and has length 1 when that card is face-up
    and the next card, if any, does not continue the run. *)
Theorem C6_getMoveableSequence_longest_run (r : Store)
    (columnIndex startIndex : nat) (column : list Card) (c : Card) :
  tableau (gameState r) !! columnIndex = Some column →
  column !! startIndex = Some c →
  ∃ sequence,
    getMoveableSequence r columnIndex startIndex = Some sequence
    ∧ sequence `prefix_of` drop startIndex column
    ∧ validRun sequence
    ∧ (∀ p, p `prefix_of` drop startIndex column → validRun p →
            p `prefix_of` sequence)
    ∧ (faceUp c = false → sequence = [])
    ∧ (faceUp c = true →
       (∀ c', column !! S startIndex = Some c' →
              ¬ (faceUp c' = true ∧ follows c c')) →
       sequence = [c]).
Proof.
  intros Hcol Hc. unfold getMoveableSequence. rewrite Hcol. cbn.
  eexists; split; [done|].
  rewrite moveableLoop_extension. cbn.
  split; [apply extension_prefix|].
  split; [apply extension_run|].
  split; [intros p; apply extension_longest|].
  rewrite (drop_S _ _ _ Hc). cbn.
  replace (accepts None c) with (faceUp c)
    by (unfold accepts; cbn; by rewrite andb_true_r).
  split.
  - intros ->. done.
  - intros -> Hnext. f_equal.
    destruct (column !! S startIndex) as [c'|] eqn:Hc'.
    + rewrite (drop_S _ _ _ Hc'). cbn.
      destruct (accepts (Some c) c') eqn:Hacc; [|done].
      apply accepts_spec in Hacc. cbn in Hacc.
      destruct (Hnext c' eq_refl). done.
    + apply lookup_ge_None in Hc'. by rewrite drop_ge.
Qed.

Lemma C6_getMoveableSequence_longest_run_witness :
  let c7 := mkCard spades 7 true "spades-7" in
  let c6 := mkCard hearts 6 true "hearts-6" in
  let c9 := mkCard clubs 9 true "clubs-9" in
  let column := [mkCard diamonds 2 false "diamonds-2"; c7; c6; c9] in
  let r := mkStore (mkGameState [] [] [[]; []; []; []]
                      [[]; column; []; []; []; []; []]) None None [] in
  ∃ sequence,
    getMoveableSequence r 1 1 = Some sequence
    ∧ sequence `prefix_of` drop 1 column
    ∧ validRun sequence
    ∧ (∀ p, p `prefix_of` drop 1 column → validRun p →
            p `prefix_of` sequence)
    ∧ (faceUp c7 = false → sequence = [])
    ∧ (faceUp c7 = true →
       (∀ c', column !! 2%nat = Some c' →
              ¬ (faceUp c' = true ∧ follows c7 c')) →
       sequence = [c7]).
Proof.
  intros c7 c6 c9 column r.
  apply (C6_getMoveableSequence_longest_run r 1 1 column c7); reflexivity.
Defined.

(** ** History manager *)

(** The [n] most recent entries of a history (most recent last). *)
Definition mostRecent {A} (n : nat) (history : list A) : list A :=
  drop (length history - n) history.

(** [saveGameState] in a batch of its own: nothing is written to the cards
    of [state] before the copy, and the copy is [state]. *)
Lemma saveGameState_spec (state : GameState) (s : Store) :
  saveGameState state s
  = Some {| gameState := gameState s; selectedCard := selectedCard s;
            draggedCard := draggedCard s;
            gameHistory := mostRecent 10 (gameHistory s ++ [state]) |}.
Proof.
  unfold render, saveGameState, setGameHistory, commit, startBatch, mostRecent.
  cbn. unfold afterWrites. cbn. rewrite cloneState_id.
  change (-10) with (- Z.of_nat 10). by rewrite slice_tail.
Qed.

Lemma mostRecent_length {A} (n : nat) (history : list A) :
  length (mostRecent n history) = (length history `min` n)%nat.
Proof. unfold mostRecent. rewrite length_drop. lia. Qed.

Lemma mostRecent_snoc {A} (n : nat) (history : list A) (x : A) :
  mostRecent (S n) (history ++ [x]) = mostRecent n history ++ [x].
Proof.
  unfold mostRecent. rewrite length_app. cbn.
  replace (length history + 1 - S n)%nat with (length history - n)%nat by lia.
  rewrite drop_app_le by lia. done.
Qed.

(** A recorded move: [saveGameState(gameState)] followed by one
    [setGameState(prev => ...)], run against the rendered store. *)
Definition recordedMove (writes : GameState → list CardRef)
    (f : GameState → option GameState) (r : Store) : option Store :=
  (saveGameState (gameState r) ;> setGameStateWriting writes f) r.

(** The entry pushed is the state the move started from as the updater has
    left its cards. *)
Lemma recordedMove_spec (writes : GameState → list CardRef)
    (f : GameState → option GameState) (r : Store) :
  recordedMove writes f r
  = g ← f (gameState r);
    Some {| gameState := g; selectedCard := selectedCard r;
            draggedCard := draggedCard r;
            gameHistory :=
              mostRecent 10
                (gameHistory r
                 ++ [afterWrites (writes (gameState r)) (gameState r)]) |}.
Proof.
  unfold recordedMove, render, seq_upd, saveGameState, setGameHistory,
    setGameStateWriting, commit, startBatch, mostRecent.
  cbn. destruct (f (gameState r)) as [g|]; cbn; [|done].
  rewrite cloneState_id.
  change (-10) with (- Z.of_nat 10). by rewrite slice_tail.
Qed.

Lemma handleUndo_snoc (s : Store) (history : list GameState)
    (previousState : GameState) :
  gameHistory s = history ++ [previousState] →
  dispatch handleUndo s
  = Some {| gameState := previousState; selectedCard := None;
            draggedCard := draggedCard s; gameHistory := history |}.
Proof.
  intros H. unfold dispatch, handleUndo. rewrite H, last_snoc.
  unfold render, seq_upd, putGameState, setGameState, setGameStateWriting,
    setGameHistory, setSelectedCard, commit, startBatch.
  cbn. rewrite H.
  change (-1) with (- Z.of_nat 1). rewrite slice_init.
  rewrite length_app. cbn.
  replace (length history + 1 - 1)%nat with (length history) by lia.
  by rewrite take_app_length.
Qed.

(** A handler that queues nothing leaves the store as it is. *)
Lemma render_skip (s : Store) : skip s = Some s.
Proof. by destruct s. Qed.

Lemma setGameState_render (f : GameState → option GameState) (s : Store) :
  setGameState f s
  = g ← f (gameState s);
    Some {| gameState := g; selectedCard := selectedCard s;
            draggedCard := draggedCard s; gameHistory := gameHistory s |}.
Proof.
  unfold render, setGameState, setGameStateWriting. cbn.
  by destruct (f (gameState s)).
Qed.

Lemma handleUndo_empty (s : Store) :
  gameHistory s = [] → dispatch handleUndo s = Some s.
Proof.
  intros H. unfold dispatch, handleUndo. rewrite H. apply render_skip.
Qed.

(** The stock click is a recorded move. *)
Definition stockWrites (prev : GameState) : list CardRef :=
  if decide (length (stock prev) = 0%nat) then []
  else [(Stock, (length (stock prev) - 1)%nat)].

Definition stockUpdater (prev : GameState) : option GameState :=
  if decide (length (stock prev) = 0%nat) then
    Some {| stock := setFaceUp false <$> reverse (waste prev); waste := [];
            foundations := foundations prev; tableau := tableau prev |}
  else
    '(drawnCard, newStock) ← JS.pop (stock prev);
    Some {| stock := newStock;
            waste := waste prev ++ [setFaceUp true drawnCard];
            foundations := foundations prev; tableau := tableau prev |}.

Lemma handleStockClick_recorded (r : Store) :
  dispatch handleStockClick r = recordedMove stockWrites stockUpdater r.
Proof. reflexivity. Qed.

Lemma moveCard_recorded (r : Store) from to sequence :
  moveCard r from to sequence r
  = recordedMove (uncovered from (length (cardsToMoveOf from sequence)))
      (moveCardUpdater from to sequence) r.
Proof. reflexivity. Qed.

Lemma stockUpdater_total (g : GameState) : is_Some (stockUpdater g).
Proof.
  unfold stockUpdater.
  destruct (stock g) as [|top rest _] using rev_ind; [done|].
  destruct (decide _) as [Hlen|_];
    [rewrite length_app in Hlen; cbn in Hlen; lia|].
  by rewrite pop_snoc.
Qed.

(** *** Undo after a recorded move *)

(** Undo brings back the entry the move pushed. *)
Lemma undo_recordedMove (writes : GameState → list CardRef)
    (f : GameState → option GameState) (r s : Store) :
  recordedMove writes f r = Some s →
  dispatch handleUndo s
  = Some {| gameState := afterWrites (writes (gameState r)) (gameState r);
            selectedCard := None;
            draggedCard := draggedCard r;
            gameHistory := mostRecent 9 (gameHistory r) |}.
Proof.
  rewrite recordedMove_spec. intros H.
  destruct (f (gameState r)) as [g|]; [|done]. injection H as <-.
  erewrite handleUndo_snoc; [done|]. cbn. apply mostRecent_snoc.
Qed.

(** A pile identifier that names a pile of the state. *)
Definition pileExists (g : GameState) (p : PileId) : Prop :=
  match p with
  | Foundation i => (i < length (foundations g))%nat
  | Tableau i => (i < length (tableau g))%nat
  | Stock | Waste => True
  end.

Lemma removeFromSource_total (from : Intent) (cards : list Card)
    (g : GameState) :
  pileExists g (source from) →
  ∃ g', removeFromSource from cards g = Some g'
      ∧ length (foundations g') = length (foundations g)
      ∧ length (tableau g') = length (tableau g).
Proof.
  unfold removeFromSource, pileExists.
  destruct (source from) as [| |i|i]; intros H; try by eexists.
  - apply lookup_lt_is_Some in H as [pile ->]. cbn.
    eexists; split; [done|]. cbn. by rewrite length_insert.
  - apply lookup_lt_is_Some in H as [col ->]. cbn.
    eexists; split; [done|]. cbn. by rewrite length_insert.
Qed.

Lemma addToDestination_total (to : PileId) (cards : list Card)
    (g : GameState) :
  pileExists g to → is_Some (addToDestination to cards g).
Proof.
  unfold addToDestination, pileExists.
  destruct to as [| |i|i]; intros H; try done.
  - apply lookup_lt_is_Some in H as [pile ->]. done.
  - apply lookup_lt_is_Some in H as [col ->]. done.
Qed.

Lemma moveCardUpdater_total (from : Intent) (to : PileId)
    (sequence : option (list Card)) (g : GameState) :
  pileExists g (source from) → pileExists g to →
  is_Some (moveCardUpdater from to sequence g).
Proof.
  intros Hsrc Hto. unfold moveCardUpdater.
  destruct (removeFromSource_total from (cardsToMoveOf from sequence) g Hsrc)
    as (g' & -> & Hf & Ht). cbn.
  apply addToDestination_total.
  destruct to; cbn in *; lia.
Qed.

Lemma moveCard_total (r : Store) (from : Intent) (to : PileId)
    (sequence : option (list Card)) :
  pileExists (gameState r) (source from) → pileExists (gameState r) to →
  is_Some (moveCard r from to sequence r).
Proof.
  intros Hsrc Hto. rewrite moveCard_recorded, recordedMove_spec.
  destruct (moveCardUpdater_total from to sequence _ Hsrc Hto) as [g ->].
  done.
Qed.

Lemma canPlaceOnFoundation_total (r : Store) (c : Card) (i : nat) :
  (i < length (foundations (gameState r)))%nat →
  is_Some (canPlaceOnFoundation r c i).
Proof.
  intros H. apply lookup_lt_is_Some in H as [pile Hpile].
  unfold canPlaceOnFoundation. rewrite Hpile. cbn.
  by destruct (last pile).
Qed.

Lemma canPlaceOnFoundation_Some (r : Store) (c : Card) (i : nat) (b : bool) :
  canPlaceOnFoundation r c i = Some b →
  (i < length (foundations (gameState r)))%nat.
Proof.
  unfold canPlaceOnFoundation. intros H.
  apply lookup_lt_is_Some.
  destruct (foundations (gameState r) !! i); [done|]. done.
Qed.

Lemma canPlaceOnTableau_Some (r : Store) (c : Card) (i : nat) (b : bool) :
  canPlaceOnTableau r c i = Some b →
  (i < length (tableau (gameState r)))%nat.
Proof.
  unfold canPlaceOnTableau. intros H.
  apply lookup_lt_is_Some.
  destruct (tableau (gameState r) !! i); [done|]. done.
Qed.

(** The loop of [autoMoveToFoundation], one index at a time. *)
Lemma autoMoveLoop_nil (r : Store) (c : Card) (source : PileId)
    (index : option nat) (s : Store) :
  autoMoveLoop r [] c source index s = Some (false, s).
Proof. by destruct s. Qed.

Lemma autoMoveLoop_cons (r : Store) (i : nat) (rest : list nat) (c : Card)
    (source : PileId) (index : option nat) (s : Store) :
  autoMoveLoop r (i :: rest) c source index s
  = match canPlaceOnFoundation r c i with
    | Some true =>
        s' ← moveCard r {| card := c; source := source; index := index |}
                      (Foundation i) None s;
        Some (true, s')
    | Some false => autoMoveLoop r rest c source index s
    | None => None
    end.
Proof.
  cbn [autoMoveLoop].
  destruct (canPlaceOnFoundation r c i) as [[|]|]; reflexivity.
Qed.

(** What the loop of [autoMoveToFoundation] does: it moves to the first
    index that accepts the card, or reports [false] and changes nothing. *)
Lemma autoMoveLoop_spec (r : Store) (indices : list nat) (c : Card)
    (source : PileId) (index : option nat) (b : bool) (s : Store) :
  autoMoveLoop r indices c source index r = Some (b, s) →
  if b then
    ∃ i, i ∈ indices
       ∧ canPlaceOnFoundation r c i = Some true
       ∧ moveCard r {| card := c; source := source; index := index |}
                  (Foundation i) None r = Some s
  else s = r.
Proof.
  induction indices as [|i rest IH].
  - rewrite autoMoveLoop_nil. intros [= <- <-]. done.
  - rewrite autoMoveLoop_cons.
    destruct (canPlaceOnFoundation r c i) as [[|]|] eqn:Hcan; [| |done].
    + destruct (moveCard r _ _ _ r) as [s'|] eqn:Hmove; cbn; [|done].
      intros [= <- <-]. exists i. split; [left|done].
    + intros H. specialize (IH H). destruct b; [|done].
      destruct IH as (j & ? & ?). exists j. split; [by right|done].
Qed.

Lemma autoMoveLoop_total (r : Store) (indices : list nat) (c : Card)
    (source : PileId) (index : option nat) :
  (∀ i, i ∈ indices → (i < length (foundations (gameState r)))%nat) →
  pileExists (gameState r) source →
  is_Some (autoMoveLoop r indices c source index r).
Proof.
  intros Hidx Hsrc. induction indices as [|i rest IH].
  - by rewrite autoMoveLoop_nil.
  - rewrite autoMoveLoop_cons.
    destruct (canPlaceOnFoundation_total r c i) as [b ->];
      [apply Hidx; left|].
    destruct b.
    + destruct (moveCard_total r
                  {| card := c; source := source; index := index |}
                  (Foundation i) None) as [s ->]; cbn; [done| |done].
      apply Hidx. left.
    + apply IH. intros j Hj. apply Hidx. by right.
Qed.

(** The click that turns the face-down top card of a column. *)
Lemma flip_spec (r : Store) (c : Card) (colIndex : nat) (index : option nat)
    (column : list Card) :
  tableau (gameState r) !! colIndex = Some column →
  last column = Some c →
  faceUp c = false →
  handleCardClick r c (Tableau colIndex) index r
  = Some {| gameState :=
              {| stock := stock (gameState r); waste := waste (gameState r);
                 foundations := foundations (gameState r);
                 tableau :=
                   <[colIndex :=
                       <[(length column - 1)%nat := setFaceUp true c]> column]>
                     (tableau (gameState r)) |};
            selectedCard := selectedCard r; draggedCard := draggedCard r;
            gameHistory := gameHistory r |}.
Proof.
  intros Hcol Hlast Hdown. unfold handleCardClick. rewrite Hdown. cbn.
  rewrite Hcol. cbn. rewrite decide_True by done.
  unfold setGameState, setTopFaceUp, assign. rewrite Hlast. cbn.
  rewrite decide_True by (by eapply lookup_lt_Some). done.
Qed.

(** *** The bound of ten snapshots *)

(** A history updater that cannot make a history of at most ten entries
    longer than ten. *)
Definition boundedUpdater (f : HistoryUpdater) : Prop :=
  ∀ writes history,
    (length history ≤ 10)%nat → (length (f writes history) ≤ 10)%nat.

Definition boundedBatch (b : Batch) : Prop :=
  (length (gameHistory (cells b)) ≤ 10)%nat
  ∧ Forall boundedUpdater (historyQueue b).

(** Updates that cannot make a history of at most ten entries longer than
    ten. *)
Definition keepsBound (u : Upd) : Prop :=
  ∀ b b', boundedBatch b → enqueue u b = Some b' → boundedBatch b'.

Lemma boundedBatch_commit (b : Batch) :
  boundedBatch b → (length (gameHistory (commit b)) ≤ 10)%nat.
Proof.
  intros [Hh Hq]. unfold commit. cbn.
  generalize dependent (gameHistory (cells b)).
  induction Hq as [|f queue Hf _ IH]; intros history Hh; cbn; [done|].
  apply IH, Hf, Hh.
Qed.

Lemma keepsBound_render (u : Upd) (s s' : Store) :
  keepsBound u → (length (gameHistory s) ≤ 10)%nat → u s = Some s' →
  (length (gameHistory s') ≤ 10)%nat.
Proof.
  intros Hu Hs. unfold render.
  destruct (enqueue u (startBatch s)) as [b|] eqn:Hb; cbn; [|done].
  intros [= <-]. apply boundedBatch_commit, (Hu (startBatch s)); [|done].
  split; [done|constructor].
Qed.

Lemma keepsBound_skip : keepsBound skip.
Proof. by intros b b' H [= <-]. Qed.

Lemma keepsBound_throw : keepsBound throw.
Proof. by intros b b' H. Qed.

Lemma keepsBound_seq (u1 u2 : Upd) :
  keepsBound u1 → keepsBound u2 → keepsBound (u1 ;> u2).
Proof.
  intros H1 H2 b b' Hb. cbn.
  destruct (enqueue u1 b) as [b1|] eqn:E1; cbn; [|done].
  intros E2. eapply H2; [|done]. by eapply H1.
Qed.

Lemma keepsBound_bind {A} (o : option A) (k : A → Upd) :
  (∀ a, o = Some a → keepsBound (k a)) → keepsBound (letUpd o k).
Proof.
  intros H. destruct o as [a|]; cbn; [by apply H|apply keepsBound_throw].
Qed.

Lemma keepsBound_setGameStateWriting (writes : GameState → list CardRef)
    (f : GameState → option GameState) :
  keepsBound (setGameStateWriting writes f).
Proof.
  intros b b' Hb. cbn.
  destruct (f (gameState (cells b))); cbn; [|done]. by intros [= <-].
Qed.

Lemma keepsBound_setGameState (f : GameState → option GameState) :
  keepsBound (setGameState f).
Proof. apply keepsBound_setGameStateWriting. Qed.

Lemma keepsBound_setSelectedCard (v : option Intent) :
  keepsBound (setSelectedCard v).
Proof. by intros b b' Hb [= <-]. Qed.

Lemma keepsBound_setDraggedCard (v : option Intent) :
  keepsBound (setDraggedCard v).
Proof. by intros b b' Hb [= <-]. Qed.

Lemma keepsBound_setGameHistory (f : HistoryUpdater) :
  boundedUpdater f → keepsBound (setGameHistory f).
Proof.
  intros Hf b b' [Hh Hq] [= <-]. split; [done|]. cbn.
  apply Forall_app. split; [done|]. by constructor.
Qed.

Lemma keepsBound_saveGameState (state : GameState) :
  keepsBound (saveGameState state).
Proof.
  apply keepsBound_setGameHistory. intros writes history _.
  change (-10) with (- Z.of_nat 10). rewrite slice_tail, length_drop. lia.
Qed.

Lemma keepsBound_pop :
  keepsBound (setGameHistory (λ _ prev, JS.slice prev 0 (Some (-1)))).
Proof.
  apply keepsBound_setGameHistory. intros writes history Hh.
  change (-1) with (- Z.of_nat 1). rewrite slice_init, length_take. lia.
Qed.

Lemma keepsBound_clear : keepsBound (setGameHistory (λ _ _, [])).
Proof. apply keepsBound_setGameHistory. intros writes history _. cbn. lia. Qed.

Lemma keepsBound_moveCard (r : Store) from to sequence :
  keepsBound (moveCard r from to sequence).
Proof.
  apply keepsBound_seq;
    [apply keepsBound_saveGameState|apply keepsBound_setGameStateWriting].
Qed.

Lemma keepsBound_placeOnFoundation (r : Store) from i :
  keepsBound (placeOnFoundation r from i).
Proof.
  unfold placeOnFoundation.
  apply keepsBound_bind.
  intros [|] _; [apply keepsBound_moveCard|apply keepsBound_skip].
Qed.

Lemma keepsBound_placeOnTableau (r : Store) from i :
  keepsBound (placeOnTableau r from i).
Proof.
  unfold placeOnTableau.
  apply keepsBound_bind.
  intros [|] _; [|apply keepsBound_skip].
  apply keepsBound_bind.
  intros sequence _. apply keepsBound_moveCard.
Qed.

Lemma keepsBound_handleCardClick (r : Store) c src index :
  keepsBound (handleCardClick r c src index).
Proof.
  unfold handleCardClick. destruct (negb (faceUp c)).
  - destruct src; try apply keepsBound_skip.
    apply keepsBound_bind.
    intros column _. destruct (decide _);
      [apply keepsBound_setGameStateWriting|apply keepsBound_skip].
  - destruct (selectedCard r); [|apply keepsBound_setSelectedCard].
    apply keepsBound_seq; [|apply keepsBound_setSelectedCard].
    destruct src; auto using keepsBound_skip, keepsBound_placeOnFoundation,
      keepsBound_placeOnTableau.
Qed.

Lemma keepsBound_handleDrop (r : Store) target :
  keepsBound (handleDrop r target).
Proof.
  unfold handleDrop. destruct (draggedCard r); [|apply keepsBound_skip].
  apply keepsBound_seq; [|apply keepsBound_setDraggedCard].
  destruct target; auto using keepsBound_skip, keepsBound_placeOnFoundation,
    keepsBound_placeOnTableau.
Qed.

(** What [autoMoveToFoundation] queues is nothing or one [moveCard]. *)
Lemma autoMoveLoop_queues (r : Store) (indices : list nat) (c : Card)
    (src : PileId) (index : option nat) (b : bool) (u : Upd) :
  outcome (autoMoveLoop r indices c src index) = Some (b, u) →
  u = skip
  ∨ ∃ i, u = moveCard r {| card := c; source := src; index := index |}
                      (Foundation i) None.
Proof.
  induction indices as [|i rest IH]; cbn.
  - intros [= <- <-]. by left.
  - destruct (canPlaceOnFoundation r c i) as [[|]|]; cbn; [| |done].
    + intros [= <- <-]. right. by exists i.
    + exact IH.
Qed.

Lemma keepsBound_handleDoubleClick (r : Store) c src index :
  keepsBound (handleDoubleClick r c src index).
Proof.
  unfold handleDoubleClick, autoMoveToFoundation.
  destruct (faceUp c); [|apply keepsBound_skip].
  apply keepsBound_bind. intros [b u] Hu. cbn.
  apply autoMoveLoop_queues in Hu as [->|[i ->]];
    [apply keepsBound_skip|apply keepsBound_moveCard].
Qed.

Lemma keepsBound_handleUndo (r : Store) : keepsBound (handleUndo r).
Proof.
  unfold handleUndo, putGameState.
  destruct (last (gameHistory r)); [|apply keepsBound_skip].
  repeat apply keepsBound_seq;
    auto using keepsBound_setGameState, keepsBound_pop,
      keepsBound_setSelectedCard.
Qed.

Lemma keepsBound_foundationClick (r : Store) i :
  keepsBound (foundationClick r i).
Proof.
  unfold foundationClick. destruct (selectedCard r); [|apply keepsBound_skip].
  apply keepsBound_bind.
  intros [|] _; [|apply keepsBound_skip].
  apply keepsBound_seq;
    [apply keepsBound_moveCard|apply keepsBound_setSelectedCard].
Qed.

Lemma keepsBound_columnClick (r : Store) i :
  keepsBound (columnClick r i).
Proof.
  unfold columnClick.
  destruct (selectedCard r) as [selected|]; [|apply keepsBound_skip].
  destruct (tableau (gameState r) !! i) as [[|]|]; try apply keepsBound_skip.
  apply keepsBound_bind.
  intros [|] _; [|apply keepsBound_skip].
  apply keepsBound_bind.
  intros sequence _. apply keepsBound_seq;
    [apply keepsBound_moveCard|apply keepsBound_setSelectedCard].
Qed.

Lemma keepsBound_dealCards (rand : nat → nat) : keepsBound (dealCards rand).
Proof. apply keepsBound_setGameState. Qed.

Lemma keepsBound_confirmRestart (rand : nat → nat) :
  keepsBound (confirmRestart rand).
Proof.
  unfold confirmRestart.
  apply keepsBound_seq; [apply keepsBound_dealCards|].
  apply keepsBound_seq; [apply keepsBound_clear|].
  apply keepsBound_setSelectedCard.
Qed.

Lemma keepsBound_dragStart (r : Store) c src index :
  keepsBound (dragStart r c src index).
Proof.
  unfold dragStart, handleDragStart.
  destruct (faceUp c); [apply keepsBound_setDraggedCard|apply keepsBound_skip].
Qed.

Lemma keepsBound_handleStockClick (r : Store) :
  keepsBound (handleStockClick r).
Proof.
  apply keepsBound_seq;
    [apply keepsBound_saveGameState|apply keepsBound_setGameStateWriting].
Qed.

Ltac keepsBound_step :=
  lazymatch goal with
  | |- keepsBound (match ?x with _ => _ end) => destruct x
  | |- keepsBound (_ ;> _) => apply keepsBound_seq
  | |- keepsBound skip => exact keepsBound_skip
  | |- keepsBound (handleStockClick _) => apply keepsBound_handleStockClick
  | |- keepsBound (handleUndo _) => apply keepsBound_handleUndo
  | |- keepsBound (handleCardClick _ _ _ _) => apply keepsBound_handleCardClick
  | |- keepsBound (handleDoubleClick _ _ _ _) =>
      apply keepsBound_handleDoubleClick
  | |- keepsBound (handleDrop _ _) => apply keepsBound_handleDrop
  | |- keepsBound (dragStart _ _ _ _) => apply keepsBound_dragStart
  | |- keepsBound (foundationClick _ _) => apply keepsBound_foundationClick
  | |- keepsBound (columnClick _ _) => apply keepsBound_columnClick
  | |- keepsBound (confirmRestart _) => apply keepsBound_confirmRestart
  | |- keepsBound (dealCards _) => apply keepsBound_dealCards
  end.

Lemma keepsBound_handlerOf (e : Event) (r : Store) :
  keepsBound (handlerOf e r).
Proof.
  destruct e; cbv beta iota zeta delta [handlerOf]; repeat keepsBound_step.
Qed.

(** No store of a session has more than ten snapshots. *)
Lemma reachable_history_bound (s : Store) :
  reachable s → (length (gameHistory s) ≤ 10)%nat.
Proof.
  induction 1 as [rand s Hdeal|s e s' _ IH Hfire].
  - refine (keepsBound_render _ initialStore s
              (keepsBound_dealCards rand) _ Hdeal).
    unfold initialStore, gameHistory, length. lia.
  - exact (keepsBound_render _ s s' (keepsBound_handlerOf e s) IH Hfire).
Qed.

(** *** Undo as a stack *)

(** [k] clicks on the undo button, one render after the other. *)
Fixpoint undoN (k : nat) (s : Store) : option Store :=
  match k with
  | O => Some s
  | S k' => s' ← dispatch handleUndo s; undoN k' s'
  end.

Lemma undoN_restores (k : nat) (s : Store) :
  (k ≤ length (gameHistory s))%nat →
  ∃ s', undoN k s = Some s'
      ∧ gameHistory s' = take (length (gameHistory s) - k) (gameHistory s)
      ∧ ((0 < k)%nat →
         gameHistory s !! (length (gameHistory s) - k)%nat
         = Some (gameState s')).
Proof.
  revert s. induction k as [|k IH]; intros s Hk.
  - exists s. cbn. split_and!; [done| |lia].
    rewrite Nat.sub_0_r. by rewrite firstn_all.
  - destruct (gameHistory s) as [|g history _] eqn:Hh using rev_ind;
      [cbn in Hk; lia|].
    rewrite length_app in Hk |- *. cbn in Hk |- *.
    rewrite (handleUndo_snoc s history g Hh). cbn.
    set (s1 := {| gameState := g; selectedCard := None;
                  draggedCard := draggedCard s; gameHistory := history |}).
    destruct (IH s1) as (s' & Hs' & Hhist & Hstate); [cbn; lia|].
    cbn in Hhist, Hstate.
    exists s'. split_and!; [done| |].
    + rewrite Hhist. rewrite take_app_le by lia. f_equal. lia.
    + intros _. destruct k as [|k].
      * cbn in Hs'. injection Hs' as <-. cbn.
        replace (length history + 1 - 1)%nat with (length history) by lia.
        apply list_lookup_middle. done.
      * rewrite lookup_app_l by lia.
        replace (length history + 1 - S (S k))%nat
          with (length history - S k)%nat by lia.
        apply Hstate. lia.
Qed.

Lemma undoN_stops (k : nat) (s : Store) :
  gameHistory s = [] → undoN k s = Some s.
Proof.
  intros H. induction k as [|k IH]; [done|].
  cbn. rewrite (handleUndo_empty s H). cbn. done.
Qed.

Lemma undoN_add (j k : nat) (s : Store) :
  undoN (j + k) s = s' ← undoN j s; undoN k s'.
Proof.
  revert s. induction j as [|j IH]; intros s; [done|].
  cbn. destruct (dispatch handleUndo s) as [s1|]; cbn; [apply IH|done].
Qed.

(** ** Rejected placements *)

(** The predicate for the target pile answers [false]. *)
Definition rejects (r : Store) (c : Card) (target : PileId) : Prop :=
  match target with
  | Foundation i => canPlaceOnFoundation r c i = Some false
  | Tableau i => canPlaceOnTableau r c i = Some false
  | Stock | Waste => False
  end.

(** C8. When the predicate for the target rejects the selected or dragged
    card, placing it changes neither the game state nor the history: the
    click on a face-up card of the target pile only clears the selection,
    the drop only clears the dragged card, and the click on an empty slot
    changes nothing at all. *)
Theorem C8_rejected_placement_changes_nothing (r : Store) (from : Intent)
    (target : PileId) :
  rejects r (card from) target →
  (∀ c index,
     faceUp c = true → selectedCard r = Some from →
     handleCardClick r c target index r
     = Some {| gameState := gameState r; selectedCard := None;
               draggedCard := draggedCard r; gameHistory := gameHistory r |})
  ∧ (draggedCard r = Some from →
     handleDrop r target r
     = Some {| gameState := gameState r; selectedCard := selectedCard r;
               draggedCard := None; gameHistory := gameHistory r |})
  ∧ (selectedCard r = Some from →
     match target with
     | Foundation i => foundationClick r i r = Some r
     | Tableau i => columnClick r i r = Some r
     | Stock | Waste => True
     end).
Proof.
  intros Hrej. split_and!.
  - intros c index Hup Hsel. unfold handleCardClick. rewrite Hup, Hsel. cbn.
    destruct target as [| |i|i]; cbn in Hrej; try done.
    + unfold seq_upd, placeOnFoundation. rewrite Hrej. done.
    + unfold seq_upd, placeOnTableau. rewrite Hrej. done.
  - intros Hdrag. unfold handleDrop. rewrite Hdrag.
    destruct target as [| |i|i]; cbn in Hrej; try done.
    + unfold seq_upd, placeOnFoundation. rewrite Hrej. done.
    + unfold seq_upd, placeOnTableau. rewrite Hrej. done.
  - intros Hsel. destruct target as [| |i|i]; cbn in Hrej; try done.
    + unfold foundationClick. rewrite Hsel, Hrej. apply render_skip.
    + unfold columnClick. rewrite Hsel.
      destruct (tableau (gameState r) !! i) as [[|]|];
        try apply render_skip.
      rewrite Hrej. apply render_skip.
Qed.

Lemma C8_rejected_placement_changes_nothing_witness :
  let queen := mkCard hearts 12 true "hearts-12" in
  let two := mkCard spades 2 true "spades-2" in
  let from := mkIntent queen Waste None in
  let r := mkStore (mkGameState [] [queen] [[]; []; []; []]
                      [[]; [two]; []; []; []; []; []])
                   (Some from) (Some from) [] in
  handleCardClick r two (Tableau 1) (Some 0%nat) r
  = Some {| gameState := gameState r; selectedCard := None;
            draggedCard := draggedCard r; gameHistory := gameHistory r |}
  ∧ handleDrop r (Tableau 1) r
    = Some {| gameState := gameState r; selectedCard := selectedCard r;
              draggedCard := None; gameHistory := gameHistory r |}.
Proof.
  intros queen two from r.
  destruct (C8_rejected_placement_changes_nothing r from (Tableau 1))
    as (Hclick & Hdrop & _); [reflexivity|].
  split; [apply Hclick; reflexivity|apply Hdrop; reflexivity].
Defined.

(** ** Positional removal in [moveCard] *)

(** The pile an identifier names. *)
Definition pileOf (g : GameState) (p : PileId) : option (list Card) :=
  match p with
  | Stock => Some (stock g)
  | Waste => Some (waste g)
  | Foundation i => foundations g !! i
  | Tableau i => tableau g !! i
  end.

(** How many trailing cards the claim says leave the source pile. *)
Definition removalCount (p : PileId) (cardsToMove : list Card) : nat :=
  match p with
  | Tableau _ => length cardsToMove
  | _ => 1%nat
  end.

(** The source pile after the removal of its [n] trailing cards; a tableau
    column then gets its new top card turned face-up. *)
Definition afterRemoval (p : PileId) (n : nat) (pile : list Card)
    : list Card :=
  match p with
  | Tableau _ => flipTop (take (length pile - n) pile)
  | _ => take (length pile - n) pile
  end.

Definition c10_seven : Card := mkCard spades 7 true "spades-7".
Definition c10_six : Card := mkCard hearts 6 true "hearts-6".

Definition c10_state : GameState :=
  {| stock := []; waste := []; foundations := [[]; []; []; []];
     tableau := [[c10_seven; c10_six]; []; []; []; []; []; []] |}.

Definition c10_from : Intent :=
  {| card := c10_six; source := Tableau 0; index := Some 2%nat |}.

Definition c10_store : Store :=
  {| gameState := c10_state; selectedCard := None; draggedCard := None;
     gameHistory := [] |}.

(** C10 fails on the code for an empty [sequence]: the last zero cards of
    the source column are to be removed, that is none of them, and
    [slice(0, -0)], which is [slice(0, 0)], keeps none of them: the column
    is emptied and nothing is appended to the destination. *)
Lemma C10_empty_sequence_counterexample :
  ∃ s, moveCard c10_store c10_from (Tableau 1) (Some []) c10_store = Some s
     ∧ pileOf (gameState c10_store) (source c10_from)
       = Some [c10_seven; c10_six]
     ∧ removalCount (source c10_from) (cardsToMoveOf c10_from (Some []))
       = 0%nat
     ∧ afterRemoval (source c10_from) 0 [c10_seven; c10_six]
       = [c10_seven; c10_six]
     ∧ pileOf (gameState s) (source c10_from) = Some []
     ∧ pileOf (gameState s) (source c10_from)
       ≠ Some (afterRemoval (source c10_from)
                 (removalCount (source c10_from)
                    (cardsToMoveOf c10_from (Some [])))
                 [c10_seven; c10_six]).
Proof. eexists. split_and!; try reflexivity. discriminate. Qed.

(** ** Conservation of the 52 cards *)

(** All the cards a state holds, pile after pile. *)
Definition allCards (g : GameState) : list Card :=
  stock g ++ waste g ++ concat (foundations g) ++ concat (tableau g).

(** What identifies a card, whichever way it faces. *)
Definition identity (c : Card) : Suit * Rank := (suit c, rank c).

Definition fullDeck : list (Suit * Rank) :=
  s ← suits; rk ← ranks; [(s, rk)].

(** Each of the 52 (suit, rank) pairs is held exactly once. *)
Definition conserved (g : GameState) : Prop :=
  identity <$> allCards g ≡ₚ fullDeck.

(** Only the top card of the column is face-up. *)
Definition topOnlyFaceUp (column : list Card) : bool :=
  match reverse column with
  | topCard :: below => faceUp topCard && forallb (λ c, negb (faceUp c)) below
  | [] => false
  end.

(** The layout of a fresh deal: column [c] of the tableau has [c + 1] cards
    with only the top one face-up, the stock has the other 24 cards,
    waste and foundations are empty. *)
Definition freshLayout (g : GameState) : Prop :=
  length <$> tableau g = [1; 2; 3; 4; 5; 6; 7]%nat
  ∧ forallb topOnlyFaceUp (tableau g) = true
  ∧ length (stock g) = 24%nat
  ∧ waste g = []
  ∧ foundations g = [[]; []; []; []].

Lemma swap_perm (i j : nat) (deck : list Card) : swap i j deck ≡ₚ deck.
Proof.
  unfold swap.
  destruct (deck !! i) as [ci|] eqn:Hi; [|done].
  destruct (deck !! j) as [cj|] eqn:Hj; [|done].
  by apply Permutation_insert_swap.
Qed.

Lemma shuffleLoop_perm (rand : nat → nat) (i : nat) (deck : list Card) :
  shuffleLoop rand i deck ≡ₚ deck.
Proof.
  revert deck. induction i as [|i IH]; intros deck; [done|].
  cbn [shuffleLoop]. rewrite IH. apply swap_perm.
Qed.

Lemma createDeck_perm (rand : nat → nat) : createDeck rand ≡ₚ orderedDeck.
Proof. apply shuffleLoop_perm. Qed.

Lemma orderedDeck_identity : identity <$> orderedDeck = fullDeck.
Proof. reflexivity. Qed.

Lemma createDeck_length (rand : nat → nat) :
  length (createDeck rand) = 52%nat.
Proof. by rewrite (Permutation_length (createDeck_perm rand)). Qed.

Lemma createDeck_faceDown (rand : nat → nat) :
  Forall (λ c, faceUp c = false) (createDeck rand).
Proof.
  rewrite (createDeck_perm rand).
  unfold orderedDeck. cbv. repeat constructor.
Qed.

(** Dealing any deck of 52 cards lays all of them out. *)
Lemma dealt_layout (deck : list Card) :
  length deck = 52%nat →
  ∃ g, dealt deck = Some g
     ∧ identity <$> allCards g ≡ₚ identity <$> deck
     ∧ length <$> tableau g = [1; 2; 3; 4; 5; 6; 7]%nat
     ∧ forallb topOnlyFaceUp (tableau g) = true
     ∧ stock g = drop 28 deck
     ∧ waste g = []
     ∧ foundations g = [[]; []; []; []].
Proof.
  intros Hlen.
  do 52 (destruct deck as [|? deck]; [discriminate Hlen|]).
  destruct deck; [|discriminate Hlen]. clear Hlen.
  eexists. split; [vm_compute; reflexivity|].
  split_and!; try reflexivity.
  match goal with
  | |- ?a ≡ₚ ?b =>
      change a with (drop 28 b ++ take 28 b);
      rewrite <- (take_drop 28 b) at 3
  end.
  apply Permutation_app_comm.
Qed.

(** A deal replaces the game state by a fresh layout of the 52 cards and
    touches nothing else in the store. *)
Lemma dealCards_fresh (rand : nat → nat) (r : Store) :
  ∃ g, dealCards rand r
       = Some {| gameState := g; selectedCard := selectedCard r;
                 draggedCard := draggedCard r; gameHistory := gameHistory r |}
     ∧ conserved g
     ∧ freshLayout g
     ∧ Forall (λ c, faceUp c = false) (stock g).
Proof.
  destruct (dealt_layout (createDeck rand) (createDeck_length rand))
    as (g & Hg & Hperm & Hlens & Htops & Hstock & Hwaste & Hfound).
  exists g. unfold dealCards. rewrite setGameState_render, Hg.
  split_and!; [done| | |].
  - unfold conserved. rewrite Hperm, (createDeck_perm rand).
    by rewrite orderedDeck_identity.
  - unfold freshLayout. split_and!; try done.
    rewrite Hstock, length_drop, createDeck_length. done.
  - rewrite Hstock. apply Forall_drop, createDeck_faceDown.
Qed.

Lemma run_reachable (events : list Event) (s s' : Store) :
  reachable s → run s events = Some s' → reachable s'.
Proof.
  revert s. induction events as [|e events IH]; intros s Hs; cbn.
  - by intros [= <-].
  - destruct (fire s e) as [s1|] eqn:Hfire; cbn; [|done].
    apply IH. by eapply reachable_fire.
Qed.

(** The shuffle that leaves the ordered deck as it is, except that the
    ace of spades comes sixth and the two of hearts third: the first three
    columns are dealt with the ace of hearts, the two of hearts and the ace
    of spades on top. *)
Definition c1_rand (i : nat) : nat :=
  if decide (i = 39%nat) then 5%nat
  else if decide (i = 2%nat) then 1%nat
  else i.

(** The ace of hearts goes to a foundation by double-click; the ace of
    spades is selected and placed on the two of hearts; the two of hearts,
    now under the ace of spades, is double-clicked.  A double-click comes
    after two clicks on the same card (the first selects it, the second
    finds no legal placement and clears the selection). *)
Definition c1_events : list Event :=
  [ClickTableauCard 0 0; ClickTableauCard 0 0; DoubleClickTableauCard 0 0;
   ClickTableauCard 2 2; ClickTableauCard 1 1;
   ClickTableauCard 1 1; ClickTableauCard 1 1; DoubleClickTableauCard 1 1].

Definition c1_twoOfHearts : Card := mkCard hearts 2 true "hearts-2".

(** C1 fails on the code.  From a fresh deal, which holds each of the 52
    cards once, three moves of ordinary play lead to a state that holds the
    two of hearts twice (on a foundation and in its column) and the ace of
    spades nowhere: the double-click on a face-up card that is not the top
    of its column appends that card to the foundation and removes the top
    card of the column instead. *)
Theorem C1_double_click_breaks_conservation :
  ∃ s0 s,
    dealCards c1_rand initialStore = Some s0
    ∧ conserved (gameState s0)
    ∧ run s0 c1_events = Some s
    ∧ reachable s
    ∧ foundations (gameState s) !! 0%nat
      = Some [mkCard hearts 1 true "hearts-1"; c1_twoOfHearts]
    ∧ tableau (gameState s) !! 1%nat
      = Some [mkCard hearts 3 false "hearts-3"; c1_twoOfHearts]
    ∧ ((spades, 1) ∉ identity <$> allCards (gameState s))
    ∧ ¬ conserved (gameState s).
Proof.
  destruct (dealCards_fresh c1_rand initialStore) as (g0 & Hdeal & Hcons & _).
  eexists. eexists.
  split; [exact Hdeal|]. split; [exact Hcons|].
  assert (Hg0 : dealCards c1_rand initialStore
                = Some (mkStore g0 None None [])) by exact Hdeal.
  vm_compute in Hg0. injection Hg0 as <-.
  split; [vm_compute; reflexivity|].
  split.
  { eapply (run_reachable c1_events).
    - apply (reachable_deal c1_rand). exact Hdeal.
    - vm_compute. reflexivity. }
  split; [reflexivity|]. split; [reflexivity|].
  split.
  - apply (bool_decide_unpack _). vm_compute. reflexivity.
  - intros Hperm.
    assert (Hnd : NoDup fullDeck)
      by (apply (bool_decide_unpack _); vm_compute; reflexivity).
    rewrite <- Hperm in Hnd. revert Hnd.
    apply (bool_decide_eq_false_1 _). vm_compute. reflexivity.
Qed.

(** ** Restart *)

(** The restart dialog deals again and empties the history. *)
Lemma confirmRestart_clears (rand : nat → nat) (r : Store) :
  ∃ g, confirmRestart rand r
       = Some {| gameState := g; selectedCard := None;
                 draggedCard := draggedCard r; gameHistory := [] |}
     ∧ conserved g
     ∧ freshLayout g
     ∧ Forall (λ c, faceUp c = false) (stock g).
Proof.
  destruct (dealCards_fresh rand r) as (g & Hdeal & Hrest).
  exists g. split; [|exact Hrest].
  unfold dealCards in Hdeal. rewrite setGameState_render in Hdeal.
  unfold confirmRestart, dealCards.
  revert Hdeal. generalize (dealt (createDeck rand)). intros [g'|]; [|done].
  intros [= ->]. reflexivity.
Qed.

(** A pile with the thirteen cards of a suit, ace to king, face-up. *)
Definition fullPile (s : Suit) : list Card :=
  (λ rk, mkCard s rk true (cardId s rk)) <$> ranks.

(** A finished game. *)
Definition c9_won : GameState :=
  {| stock := []; waste := [];
     foundations := fullPile <$> suits;
     tableau := [[]; []; []; []; []; []; []] |}.

(** The state before its last move: the king of spades is still on the
    first column. *)
Definition c9_before : GameState :=
  {| stock := []; waste := [];
     foundations :=
       [fullPile hearts; fullPile diamonds; fullPile clubs;
        take 12 (fullPile spades)];
     tableau :=
       [[mkCard spades 13 true "spades-13"]; []; []; []; []; []; []] |}.

(** The store when the win message shows, with that state in the
    history. *)
Definition c9_store : Store :=
  {| gameState := c9_won; selectedCard := None; draggedCard := None;
     gameHistory := [c9_before] |}.

(** The shuffle that swaps nothing. *)
Definition c9_rand (i : nat) : nat := i.

(** C9 fails on the code for the "New Game" button of the win message:
    it calls [dealCards] alone.  The store [c9_store] is what the last
    move of a game leaves; the button deals a fresh layout and the history
    still holds the snapshot of the finished game, which the next undo
    brings back.  The restart dialog, on the same store, empties the
    history. *)
Theorem C9_new_game_keeps_history :
  fire {| gameState := c9_before; selectedCard := None; draggedCard := None;
          gameHistory := [] |}
       (DoubleClickTableauCard 0 0)
  = Some c9_store
  ∧ isGameWon (gameState c9_store) = true
  ∧ (∃ s, fire c9_store (NewGame c9_rand) = Some s
        ∧ freshLayout (gameState s)
        ∧ gameHistory s = [c9_before]
        ∧ ∃ s', fire s ClickUndo = Some s'
              ∧ gameState s' = c9_before)
  ∧ (∃ s, fire c9_store (ConfirmRestart c9_rand) = Some s
        ∧ freshLayout (gameState s)
        ∧ gameHistory s = []).
Proof.
  split; [vm_compute; reflexivity|].
  split; [reflexivity|].
  destruct (dealCards_fresh c9_rand c9_store) as (g & Hdeal & _ & Hfresh & _).
  destruct (confirmRestart_clears c9_rand c9_store)
    as (g' & Hrestart & _ & Hfresh' & _).
  split.
  - eexists. split; [exact Hdeal|]. split; [exact Hfresh|].
    split; [reflexivity|].
    eexists. split; reflexivity.
  - eexists. split; [exact Hrestart|]. split; [exact Hfresh'|reflexivity].
Qed.

(** ** What conserves the cards *)

Lemma identity_setFaceUp (b : bool) (c : Card) :
  identity (setFaceUp b c) = identity c.
Proof. done. Qed.

Lemma identity_setFaceUp_fmap (b : bool) (l : list Card) :
  identity <$> (setFaceUp b <$> l) = identity <$> l.
Proof. rewrite <- list_fmap_compose. by apply list_fmap_ext. Qed.

Lemma identity_flipTop (column : list Card) :
  identity <$> flipTop column = identity <$> column.
Proof.
  unfold flipTop. destruct (last column) as [topCard|] eqn:Hlast; [|done].
  destruct (negb (faceUp topCard)); [|done].
  apply last_is_Some_snoc in Hlast as [col' ->].
  rewrite length_app. cbn.
  replace (length col' + 1 - 1)%nat with (length col' + 0)%nat by lia.
  rewrite insert_app_r. cbn. by rewrite !fmap_app.
Qed.

(** Replacing pile [i] by a pile that lacks the cards [extra]. *)
Lemma concat_insert_less (piles : list (list Card)) (i : nat)
    (pile pile' : list Card) (extra : list (Suit * Rank)) :
  piles !! i = Some pile →
  identity <$> pile ≡ₚ (identity <$> pile') ++ extra →
  identity <$> concat piles
  ≡ₚ (identity <$> concat (<[i := pile']> piles)) ++ extra.
Proof.
  revert i. induction piles as [|p piles IH]; intros i Hi Hperm; [done|].
  destruct i as [|i]; cbn in Hi |- *.
  - injection Hi as ->. rewrite !fmap_app, Hperm.
    rewrite <- !app_assoc. apply Permutation_app_head, Permutation_app_comm.
  - rewrite !fmap_app, (IH i Hi Hperm). by rewrite app_assoc.
Qed.

Lemma concat_insert_same (piles : list (list Card)) (i : nat)
    (pile pile' : list Card) :
  piles !! i = Some pile →
  identity <$> pile' = identity <$> pile →
  identity <$> concat (<[i := pile']> piles) ≡ₚ identity <$> concat piles.
Proof.
  intros Hi Heq. symmetry.
  rewrite (concat_insert_less piles i pile pile' []); [by rewrite app_nil_r|done|].
  by rewrite app_nil_r, Heq.
Qed.

Lemma concat_insert_more (piles : list (list Card)) (i : nat)
    (pile cards : list Card) :
  piles !! i = Some pile →
  identity <$> concat (<[i := pile ++ cards]> piles)
  ≡ₚ (identity <$> concat piles) ++ (identity <$> cards).
Proof.
  intros Hi.
  assert (Hi' : <[i := pile ++ cards]> piles !! i = Some (pile ++ cards))
    by (apply list_lookup_insert_eq; by eapply lookup_lt_Some).
  rewrite (concat_insert_less _ i (pile ++ cards) pile (identity <$> cards) Hi');
    [|by rewrite fmap_app].
  rewrite list_insert_insert_eq. by rewrite list_insert_id.
Qed.

(** The stock click conserves the cards. *)
Lemma stockUpdater_conserves (g g' : GameState) :
  stockUpdater g = Some g' →
  identity <$> allCards g' ≡ₚ identity <$> allCards g.
Proof.
  unfold stockUpdater, allCards.
  destruct (stock g) as [|top rest _] eqn:Hstock using rev_ind.
  - cbn. intros [= <-]. cbn.
    rewrite !fmap_app, identity_setFaceUp_fmap, fmap_reverse, reverse_Permutation.
    done.
  - destruct (decide _) as [Hlen|_];
      [rewrite length_app in Hlen; cbn in Hlen; lia|].
    rewrite pop_snoc. cbn. intros [= <-]. cbn.
    rewrite !fmap_app. cbn. rewrite <- !app_assoc. cbn.
    apply Permutation_app_head.
    symmetry. apply Permutation_middle.
Qed.

Lemma perm_rotate {A} (a b c : list A) : a ++ b ++ c ≡ₚ b ++ c ++ a.
Proof. rewrite (app_assoc b c a). apply Permutation_app_comm. Qed.

Ltac perm_tail :=
  rewrite <- ?app_assoc; repeat apply Permutation_app_head;
  first [done|apply Permutation_app_comm|apply perm_rotate].

(** The removal step takes the trailing cards of the source pile away,
    and nothing else. *)
Lemma removeFromSource_cards (from : Intent) (cards : list Card)
    (g g' : GameState) (pile : list Card) :
  source from ≠ Stock →
  pileOf g (source from) = Some pile →
  cards ≠ [] →
  removeFromSource from cards g = Some g' →
  identity <$> allCards g
  ≡ₚ (identity <$> allCards g')
     ++ (identity
           <$> drop (length pile - removalCount (source from) cards) pile).
Proof.
  intros Hsrc Hpile Hne. unfold removeFromSource, allCards.
  destruct (source from) as [| |i|i]; cbn in Hpile |- *; [done| | |].
  - injection Hpile as <-. intros [= <-]. cbn.
    change (-1) with (- Z.of_nat 1). rewrite slice_init.
    rewrite <- (take_drop (length (waste g) - 1) (waste g)) at 1.
    rewrite !fmap_app. perm_tail.
  - rewrite Hpile. cbn. intros [= <-]. cbn.
    change (-1) with (- Z.of_nat 1). rewrite slice_init.
    rewrite !fmap_app.
    rewrite (concat_insert_less (foundations g) i pile
               (take (length pile - 1) pile)
               (identity <$> drop (length pile - 1) pile) Hpile)
      by (by rewrite <- fmap_app, take_drop).
    perm_tail.
  - rewrite Hpile. cbn. intros [= <-]. cbn.
    destruct cards as [|c cards]; [done|].
    change (length (c :: cards)) with (S (length cards)).
    rewrite slice_init, !fmap_app.
    rewrite (concat_insert_less (tableau g) i pile
               (flipTop (take (length pile - S (length cards)) pile))
               (identity <$> drop (length pile - S (length cards)) pile) Hpile)
      by (by rewrite identity_flipTop, <- fmap_app, take_drop).
    by rewrite <- !app_assoc.
Qed.

Lemma addToDestination_cards (to : PileId) (cards : list Card)
    (g g' : GameState) :
  to ≠ Stock → to ≠ Waste →
  addToDestination to cards g = Some g' →
  identity <$> allCards g'
  ≡ₚ (identity <$> allCards g) ++ (identity <$> cards).
Proof.
  intros Hs Hw. unfold addToDestination, allCards.
  destruct to as [| |i|i]; [done|done| |].
  - destruct (foundations g !! i) as [pile|] eqn:Hpile; cbn; [|done].
    intros [= <-]. cbn. rewrite !fmap_app.
    rewrite (concat_insert_more _ _ _ _ Hpile).
    perm_tail.
  - destruct (tableau g !! i) as [pile|] eqn:Hpile; cbn; [|done].
    intros [= <-]. cbn. rewrite !fmap_app.
    rewrite (concat_insert_more _ _ _ _ Hpile).
    by rewrite <- !app_assoc.
Qed.

(** A move conserves the cards when the cards it appends are the trailing
    cards it removes. *)
Lemma moveCardUpdater_conserves (from : Intent) (to : PileId)
    (sequence : option (list Card)) (g g' : GameState) (pile : list Card) :
  let cards := cardsToMoveOf from sequence in
  source from ≠ Stock → to ≠ Stock → to ≠ Waste →
  pileOf g (source from) = Some pile →
  cards ≠ [] →
  identity <$> drop (length pile - removalCount (source from) cards) pile
  ≡ₚ identity <$> cards →
  moveCardUpdater from to sequence g = Some g' →
  identity <$> allCards g' ≡ₚ identity <$> allCards g.
Proof.
  intros cards Hsrc Hs Hw Hpile Hne Hsame. unfold moveCardUpdater. fold cards.
  destruct (removeFromSource from cards g) as [g1|] eqn:Hrem; cbn; [|done].
  intros Hadd.
  rewrite (addToDestination_cards to cards g1 g' Hs Hw Hadd).
  rewrite (removeFromSource_cards from cards g g1 pile Hsrc Hpile Hne Hrem).
  by rewrite Hsame.
Qed.

(** *** A stale selection *)

(** The ace of hearts is selected; the double-click on the ace of spades
    comes with two clicks, of which the second selects that ace, and sends
    it to a foundation: the selection still names the ace at index 2 of a
    column that now has two cards. *)
Definition c10_events : list Event :=
  [ClickTableauCard 0 0; ClickTableauCard 2 2; ClickTableauCard 2 2;
   DoubleClickTableauCard 2 2].

(** The call of [moveCard] with an empty sequence occurs in play: in the
    store these events reach, a click on the two of hearts places the
    selected ace with [getMoveableSequence(2, 2) = []], and the two cards
    of column 2 are gone. *)
Lemma stale_selection_empties_column :
  ∃ s0 s selected s',
    dealCards c1_rand initialStore = Some s0
    ∧ run s0 c10_events = Some s
    ∧ reachable s
    ∧ selectedCard s = Some selected
    ∧ canPlaceOnTableau s (card selected) 1 = Some true
    ∧ sequenceOf s selected = Some (Some [])
    ∧ length <$> tableau (gameState s) = [1; 2; 2; 4; 5; 6; 7]%nat
    ∧ fire s (ClickTableauCard 1 1) = Some s'
    ∧ length <$> tableau (gameState s') = [1; 2; 0; 4; 5; 6; 7]%nat
    ∧ length (allCards (gameState s')) = 50%nat.
Proof.
  destruct (dealCards_fresh c1_rand initialStore) as (g0 & Hdeal & _).
  assert (Hg0 : dealCards c1_rand initialStore
                = Some (mkStore g0 None None [])) by exact Hdeal.
  vm_compute in Hg0. injection Hg0 as <-.
  do 4 eexists.
  split; [exact Hdeal|].
  split; [vm_compute; reflexivity|].
  split.
  { eapply (run_reachable c10_events).
    - apply (reachable_deal c1_rand). exact Hdeal.
    - vm_compute. reflexivity. }
  split; [reflexivity|].
  split; [reflexivity|].
  split; [reflexivity|].
  split; [reflexivity|].
  split; [vm_compute; reflexivity|].
  split; reflexivity.
Qed.

(** ** The snapshot is taken after the move *)

Lemma run_app (s : Store) (events1 events2 : list Event) :
  run s (events1 ++ events2) = s' ← run s events1; run s' events2.
Proof.
  revert s. induction events1 as [|e events1 IH]; intros s; cbn; [done|].
  destruct (fire s e) as [s1|]; cbn; [apply IH|done].
Qed.

Lemma fire_ClickStock (r : Store) :
  fire r ClickStock = recordedMove stockWrites stockUpdater r.
Proof. reflexivity. Qed.

(** [k] clicks on a stock with at least [k] cards turn its top [k] cards
    onto the waste, the top card first. *)
Lemma stock_draws (k : nat) (r : Store) (below drawn : list Card) :
  stock (gameState r) = below ++ drawn →
  length drawn = k →
  ∃ s, run r (replicate k ClickStock) = Some s
     ∧ stock (gameState s) = below
     ∧ waste (gameState s)
       = waste (gameState r) ++ (setFaceUp true <$> reverse drawn)
     ∧ foundations (gameState s) = foundations (gameState r)
     ∧ tableau (gameState s) = tableau (gameState r).
Proof.
  revert r drawn. induction k as [|k IH]; intros r drawn Hstock Hlen.
  - apply nil_length_inv in Hlen as ->. exists r. cbn.
    rewrite app_nil_r in Hstock |- *. done.
  - destruct drawn as [|top drawn' _] using rev_ind; [done|].
    rewrite length_app in Hlen. cbn in Hlen.
    cbn [replicate run]. rewrite fire_ClickStock, recordedMove_spec.
    unfold stockUpdater. rewrite Hstock, app_assoc.
    destruct (decide _) as [Hzero|_];
      [rewrite length_app in Hzero; cbn in Hzero; lia|].
    rewrite pop_snoc. cbn.
    match goal with
    | |- ∃ s, run ?r1 _ = _ ∧ _ =>
        destruct (IH r1 drawn') as (s & Hrun & Hs & Hw & Hf & Ht);
        [done|lia|]
    end.
    exists s. split; [exact Hrun|]. cbn in Hw, Hf, Ht.
    split_and!; [done| |done|done].
    rewrite Hw, reverse_snoc, fmap_cons, <- app_assoc. done.
Qed.

(** The stock after the draw has written to its last card. *)
Lemma afterWrites_drawn (g : GameState) (rest : list Card) (top : Card) :
  stock g = rest ++ [top] →
  afterWrites (stockWrites g) g
  = {| stock := rest ++ [setFaceUp true top]; waste := waste g;
       foundations := foundations g; tableau := tableau g |}.
Proof.
  intros Hstock. unfold stockWrites. rewrite Hstock.
  destruct (decide _) as [Hlen|_];
    [rewrite length_app in Hlen; cbn in Hlen; lia|].
  unfold afterWrites, assignFaceUp. cbn. rewrite Hstock, length_app. cbn.
  replace (length rest + 1 - 1)%nat with (length rest + 0)%nat by lia.
  by rewrite alter_app_r.
Qed.

(** A click on a stock that has cards: the top card goes face-up to the
    waste, and the entry pushed onto the history shows that card face-up
    on the stock it came from. *)
Lemma stock_click_draw (r : Store) (rest : list Card) (top : Card) :
  stock (gameState r) = rest ++ [top] →
  fire r ClickStock
  = Some {| gameState :=
              {| stock := rest;
                 waste := waste (gameState r) ++ [setFaceUp true top];
                 foundations := foundations (gameState r);
                 tableau := tableau (gameState r) |};
            selectedCard := selectedCard r;
            draggedCard := draggedCard r;
            gameHistory :=
              mostRecent 10
                (gameHistory r
                 ++ [{| stock := rest ++ [setFaceUp true top];
                        waste := waste (gameState r);
                        foundations := foundations (gameState r);
                        tableau := tableau (gameState r) |}]) |}.
Proof.
  intros Hstock. rewrite fire_ClickStock, recordedMove_spec.
  rewrite (afterWrites_drawn _ rest top Hstock).
  unfold stockUpdater. rewrite Hstock.
  destruct (decide _) as [Hlen|_];
    [rewrite length_app in Hlen; cbn in Hlen; lia|].
  by rewrite pop_snoc.
Qed.

Lemma setFaceUp_differs (top : Card) :
  faceUp top = false → setFaceUp true top ≠ top.
Proof. intros Hdown Heq. by rewrite <- Heq in Hdown. Qed.

(** What a fresh deal leaves on the stock. *)
Lemma dealt_stock (rand : nat → nat) :
  ∃ g, dealCards rand initialStore
       = Some {| gameState := g; selectedCard := None; draggedCard := None;
                 gameHistory := [] |}
     ∧ length (stock g) = 24%nat
     ∧ Forall (λ c, faceUp c = false) (stock g)
     ∧ waste g = [].
Proof.
  destruct (dealCards_fresh rand initialStore)
    as (g & Hdeal & _ & (_ & _ & Hlen & Hwaste & _) & Hdown).
  exists g. split; [exact Hdeal|]. clear Hdeal. by split_and!.
Qed.

(** C7 fails on the code in the draw branch.  After any deal, the first
    click on the stock does move the top card face-up to the waste, but the
    entry it pushes onto the history is not the state it started from: the
    copy is made when React runs the queued updater, after the updater of
    [setGameState] has assigned [faceUp = true] to the drawn card, an
    object that the state to be copied still holds.  The snapshot shows
    the drawn card face-up on top of the stock. *)
Theorem C7_stock_click_saves_the_drawn_card_face_up (rand : nat → nat) :
  ∃ s0 s rest top,
    dealCards rand initialStore = Some s0
    ∧ stock (gameState s0) = rest ++ [top]
    ∧ faceUp top = false
    ∧ fire s0 ClickStock = Some s
    ∧ stock (gameState s) = rest
    ∧ waste (gameState s) = waste (gameState s0) ++ [setFaceUp true top]
    ∧ foundations (gameState s) = foundations (gameState s0)
    ∧ tableau (gameState s) = tableau (gameState s0)
    ∧ gameHistory s
      = [{| stock := rest ++ [setFaceUp true top];
            waste := waste (gameState s0);
            foundations := foundations (gameState s0);
            tableau := tableau (gameState s0) |}]
    ∧ gameHistory s ≠ [gameState s0].
Proof.
  destruct (dealt_stock rand) as (g & Hdeal & Hlen & Hdown & _).
  destruct (stock g) as [|top rest _] eqn:Hstock using rev_ind; [done|].
  apply Forall_app in Hdown as [_ Htop]. inversion_clear Htop as [|? ? Hup _].
  eexists. eexists. exists rest, top.
  split; [exact Hdeal|]. clear Hdeal. cbn [gameState].
  split; [exact Hstock|]. split; [exact Hup|].
  split; [apply stock_click_draw; exact Hstock|]. cbn.
  split_and!; try done.
  destruct g as [st w f t]. cbn in *. subst st.
  intros [= Heq]. apply app_inj_tail in Heq as [_ Heq].
  by apply (setFaceUp_differs top).
Qed.

(** C2 fails on the code.  After any deal, a click on the stock followed
    by undo does not give the dealt state back: the card that was drawn
    lies face-up on the stock.  The same happens after a move that
    uncovers a face-down card: in the deal of [c1_rand] the ace of spades
    is selected and placed on the two of hearts, which turns the five of
    hearts below it face-up; undo puts the ace back on a five of hearts
    that stays face-up. *)
Theorem C2_undo_does_not_turn_cards_back (rand : nat → nat) :
  (∃ s0 s1 s2 rest top,
     dealCards rand initialStore = Some s0
     ∧ stock (gameState s0) = rest ++ [top]
     ∧ faceUp top = false
     ∧ fire s0 ClickStock = Some s1
     ∧ fire s1 ClickUndo = Some s2
     ∧ gameState s2
       = {| stock := rest ++ [setFaceUp true top];
            waste := waste (gameState s0);
            foundations := foundations (gameState s0);
            tableau := tableau (gameState s0) |}
     ∧ gameState s2 ≠ gameState s0)
  ∧ (∃ s0 s1 s2,
       dealCards c1_rand initialStore = Some s0
       ∧ tableau (gameState s0) !! 2%nat
         = Some [mkCard hearts 4 false "hearts-4";
                 mkCard hearts 5 false "hearts-5";
                 mkCard spades 1 true "spades-1"]
       ∧ run s0 [ClickTableauCard 2 2; ClickTableauCard 1 1] = Some s1
       ∧ tableau (gameState s1) !! 1%nat
         = Some [mkCard hearts 3 false "hearts-3";
                 mkCard hearts 2 true "hearts-2";
                 mkCard spades 1 true "spades-1"]
       ∧ tableau (gameState s1) !! 2%nat
         = Some [mkCard hearts 4 false "hearts-4";
                 mkCard hearts 5 true "hearts-5"]
       ∧ fire s1 ClickUndo = Some s2
       ∧ tableau (gameState s2) !! 2%nat
         = Some [mkCard hearts 4 false "hearts-4";
                 mkCard hearts 5 true "hearts-5";
                 mkCard spades 1 true "spades-1"]
       ∧ gameState s2 ≠ gameState s0).
Proof.
  split.
  - destruct (dealt_stock rand) as (g & Hdeal & Hlen & Hdown & _).
    destruct (stock g) as [|top rest _] eqn:Hstock using rev_ind; [done|].
    apply Forall_app in Hdown as [_ Htop].
    inversion_clear Htop as [|? ? Hup _].
    eexists. eexists. eexists. exists rest, top.
    split; [exact Hdeal|]. clear Hdeal. cbn [gameState].
    split; [exact Hstock|]. split; [exact Hup|].
    split; [apply stock_click_draw; exact Hstock|].
    split; [by apply (handleUndo_snoc _ [])|]. cbn.
    split; [done|].
    destruct g as [st w f t]. cbn in *. subst st.
    intros [= Heq]. apply app_inj_tail in Heq as [_ Heq].
    by apply (setFaceUp_differs top).
  - destruct (dealCards_fresh c1_rand initialStore) as (g0 & Hdeal & _).
    assert (Hg0 : dealCards c1_rand initialStore
                  = Some (mkStore g0 None None [])) by exact Hdeal.
    vm_compute in Hg0. injection Hg0 as <-.
    eexists. eexists. eexists.
    split; [exact Hdeal|].
    split; [reflexivity|].
    split; [vm_compute; reflexivity|].
    split; [reflexivity|].
    split; [reflexivity|].
    split; [vm_compute; reflexivity|].
    split; [reflexivity|].
    apply (bool_decide_eq_false_1 _). vm_compute. reflexivity.
Qed.

(** The history after [k] clicks on the stock. *)
Lemma stock_clicks_history (k : nat) (r s : Store) :
  run r (replicate k ClickStock) = Some s →
  length (gameHistory s) = ((length (gameHistory r) + k) `min` 10)%nat
  ∨ (10 < length (gameHistory r))%nat.
Proof.
  revert r. induction k as [|k IH]; intros r; cbn [replicate run].
  - intros [= <-].
    destruct (decide (length (gameHistory r) ≤ 10)%nat); [left|right]; lia.
  - rewrite fire_ClickStock, recordedMove_spec.
    destruct (stockUpdater (gameState r)) as [g|]; cbn [mbind option_bind];
      [|done].
    intros Hrun. destruct (IH _ Hrun) as [Hlen|Hlong].
    + cbn in Hlen. rewrite mostRecent_length, length_app in Hlen. cbn in Hlen.
      destruct (decide (length (gameHistory r) ≤ 10)%nat); [left|right]; lia.
    + cbn in Hlong. rewrite mostRecent_length in Hlong. lia.
Qed.

(** Eleven clicks on a stock of 24 face-down cards, from an empty
    history, and the undos that follow. *)
Lemma eleven_clicks (s0 : Store) :
  length (stock (gameState s0)) = 24%nat →
  Forall (λ c, faceUp c = false) (stock (gameState s0)) →
  gameHistory s0 = [] →
  ∃ s10 s11 s' rest top,
    run s0 (replicate 10 ClickStock) = Some s10
    ∧ stock (gameState s10) = rest ++ [top]
    ∧ faceUp top = false
    ∧ fire s10 ClickStock = Some s11
    ∧ length (gameHistory s11) = 10%nat
    ∧ fire s11 ClickUndo = Some s'
    ∧ stock (gameState s') = rest ++ [setFaceUp true top]
    ∧ waste (gameState s') = waste (gameState s10)
    ∧ gameState s' ≠ gameState s10
    ∧ (∃ s_end, undoN 10 s11 = Some s_end
              ∧ gameHistory s_end = []
              ∧ undoN 11 s11 = Some s_end).
Proof.
  intros Hlen Hdown Hempty.
  set (st := stock (gameState s0)) in *.
  destruct (stock_draws 10 s0 (take 14 st) (drop 14 st))
    as (s10 & Hrun & Hstock10 & Hwaste10 & _).
  { by rewrite take_drop. }
  { rewrite length_drop. lia. }
  assert (Hh10 : length (gameHistory s10) = 10%nat).
  { destruct (stock_clicks_history 10 s0 s10 Hrun) as [H|H];
      rewrite Hempty in H; cbn in H; lia. }
  assert (Hlen14 : length (take 14 st) = 14%nat)
    by (rewrite length_take; lia).
  assert (Hdown14 : Forall (λ c, faceUp c = false) (take 14 st))
    by (by apply Forall_take).
  destruct (take 14 st) as [|top rest _] eqn:Htake using rev_ind; [done|].
  assert (Hup : faceUp top = false).
  { apply Forall_app in Hdown14 as [_ Htop]. by inversion Htop. }
  exists s10. eexists. eexists. exists rest, top.
  split; [exact Hrun|].
  split; [exact Hstock10|]. split; [exact Hup|].
  split; [apply stock_click_draw; exact Hstock10|].
  split; [cbn; rewrite mostRecent_length, length_app; cbn; lia|].
  rewrite mostRecent_snoc.
  split; [by apply handleUndo_snoc|]. cbn [gameState stock waste].
  split; [done|]. split; [done|].
  split.
  { destruct (gameState s10) as [st10 w f t]. cbn in *. subst st10.
    intros [= Heq]. apply app_inj_tail in Heq as [_ Heq].
    by apply (setFaceUp_differs top). }
  match goal with
  | |- ∃ s_end, undoN 10 ?s11 = _ ∧ _ =>
      destruct (undoN_restores 10 s11) as (s_end & Hundo & Hhist & _)
  end.
  { cbn. rewrite length_app, mostRecent_length. cbn. lia. }
  exists s_end. split; [exact Hundo|].
  assert (Hend : gameHistory s_end = []).
  { rewrite Hhist. cbn. rewrite length_app, mostRecent_length. cbn.
    replace (length (gameHistory s10) `min` 9 + 1 - 10)%nat with 0%nat by lia.
    done. }
  split; [exact Hend|].
  change 11%nat with (10 + 1)%nat. rewrite undoN_add, Hundo.
  cbn -[undoN]. by apply undoN_stops.
Qed.

(** C3 fails on the code where it has undo restore the prior states.
    After any deal and eleven clicks on the stock the history holds ten
    snapshots, ten undos empty it and the eleventh changes nothing, as the
    claim says; but the state the first undo restores is not the state
    before the eleventh click: its stock has the drawn card face-up on
    top.  Every snapshot of a draw is altered in this way. *)
Theorem C3_undo_restores_altered_snapshots (rand : nat → nat) :
  ∃ s0 s10 s11 s' rest top,
    dealCards rand initialStore = Some s0
    ∧ run s0 (replicate 10 ClickStock) = Some s10
    ∧ stock (gameState s10) = rest ++ [top]
    ∧ faceUp top = false
    ∧ fire s10 ClickStock = Some s11
    ∧ length (gameHistory s11) = 10%nat
    ∧ fire s11 ClickUndo = Some s'
    ∧ stock (gameState s') = rest ++ [setFaceUp true top]
    ∧ waste (gameState s') = waste (gameState s10)
    ∧ gameState s' ≠ gameState s10
    ∧ (∃ s_end, undoN 10 s11 = Some s_end
              ∧ gameHistory s_end = []
              ∧ undoN 11 s11 = Some s_end).
Proof.
  destruct (dealt_stock rand) as (g & Hdeal & Hlen & Hdown & _).
  destruct (eleven_clicks
              {| gameState := g; selectedCard := None; draggedCard := None;
                 gameHistory := [] |} Hlen Hdown eq_refl)
    as (s10 & s11 & s' & rest & top & Hrest).
  eexists. exists s10, s11, s', rest, top.
  split; [exact Hdeal|exact Hrest].
Qed.

(** * Further properties of the engine *)

(** ** The deck *)

(** X1. Whatever the random draws, [createDeck] returns the 52 cards of
    the two nested loops in some order: every (suit, rank) pair once, every
    card face-down, every rank between 1 and 13, and the ids, each built
    from suit and rank, pairwise distinct. *)
Theorem createDeck_is_full_deck (rand : nat → nat) :
  createDeck rand ≡ₚ orderedDeck
  ∧ length (createDeck rand) = 52%nat
  ∧ identity <$> createDeck rand ≡ₚ fullDeck
  ∧ NoDup (identity <$> createDeck rand)
  ∧ NoDup (id <$> createDeck rand)
  ∧ Forall (λ c, faceUp c = false
                 ∧ 1 ≤ rank c ≤ 13
                 ∧ id c = cardId (suit c) (rank c))
           (createDeck rand).
Proof.
  pose proof (createDeck_perm rand) as Hperm.
  split_and!.
  - done.
  - apply createDeck_length.
  - by rewrite Hperm, orderedDeck_identity.
  - rewrite Hperm. apply (bool_decide_unpack _). vm_compute. reflexivity.
  - rewrite Hperm. apply (bool_decide_unpack _). vm_compute. reflexivity.
  - rewrite Hperm. apply Forall_forall. intros c Hc.
    assert (Hall : forallb (λ c, negb (faceUp c)
                                 && bool_decide (1 ≤ rank c ≤ 13)
                                 && bool_decide (id c = cardId (suit c) (rank c)))
                     orderedDeck = true) by (vm_compute; reflexivity).
    rewrite forallb_forall in Hall.
    specialize (Hall c (proj1 (list_elem_of_In _ _) Hc)).
    rewrite !andb_true_iff, negb_true_iff, !bool_decide_eq_true in Hall.
    tauto.
Qed.

(** The cards of the tableau, column after column, are the first 28 cards
    of the deck in deck order. *)
Lemma dealt_order (deck : list Card) (g : GameState) :
  length deck = 52%nat →
  dealt deck = Some g →
  identity <$> concat (tableau g) = identity <$> take 28 deck.
Proof.
  intros Hlen.
  do 52 (destruct deck as [|? deck]; [discriminate Hlen|]).
  destruct deck; [|discriminate Hlen]. clear Hlen.
  vm_compute. intros [= <-]. reflexivity.
Qed.

(** X2. Whatever the shuffle and whatever the store, [dealCards] replaces
    the game state by a layout of all 52 cards: the tableau takes the first
    28 cards of the deck in order, column [c] getting [c + 1] of them with
    only its top card face-up, the stock takes the other 24 face-down,
    waste and foundations are empty.  Selection, dragged card and history
    are left as they were. *)
Theorem dealCards_lays_out_deck (rand : nat → nat) (r : Store) :
  ∃ g, dealCards rand r
       = Some {| gameState := g; selectedCard := selectedCard r;
                 draggedCard := draggedCard r; gameHistory := gameHistory r |}
     ∧ conserved g
     ∧ length <$> tableau g = [1; 2; 3; 4; 5; 6; 7]%nat
     ∧ forallb topOnlyFaceUp (tableau g) = true
     ∧ identity <$> concat (tableau g) = identity <$> take 28 (createDeck rand)
     ∧ stock g = drop 28 (createDeck rand)
     ∧ length (stock g) = 24%nat
     ∧ Forall (λ c, faceUp c = false) (stock g)
     ∧ waste g = []
     ∧ foundations g = [[]; []; []; []].
Proof.
  destruct (dealt_layout (createDeck rand) (createDeck_length rand))
    as (g & Hg & Hperm & Hlens & Htops & Hstock & Hwaste & Hfound).
  exists g. unfold dealCards. rewrite setGameState_render, Hg.
  split_and!.
  - reflexivity.
  - unfold conserved. rewrite Hperm, (createDeck_perm rand).
    by rewrite orderedDeck_identity.
  - exact Hlens.
  - exact Htops.
  - apply dealt_order; [apply createDeck_length|exact Hg].
  - exact Hstock.
  - rewrite Hstock, length_drop, createDeck_length. reflexivity.
  - rewrite Hstock. apply Forall_drop, createDeck_faceDown.
  - exact Hwaste.
  - exact Hfound.
Qed.

(** ** The win test *)

Lemma concat_length_13 (piles : list (list Card)) :
  forallb (λ pile, bool_decide (length pile = 13%nat)) piles = true →
  length (concat piles) = (13 * length piles)%nat.
Proof.
  induction piles as [|pile piles IH]; cbn; [done|].
  rewrite andb_true_iff, bool_decide_eq_true. intros [H13 Hrest].
  rewrite length_app, H13, (IH Hrest). lia.
Qed.

(** X3. In a state that holds the 52 cards once each on four foundations,
    [isGameWon] answers [true] only when nothing is left anywhere else:
    stock and waste are empty and so is every column. *)
Theorem won_leaves_nothing_behind (g : GameState) :
  conserved g →
  length (foundations g) = 4%nat →
  isGameWon g = true →
  stock g = [] ∧ waste g = [] ∧ Forall (λ column, column = []) (tableau g).
Proof.
  intros Hcons Hfour Hwon.
  assert (Hlen : length (allCards g) = 52%nat).
  { apply Permutation_length in Hcons. by rewrite length_fmap in Hcons. }
  unfold allCards in Hlen. rewrite !length_app in Hlen.
  unfold isGameWon in Hwon.
  rewrite (concat_length_13 _ Hwon), Hfour in Hlen.
  assert (Hs : length (stock g) = 0%nat) by lia.
  assert (Hw : length (waste g) = 0%nat) by lia.
  assert (Ht : length (concat (tableau g)) = 0%nat) by lia.
  split_and!.
  - by apply nil_length_inv.
  - by apply nil_length_inv.
  - apply nil_length_inv in Ht.
    induction (tableau g) as [|column columns IH]; [done|].
    cbn in Ht. apply app_eq_nil in Ht as [-> Hrest].
    constructor; [done|by apply IH].
Qed.

Lemma won_leaves_nothing_behind_witness :
  stock c9_won = [] ∧ waste c9_won = []
  ∧ Forall (λ column, column = []) (tableau c9_won).
Proof.
  apply won_leaves_nothing_behind.
  - unfold conserved. vm_compute. reflexivity.
  - reflexivity.
  - reflexivity.
Defined.

(** ** Auto-move *)

Lemma autoMoveLoop_seq (r : Store) (a n : nat) (c : Card) (src : PileId)
    (idx : option nat) (b : bool) (s : Store) :
  autoMoveLoop r (seq a n) c src idx r = Some (b, s) →
  if b then
    ∃ i, (a ≤ i < a + n)%nat
       ∧ canPlaceOnFoundation r c i = Some true
       ∧ (∀ j, (a ≤ j < i)%nat → canPlaceOnFoundation r c j = Some false)
       ∧ moveCard r {| card := c; source := src; index := idx |}
                  (Foundation i) None r = Some s
  else
    (∀ j, (a ≤ j < a + n)%nat → canPlaceOnFoundation r c j = Some false)
    ∧ s = r.
Proof.
  revert a. induction n as [|n IH]; intros a; cbn [seq].
  - rewrite autoMoveLoop_nil. intros [= <- <-]. split; [intros j ?; lia|done].
  - rewrite autoMoveLoop_cons.
    destruct (canPlaceOnFoundation r c a) as [[|]|] eqn:Hcan; [| |done].
    + destruct (moveCard r _ _ _ r) as [s'|] eqn:Hmove; cbn; [|done].
      intros [= <- <-]. exists a.
      split; [lia|]. split; [done|]. split; [|done].
      intros j ?. lia.
    + intros H. specialize (IH (S a) H). destruct b.
      * destruct IH as (i & Hi & Hfit & Hbefore & Hmove).
        exists i. split; [lia|]. split; [done|]. split; [|done].
        intros j Hj. destruct (decide (j = a)) as [->|]; [done|].
        apply Hbefore. lia.
      * destruct IH as [Hnone ->]. split; [|done].
        intros j Hj. destruct (decide (j = a)) as [->|]; [done|].
        apply Hnone. lia.
Qed.

(** X4. On a state with four foundations and an intent whose source pile
    exists, [autoMoveToFoundation] always answers.  When it answers [true]
    it has moved the card to the foundation of lowest index that accepts
    it, by one [moveCard]; when it answers [false] no foundation accepts
    the card and the store is untouched. *)
Theorem autoMoveToFoundation_first_fit (r : Store) (c : Card) (src : PileId)
    (idx : option nat) :
  length (foundations (gameState r)) = 4%nat →
  pileExists (gameState r) src →
  ∃ b s,
    autoMoveToFoundation r c src idx r = Some (b, s)
    ∧ if b : bool then
        ∃ i, (i < 4)%nat
           ∧ canPlaceOnFoundation r c i = Some true
           ∧ (∀ j, (j < i)%nat → canPlaceOnFoundation r c j = Some false)
           ∧ moveCard r {| card := c; source := src; index := idx |}
                      (Foundation i) None r = Some s
      else
        (∀ j, (j < 4)%nat → canPlaceOnFoundation r c j = Some false)
        ∧ s = r.
Proof.
  intros Hfour Hsrc.
  destruct (autoMoveLoop_total r [0; 1; 2; 3]%nat c src idx) as [[b s] Hs];
    [|done|].
  { intros i Hi. rewrite Hfour.
    repeat (apply elem_of_cons in Hi as [->|Hi]; [lia|]).
    by apply elem_of_nil in Hi. }
  exists b, s. split; [exact Hs|].
  apply (autoMoveLoop_seq r 0 4) in Hs. destruct b.
  - destruct Hs as (i & Hi & Hfit & Hbefore & Hmove).
    exists i. split; [lia|]. split; [done|]. split; [|done].
    intros j Hj. apply Hbefore. lia.
  - destruct Hs as [Hnone ->]. split; [|done].
    intros j Hj. apply Hnone. lia.
Qed.

Lemma autoMoveToFoundation_first_fit_witness :
  let two := mkCard hearts 2 true "hearts-2" in
  let r := mkStore (mkGameState [] [two]
                      [[]; [mkCard hearts 1 true "hearts-1"]; []; []]
                      [[]; []; []; []; []; []; []]) None None [] in
  ∃ b s,
    autoMoveToFoundation r two Waste None r = Some (b, s)
    ∧ if b : bool then
        ∃ i, (i < 4)%nat
           ∧ canPlaceOnFoundation r two i = Some true
           ∧ (∀ j, (j < i)%nat → canPlaceOnFoundation r two j = Some false)
           ∧ moveCard r {| card := two; source := Waste; index := None |}
                      (Foundation i) None r = Some s
      else
        (∀ j, (j < 4)%nat → canPlaceOnFoundation r two j = Some false)
        ∧ s = r.
Proof.
  intros two r.
  apply (autoMoveToFoundation_first_fit r two Waste None); [reflexivity|exact I].
Defined.

(** ** Going through the stock *)

(** X5. Clicking the stock once more than it has cards goes through the
    whole stock and recycles the waste: the stock is then the old stock
    followed by the old waste reversed, all face-down, and the waste is
    empty.  With an empty waste to begin with, the cycle gives the stock
    back in its order.  Foundations and tableau are not touched. *)
Theorem stock_cycle_restores_order (r : Store) :
  ∃ s,
    run r (replicate (S (length (stock (gameState r)))) ClickStock) = Some s
    ∧ stock (gameState s)
      = setFaceUp false
          <$> (stock (gameState r) ++ reverse (waste (gameState r)))
    ∧ waste (gameState s) = []
    ∧ foundations (gameState s) = foundations (gameState r)
    ∧ tableau (gameState s) = tableau (gameState r).
Proof.
  destruct (stock_draws (length (stock (gameState r))) r [] (stock (gameState r)))
    as (s1 & Hrun & Hs & Hw & Hf & Ht); [done|done|].
  replace (S (length (stock (gameState r))))
    with (length (stock (gameState r)) + 1)%nat by lia.
  rewrite replicate_add, run_app, Hrun. cbn [replicate mbind option_bind run].
  rewrite fire_ClickStock, recordedMove_spec. unfold stockUpdater.
  rewrite Hs. cbn.
  eexists. split; [done|]. cbn. rewrite Hw, Hf, Ht.
  split_and!; try done.
  rewrite reverse_app, !fmap_app, <- fmap_reverse, reverse_involutive.
  f_equal. rewrite <- list_fmap_compose. by apply list_fmap_ext.
Qed.

(** X6. Whatever the stock and the waste hold, a stock click keeps every
    card: the state after it holds the same (suit, rank) pairs, each as
    often as before. *)
Theorem stock_click_keeps_every_card (r : Store) :
  ∃ s, fire r ClickStock = Some s
     ∧ identity <$> allCards (gameState s)
       ≡ₚ identity <$> allCards (gameState r).
Proof.
  rewrite fire_ClickStock, recordedMove_spec.
  destruct (stockUpdater_total (gameState r)) as [g Hg]. rewrite Hg. cbn.
  eexists. split; [done|]. cbn. by apply stockUpdater_conserves.
Qed.

(** ** Clicks that select, deselect and flip *)

(** X7. A click on a face-down card of an existing pile never touches
    selection, dragged card, history, stock, waste or foundations, and
    keeps every card.  It changes the tableau in one case only: the card is
    the top card of the column it was clicked in, and then that card alone
    is turned face-up.  In every other case the store is unchanged. *)
Theorem face_down_click_turns_only_the_top (r : Store) (c : Card)
    (src : PileId) (idx : option nat) :
  faceUp c = false →
  pileExists (gameState r) src →
  ∃ s, handleCardClick r c src idx r = Some s
     ∧ selectedCard s = selectedCard r
     ∧ draggedCard s = draggedCard r
     ∧ gameHistory s = gameHistory r
     ∧ stock (gameState s) = stock (gameState r)
     ∧ waste (gameState s) = waste (gameState r)
     ∧ foundations (gameState s) = foundations (gameState r)
     ∧ identity <$> allCards (gameState s)
       ≡ₚ identity <$> allCards (gameState r)
     ∧ match src with
       | Tableau col =>
           ∀ column, tableau (gameState r) !! col = Some column →
             if decide (last column = Some c)
             then tableau (gameState s)
                  = <[col := <[(length column - 1)%nat := setFaceUp true c]>
                               column]>
                      (tableau (gameState r))
             else s = r
       | _ => s = r
       end.
Proof.
  intros Hdown Hsrc.
  destruct src as [| |i|col].
  1-3: exists r; split;
       [unfold handleCardClick; rewrite Hdown; apply render_skip
       |split_and!; done].
  cbn in Hsrc. apply lookup_lt_is_Some in Hsrc as [column Hcol].
  destruct (decide (last column = Some c)) as [Htop|Hnot].
  - rewrite (flip_spec r c col idx column Hcol Htop Hdown).
    eexists. split; [done|]. cbn. split_and!; try done.
    + unfold allCards. cbn. rewrite !fmap_app.
      do 3 apply Permutation_app_head.
      apply (concat_insert_same _ _ column); [done|].
      apply last_is_Some_snoc in Htop as [col' ->].
      rewrite length_app. cbn.
      replace (length col' + 1 - 1)%nat with (length col' + 0)%nat by lia.
      rewrite insert_app_r. cbn. by rewrite !fmap_app.
    + intros column' Hcol'.
      assert (column' = column) as -> by congruence.
      by rewrite decide_True.
  - exists r. split.
    { unfold handleCardClick. rewrite Hdown. cbn [negb]. rewrite Hcol.
      cbn [letUpd from_option]. rewrite decide_False by done.
      apply render_skip. }
    split_and!; try done.
    intros column' Hcol'.
    assert (column' = column) as -> by congruence.
    by rewrite decide_False.
Qed.

Lemma face_down_click_turns_only_the_top_witness :
  let q := mkCard hearts 12 false "hearts-12" in
  let r := mkStore (mkGameState [] [] [[]; []; []; []]
                      [[]; [q]; []; []; []; []; []]) None None [] in
  ∃ s, handleCardClick r q (Tableau 1) (Some 0%nat) r = Some s
     ∧ tableau (gameState s)
       = [[]; [mkCard hearts 12 true "hearts-12"]; []; []; []; []; []].
Proof.
  intros q r.
  destruct (face_down_click_turns_only_the_top r q (Tableau 1) (Some 0%nat))
    as (s & Hs & _ & _ & _ & _ & _ & _ & _ & Hflip); [reflexivity|cbn; lia|].
  exists s. split; [exact Hs|].
  exact (Hflip [q] eq_refl).
Defined.

(** The card an event clicks on, when that card is the top of its pile;
    the event names the pile the way the JSX does. *)
Definition clicksTopCard (g : GameState) (e : Event) (c : Card) : Prop :=
  match e with
  | ClickWaste => last (waste g) = Some c
  | ClickFoundation i =>
      ∃ pile, foundations g !! i = Some pile ∧ last pile = Some c
  | ClickTableauCard col k =>
      ∃ column, tableau g !! col = Some column ∧ last column = Some c
              ∧ k = (length column - 1)%nat
  | _ => False
  end.

(** X8. With nothing selected, a click on the face-up top card of the
    waste, of a foundation or of a column selects that card and changes
    nothing else; a second click on it takes the selection away again and
    the store is exactly what it was before the two clicks: no card moves
    and the history gets no entry. *)
Theorem click_twice_changes_nothing (r : Store) (e : Event) (c : Card) :
  selectedCard r = None →
  clicksTopCard (gameState r) e c →
  faceUp c = true →
  ∃ s1, fire r e = Some s1
      ∧ card <$> selectedCard s1 = Some c
      ∧ gameState s1 = gameState r
      ∧ gameHistory s1 = gameHistory r
      ∧ fire s1 e = Some r.
Proof.
  intros Hnone Htop Hup. destruct r as [g sel drag hist].
  cbn in Hnone, Htop. subst sel.
  destruct e as [| | | | |i| | |col k| | | | | |]; cbn in Htop; try done.
  - eexists. unfold fire, dispatch, handlerOf. cbn. rewrite Htop.
    unfold handleCardClick. rewrite Hup. cbn.
    split; [done|]. cbn. rewrite Htop, Hup. cbn. done.
  - destruct Htop as (pile & Hpile & Htop).
    eexists. unfold fire, dispatch, handlerOf. cbn. rewrite Hpile. cbn.
    rewrite Htop. unfold handleCardClick, foundationClick, seq_upd.
    rewrite Hup. cbn.
    split; [done|]. cbn. rewrite Hpile. cbn. rewrite Htop, Hup. cbn.
    unfold placeOnFoundation, canPlaceOnFoundation. cbn.
    rewrite Hpile. cbn. rewrite Htop. cbn.
    rewrite (bool_decide_eq_false_2 (rank c = rank c + 1)) by lia.
    rewrite andb_false_r. cbn. done.
  - destruct Htop as (column & Hcol & Htop & ->).
    assert (Hk : column !! (length column - 1)%nat = Some c).
    { apply last_is_Some_snoc in Htop as [col' ->].
      rewrite length_app. cbn.
      replace (length col' + 1 - 1)%nat with (length col') by lia.
      by apply list_lookup_middle. }
    assert (Hne : ∃ x xs, column = x :: xs).
    { destruct column; [done|eauto]. }
    destruct Hne as (x & xs & Hx).
    eexists. unfold fire, dispatch, handlerOf. cbn. rewrite Hcol. cbn.
    rewrite Hk. unfold handleCardClick, columnClick, seq_upd.
    rewrite Hup. cbn.
    split; [done|]. cbn. rewrite Hcol. cbn. rewrite Hk, Hup. cbn.
    unfold placeOnTableau, canPlaceOnTableau. cbn.
    rewrite Hcol. cbn. rewrite Htop. cbn.
    rewrite eqb_reflx. cbn.
    rewrite Hx. done.
Qed.

Lemma click_twice_changes_nothing_witness :
  let king := mkCard spades 13 true "spades-13" in
  let r := mkStore (mkGameState [] [] [[]; []; []; []]
                      [[]; [king]; []; []; []; []; []]) None None [] in
  ∃ s1, fire r (ClickTableauCard 1 0) = Some s1
      ∧ card <$> selectedCard s1 = Some king
      ∧ gameState s1 = gameState r
      ∧ gameHistory s1 = gameHistory r
      ∧ fire s1 (ClickTableauCard 1 0) = Some r.
Proof.
  intros king r.
  apply (click_twice_changes_nothing r (ClickTableauCard 1 0) king).
  - reflexivity.
  - exists [king]. split_and!; reflexivity.
  - reflexivity.
Defined.

(** ** Moveable sequences, once more *)

Lemma extension_after_prefix (p : Card) (cards : list Card) :
  extension (Some p) cards `prefix_of` extension None cards
  ∧ (extension (Some p) cards ≠ [] →
     extension None cards = extension (Some p) cards).
Proof.
  destruct cards as [|y cards]; cbn; [done|].
  unfold accepts. cbn. rewrite andb_true_r.
  destruct (faceUp y); cbn; [|done].
  destruct (negb _); [done|]. split; [apply prefix_nil|done].
Qed.

(** X9. When the moveable sequence from an index of a column has two or
    more cards, the moveable sequence from the next index is that sequence
    without its first card: a card inside a run can be picked up with the
    cards above it.  When it has one card, the sequence from the next
    index starts afresh and is not constrained by it. *)
Theorem getMoveableSequence_tail (r : Store) (col i : nat) (c : Card)
    (rest : list Card) :
  getMoveableSequence r col i = Some (c :: rest) →
  ∃ sequence', getMoveableSequence r col (S i) = Some sequence'
             ∧ rest `prefix_of` sequence'
             ∧ (rest ≠ [] → sequence' = rest).
Proof.
  unfold getMoveableSequence.
  destruct (tableau (gameState r) !! col) as [column|]; cbn; [|done].
  rewrite !moveableLoop_extension. cbn.
  destruct (column !! i) as [c'|] eqn:Hc.
  - rewrite (drop_S _ _ _ Hc). cbn.
    destruct (accepts None c'); [|done]. intros [= -> <-].
    eexists. split; [done|].
    apply extension_after_prefix.
  - apply lookup_ge_None in Hc. rewrite drop_ge by lia. done.
Qed.

Lemma getMoveableSequence_tail_witness :
  let c7 := mkCard spades 7 true "spades-7" in
  let c6 := mkCard hearts 6 true "hearts-6" in
  let c5 := mkCard clubs 5 true "clubs-5" in
  let r := mkStore (mkGameState [] [] [[]; []; []; []]
                      [[c7; c6; c5]; []; []; []; []; []; []]) None None [] in
  ∃ sequence', getMoveableSequence r 0 1 = Some sequence'
             ∧ [c6; c5] `prefix_of` sequence'
             ∧ ([c6; c5] ≠ [] → sequence' = [c6; c5]).
Proof.
  intros c7 c6 c5 r.
  apply (getMoveableSequence_tail r 0 0 c7 [c6; c5]). reflexivity.
Defined.

(** ** The two drag paths *)

Lemma pointerValid_foundation (d : DragStore) (from : Intent) (i : nat) :
  pointerValid d from (Some (Foundation i))
  = canPlaceOnFoundation (base d) (card from) i.
Proof. reflexivity. Qed.

Lemma pointerValid_tableau (d : DragStore) (from : Intent) (i : nat) :
  pointerValid d from (Some (Tableau i))
  = canPlaceOnTableau (base d) (card from) i.
Proof. reflexivity. Qed.

Lemma pointerFoundationUpdater_moveCard (from : Intent) (i : nat)
    (g : GameState) :
  pointerFoundationUpdater from i g
  = moveCardUpdater from (Foundation i) None g.
Proof.
  unfold pointerFoundationUpdater, moveCardUpdater, removeFromSource,
    addToDestination, cardsToMoveOf.
  destruct (source from); reflexivity.
Qed.

Lemma pointerTableauUpdater_moveCard (from : Intent) (i : nat)
    (sequence : option (list Card)) (g : GameState) :
  pointerTableauUpdater from i (cardsToMoveOf from sequence) g
  = moveCardUpdater from (Tableau i) sequence g.
Proof.
  unfold pointerTableauUpdater, moveCardUpdater, removeFromSource,
    addToDestination.
  destruct (source from); reflexivity.
Qed.

Lemma pointerCardsToMove_sequenceOf (d : DragStore) (from : Intent) :
  pointerCardsToMove d from = cardsToMoveOf from <$> sequenceOf (base d) from.
Proof.
  unfold pointerCardsToMove, sequenceOf, getMoveableSequence.
  destruct (source from) as [| |i|i]; try reflexivity.
  destruct (index from) as [k|]; [|reflexivity].
  destruct (tableau (gameState (base d)) !! i); reflexivity.
Qed.

(** The batch of a valid pointer drop. *)
Lemma pointer_recorded (g0 : GameState) (writes : GameState → list CardRef)
    (f : GameState → option GameState) (dragging : bool) (d : DragStore) :
  (setIsDragging dragging ;>>
   liftUpd (saveGameState g0 ;> setGameStateWriting writes f) ;>>
   setCustomDragCard None) d
  = g ← f (gameState (base d));
    Some {| base :=
              {| gameState := g; selectedCard := selectedCard (base d);
                 draggedCard := draggedCard (base d);
                 gameHistory :=
                   mostRecent 10
                     (gameHistory (base d)
                      ++ [afterWrites (writes (gameState (base d))) g0]) |};
            customDragCard := None; isDragging := dragging;
            isReturning := isReturning d |}.
Proof.
  unfold renderDrag, seq_dupd, liftUpd, seq_upd, saveGameState,
    setGameHistory, setGameStateWriting, setIsDragging, setCustomDragCard,
    commitDrag, commit, startDragBatch, startBatch, mostRecent.
  cbn. destruct (f (gameState (base d))); cbn; [|done].
  rewrite cloneState_id.
  change (-10) with (- Z.of_nat 10). by rewrite slice_tail.
Qed.

(** The batch of a valid native drop. *)
Lemma drop_recorded (g0 : GameState) (writes : GameState → list CardRef)
    (f : GameState → option GameState) (r : Store) :
  ((saveGameState g0 ;> setGameStateWriting writes f) ;> setDraggedCard None) r
  = g ← f (gameState r);
    Some {| gameState := g; selectedCard := selectedCard r;
            draggedCard := None;
            gameHistory :=
              mostRecent 10
                (gameHistory r ++ [afterWrites (writes (gameState r)) g0]) |}.
Proof.
  unfold render, seq_upd, saveGameState, setGameHistory, setGameStateWriting,
    setDraggedCard, commit, startBatch, mostRecent.
  cbn. destruct (f (gameState r)); cbn; [|done].
  rewrite cloneState_id.
  change (-10) with (- Z.of_nat 10). by rewrite slice_tail.
Qed.

(** What a placement leaves in the game cells that both drag paths
    write. *)
Definition gameCells (s : Store)
    : GameState * list GameState * option Intent :=
  (gameState s, gameHistory s, selectedCard s).

(** X10. The pointer drop and the native drop do the same to the game: for
    the same dragged card and the same target pile, the effect of
    [handleGlobalPointerUp] and [handleDrop] reject together, fail
    together, and otherwise leave the same game state, the same history
    and the same selection.  The inline validity check and the inline
    updaters of the effect agree with [canPlaceOnFoundation],
    [canPlaceOnTableau], [getMoveableSequence] and [moveCard]. *)
Theorem pointer_drop_agrees_with_drop (d : DragStore) (from : Intent)
    (target : PileId) :
  isDragging d = true →
  customDragCard d = Some from →
  draggedCard (base d) = Some from →
  (gameCells ∘ base) <$> handleGlobalPointerUp d (Some target) d
  = gameCells <$> handleDrop (base d) target (base d).
Proof.
  intros Hdragging Hcustom Hdragged.
  unfold handleGlobalPointerUp, handleDrop. rewrite Hdragging, Hcustom, Hdragged.
  unfold pointerDrop.
  destruct target as [| |i|i].
  - reflexivity.
  - reflexivity.
  - rewrite pointerValid_foundation. unfold placeOnFoundation.
    destruct (canPlaceOnFoundation (base d) (card from) i) as [[|]|];
      [|reflexivity|reflexivity].
    cbn [letDUpd letUpd from_option]. unfold moveCard.
    rewrite pointer_recorded, drop_recorded.
    rewrite pointerFoundationUpdater_moveCard.
    destruct (moveCardUpdater from (Foundation i) None (gameState (base d)));
      reflexivity.
  - rewrite pointerValid_tableau. unfold placeOnTableau.
    destruct (canPlaceOnTableau (base d) (card from) i) as [[|]|];
      [|reflexivity|reflexivity].
    cbn [letDUpd letUpd from_option]. rewrite pointerCardsToMove_sequenceOf.
    destruct (sequenceOf (base d) from) as [sequence|]; [|reflexivity].
    cbn [fmap option_fmap option_map letDUpd letUpd from_option].
    unfold moveCard.
    rewrite pointer_recorded, drop_recorded.
    rewrite pointerTableauUpdater_moveCard.
    destruct (moveCardUpdater from (Tableau i) sequence (gameState (base d)));
      reflexivity.
Qed.

Lemma pointer_drop_agrees_with_drop_witness :
  let ace := mkCard spades 1 true "spades-1" in
  let two := mkCard hearts 2 true "hearts-2" in
  let from := mkIntent ace (Tableau 2) (Some 0%nat) in
  let r := mkStore (mkGameState [] [] [[]; []; []; []]
                      [[]; [two]; [ace]; []; []; []; []])
                   None (Some from) [] in
  let d := mkDragStore r (Some from) true false in
  (gameCells ∘ base) <$> handleGlobalPointerUp d (Some (Tableau 1)) d
  = gameCells <$> handleDrop r (Tableau 1) r
  ∧ (gameState ∘ base) <$> handleGlobalPointerUp d (Some (Tableau 1)) d
    = Some (mkGameState [] [] [[]; []; []; []]
              [[]; [two; ace]; []; []; []; []; []]).
Proof.
  intros ace two from r d. split.
  - apply (pointer_drop_agrees_with_drop d from (Tableau 1)); reflexivity.
  - reflexivity.
Defined.

(** ** The top of a column is always face-up *)

(** The column is empty or its top card is face-up. *)
Definition topFaceUp (column : list Card) : Prop :=
  from_option (λ c, faceUp c = true) True (last column).

Definition topsFaceUp (g : GameState) : Prop := Forall topFaceUp (tableau g).

Definition faceUpIntent (intent : option Intent) : Prop :=
  from_option (λ i, faceUp (card i) = true) True intent.

(** The tops are face-up in the game state and in every snapshot, and the
    selected and the dragged card are face-up. *)
Definition settled (s : Store) : Prop :=
  topsFaceUp (gameState s)
  ∧ Forall topsFaceUp (gameHistory s)
  ∧ faceUpIntent (selectedCard s)
  ∧ faceUpIntent (draggedCard s).

(** A history updater that keeps the tops face-up in every snapshot. *)
Definition settledUpdater (f : HistoryUpdater) : Prop :=
  ∀ writes history,
    Forall topsFaceUp history → Forall topsFaceUp (f writes history).

Definition settledBatch (b : Batch) : Prop :=
  settled (cells b) ∧ Forall settledUpdater (historyQueue b).

Definition keepsSettled (u : Upd) : Prop :=
  ∀ b b', settledBatch b → enqueue u b = Some b' → settledBatch b'.

Lemma topFaceUp_flipTop (column : list Card) : topFaceUp (flipTop column).
Proof.
  unfold topFaceUp, flipTop.
  destruct (last column) as [topCard|] eqn:Hlast; [|by rewrite Hlast].
  destruct (faceUp topCard) eqn:Hup; cbn; [by rewrite Hlast|].
  apply last_is_Some_snoc in Hlast as [col' ->].
  rewrite length_app. cbn.
  replace (length col' + 1 - 1)%nat with (length col' + 0)%nat by lia.
  rewrite insert_app_r. cbn. by rewrite last_snoc.
Qed.

Lemma topFaceUp_app (column cards : list Card) :
  topFaceUp column → Forall (λ c, faceUp c = true) cards →
  topFaceUp (column ++ cards).
Proof.
  intros Hcol Hcards. unfold topFaceUp.
  destruct cards as [|c cards _] using rev_ind; [by rewrite app_nil_r|].
  rewrite app_assoc, last_snoc. cbn.
  apply Forall_app in Hcards as [_ Hc]. by inversion Hc.
Qed.

Lemma topFaceUp_topOnly (column : list Card) :
  topOnlyFaceUp column = true → topFaceUp column.
Proof.
  unfold topOnlyFaceUp, topFaceUp. rewrite <- head_reverse.
  destruct (reverse column) as [|topCard below]; [done|]. cbn.
  by intros [? _]%andb_true_iff.
Qed.

Lemma runFrom_faceUp (prev : option Card) (cards : list Card) :
  runFrom prev cards → Forall (λ c, faceUp c = true) cards.
Proof.
  revert prev. induction cards as [|c cards IH]; intros prev; [done|].
  cbn. intros (Hup & _ & Hrest). constructor; [done|by eapply IH].
Qed.

Lemma getMoveableSequence_faceUp (r : Store) (col i : nat)
    (sequence : list Card) :
  getMoveableSequence r col i = Some sequence →
  Forall (λ c, faceUp c = true) sequence.
Proof.
  unfold getMoveableSequence.
  destruct (tableau (gameState r) !! col) as [column|]; cbn; [|done].
  intros [= <-]. rewrite moveableLoop_extension. cbn.
  eapply runFrom_faceUp, extension_run.
Qed.

Lemma cardsToMove_faceUp (r : Store) (from : Intent)
    (sequence : option (list Card)) :
  faceUp (card from) = true →
  sequenceOf r from = Some sequence →
  Forall (λ c, faceUp c = true) (cardsToMoveOf from sequence).
Proof.
  intros Hup. unfold sequenceOf, cardsToMoveOf.
  destruct (source from) as [| |i|i]; try (intros [= <-]; by repeat constructor).
  destruct (index from) as [k|]; [|intros [= <-]; by repeat constructor].
  destruct (getMoveableSequence r i k) as [seq|] eqn:Hseq; cbn; [|done].
  intros [= <-]. cbn. by eapply getMoveableSequence_faceUp.
Qed.

Lemma moveCardUpdater_topsFaceUp (from : Intent) (to : PileId)
    (sequence : option (list Card)) (g g' : GameState) :
  Forall (λ c, faceUp c = true) (cardsToMoveOf from sequence) →
  topsFaceUp g →
  moveCardUpdater from to sequence g = Some g' →
  topsFaceUp g'.
Proof.
  intros Hcards Hg. unfold moveCardUpdater.
  destruct (removeFromSource from (cardsToMoveOf from sequence) g)
    as [g1|] eqn:Hrem; cbn; [|done].
  assert (Hg1 : topsFaceUp g1).
  { unfold removeFromSource in Hrem.
    destruct (source from) as [| |i|i].
    - by injection Hrem as <-.
    - by injection Hrem as <-.
    - destruct (foundations g !! i); cbn in Hrem; [|done].
      by injection Hrem as <-.
    - destruct (tableau g !! i); cbn in Hrem; [|done].
      injection Hrem as <-. unfold topsFaceUp. cbn.
      apply Forall_insert; [done|apply topFaceUp_flipTop]. }
  unfold addToDestination. destruct to as [| |i|i].
  - by intros [= <-].
  - by intros [= <-].
  - destruct (foundations g1 !! i); cbn; [|done]. by intros [= <-].
  - destruct (tableau g1 !! i) as [col|] eqn:Hcol; cbn; [|done].
    intros [= <-]. unfold topsFaceUp. cbn.
    apply Forall_insert; [done|].
    apply topFaceUp_app; [|done].
    by eapply (Forall_lookup_1 _ _ _ _ Hg1).
Qed.

Lemma stockUpdater_topsFaceUp (g g' : GameState) :
  topsFaceUp g → stockUpdater g = Some g' → topsFaceUp g'.
Proof.
  intros Hg. unfold stockUpdater.
  destruct (decide _); [by intros [= <-]|].
  destruct (JS.pop (stock g)) as [[drawn newStock]|]; cbn; [|done].
  by intros [= <-].
Qed.

(** A write turns a card face-up and nothing else, so it keeps the tops
    face-up. *)
Lemma topFaceUp_alter (k : nat) (column : list Card) :
  topFaceUp column → topFaceUp (alter (setFaceUp true) k column).
Proof.
  unfold topFaceUp. rewrite !last_lookup, length_alter.
  destruct (decide (k = pred (length column))) as [->|Hne].
  - rewrite list_lookup_alter_eq. by destruct (column !! pred (length column)).
  - by rewrite list_lookup_alter_ne.
Qed.

Lemma topsFaceUp_assignFaceUp (g : GameState) (ref : CardRef) :
  topsFaceUp g → topsFaceUp (assignFaceUp g ref).
Proof.
  intros Hg. destruct ref as [[| |i|i] k]; try done.
  unfold topsFaceUp, assignFaceUp. cbn.
  apply Forall_alter; [done|]. intros column _. apply topFaceUp_alter.
Qed.

Lemma topsFaceUp_afterWrites (writes : list CardRef) (g : GameState) :
  topsFaceUp g → topsFaceUp (afterWrites writes g).
Proof.
  unfold afterWrites. revert g.
  induction writes as [|ref writes IH]; intros g Hg; cbn; [done|].
  by apply IH, topsFaceUp_assignFaceUp.
Qed.

Lemma settledBatch_commit (b : Batch) : settledBatch b → settled (commit b).
Proof.
  intros [(Hg & Hh & Hsel & Hdrag) Hq]. unfold settled, commit. cbn.
  split_and!; try done.
  generalize dependent (gameHistory (cells b)).
  induction Hq as [|f queue Hf _ IH]; intros history Hh; cbn; [done|].
  apply IH, Hf, Hh.
Qed.

Lemma keepsSettled_render (u : Upd) (s s' : Store) :
  keepsSettled u → settled s → u s = Some s' → settled s'.
Proof.
  intros Hu Hs. unfold render.
  destruct (enqueue u (startBatch s)) as [b|] eqn:Hb; cbn; [|done].
  intros [= <-]. apply settledBatch_commit, (Hu (startBatch s)); [|done].
  split; [done|constructor].
Qed.

Lemma keepsSettled_skip : keepsSettled skip.
Proof. by intros b b' H [= <-]. Qed.

Lemma keepsSettled_throw : keepsSettled throw.
Proof. by intros b b' H. Qed.

Lemma keepsSettled_seq (u1 u2 : Upd) :
  keepsSettled u1 → keepsSettled u2 → keepsSettled (u1 ;> u2).
Proof.
  intros H1 H2 b b' Hb. cbn.
  destruct (enqueue u1 b) as [b1|] eqn:E1; cbn; [|done].
  intros E2. eapply H2; [|done]. by eapply H1.
Qed.

Lemma keepsSettled_bind {A} (o : option A) (k : A → Upd) :
  (∀ a, o = Some a → keepsSettled (k a)) → keepsSettled (letUpd o k).
Proof.
  intros H. destruct o as [a|]; cbn; [by apply H|apply keepsSettled_throw].
Qed.

Lemma keepsSettled_setGameStateWriting (writes : GameState → list CardRef)
    (f : GameState → option GameState) :
  (∀ g g', topsFaceUp g → f g = Some g' → topsFaceUp g') →
  keepsSettled (setGameStateWriting writes f).
Proof.
  intros Hf b b' [(Hg & Hh & Hsel & Hdrag) Hq]. cbn.
  destruct (f (gameState (cells b))) as [g'|] eqn:Hfg; cbn; [|done].
  intros [= <-]. split; [|done]. split_and!; try done. by eapply Hf.
Qed.

Lemma keepsSettled_setGameState (f : GameState → option GameState) :
  (∀ g g', topsFaceUp g → f g = Some g' → topsFaceUp g') →
  keepsSettled (setGameState f).
Proof. apply keepsSettled_setGameStateWriting. Qed.

Lemma keepsSettled_setSelectedCard (v : option Intent) :
  faceUpIntent v → keepsSettled (setSelectedCard v).
Proof.
  intros Hv b b' [(Hg & Hh & Hsel & Hdrag) Hq] [= <-].
  split; [|done]. by split_and!.
Qed.

Lemma keepsSettled_setDraggedCard (v : option Intent) :
  faceUpIntent v → keepsSettled (setDraggedCard v).
Proof.
  intros Hv b b' [(Hg & Hh & Hsel & Hdrag) Hq] [= <-].
  split; [|done]. by split_and!.
Qed.

Lemma keepsSettled_setGameHistory (f : HistoryUpdater) :
  settledUpdater f → keepsSettled (setGameHistory f).
Proof.
  intros Hf b b' [Hs Hq] [= <-]. split; [done|]. cbn.
  apply Forall_app. split; [done|]. by constructor.
Qed.

Lemma keepsSettled_saveGameState (state : GameState) :
  topsFaceUp state → keepsSettled (saveGameState state).
Proof.
  intros Hstate. apply keepsSettled_setGameHistory. intros writes history Hh.
  rewrite cloneState_id.
  change (-10) with (- Z.of_nat 10). rewrite slice_tail.
  apply Forall_drop, Forall_app. split; [done|].
  constructor; [|done]. by apply topsFaceUp_afterWrites.
Qed.

Lemma keepsSettled_pop :
  keepsSettled (setGameHistory (λ _ prev, JS.slice prev 0 (Some (-1)))).
Proof.
  apply keepsSettled_setGameHistory. intros writes history Hh.
  change (-1) with (- Z.of_nat 1). rewrite slice_init.
  by apply Forall_take.
Qed.

Lemma keepsSettled_clear : keepsSettled (setGameHistory (λ _ _, [])).
Proof. apply keepsSettled_setGameHistory. by intros writes history _. Qed.

Section SettledHandlers.

Variable r : Store.
Hypothesis Hr : settled r.

Lemma keepsSettled_moveCard from to sequence :
  Forall (λ c, faceUp c = true) (cardsToMoveOf from sequence) →
  keepsSettled (moveCard r from to sequence).
Proof.
  intros Hcards. apply keepsSettled_seq.
  - apply keepsSettled_saveGameState, Hr.
  - apply keepsSettled_setGameStateWriting. intros g g' Hg.
    by apply moveCardUpdater_topsFaceUp.
Qed.

Lemma keepsSettled_placeOnFoundation from i :
  faceUp (card from) = true → keepsSettled (placeOnFoundation r from i).
Proof.
  intros Hup. unfold placeOnFoundation. apply keepsSettled_bind.
  intros [|] _; [|apply keepsSettled_skip].
  apply keepsSettled_moveCard. by repeat constructor.
Qed.

Lemma keepsSettled_placeOnTableau from i :
  faceUp (card from) = true → keepsSettled (placeOnTableau r from i).
Proof.
  intros Hup. unfold placeOnTableau. apply keepsSettled_bind.
  intros [|] _; [|apply keepsSettled_skip].
  apply keepsSettled_bind. intros sequence Hseq.
  apply keepsSettled_moveCard. by eapply cardsToMove_faceUp.
Qed.

Lemma keepsSettled_flip (c : Card) (col : nat) (column : list Card)
    (writes : GameState → list CardRef) :
  keepsSettled
    (setGameStateWriting writes (λ prev,
       flipped ← setTopFaceUp column;
       newTableau ← assign col flipped (tableau prev);
       Some {| stock := stock prev; waste := waste prev;
               foundations := foundations prev; tableau := newTableau |})).
Proof.
  apply keepsSettled_setGameStateWriting. intros g g' Hg.
  unfold setTopFaceUp, assign.
  destruct (last column) as [topCard|] eqn:Hlast; cbn; [|done].
  destruct (decide _); cbn; [|done]. intros [= <-].
  unfold topsFaceUp. cbn. apply Forall_insert; [done|].
  apply last_is_Some_snoc in Hlast as [col' ->].
  rewrite length_app. cbn.
  replace (length col' + 1 - 1)%nat with (length col' + 0)%nat by lia.
  rewrite insert_app_r. cbn. unfold topFaceUp. by rewrite last_snoc.
Qed.

Lemma keepsSettled_handleCardClick c src idx :
  keepsSettled (handleCardClick r c src idx).
Proof.
  unfold handleCardClick. destruct (faceUp c) eqn:Hup; cbn [negb].
  - destruct (selectedCard r) as [selected|] eqn:Hsel;
      [|by apply keepsSettled_setSelectedCard].
    assert (Hselected : faceUp (card selected) = true).
    { destruct Hr as (_ & _ & Hs & _). by rewrite Hsel in Hs. }
    apply keepsSettled_seq; [|by apply keepsSettled_setSelectedCard].
    destruct src;
      auto using keepsSettled_skip, keepsSettled_placeOnFoundation,
        keepsSettled_placeOnTableau.
  - destruct src; try apply keepsSettled_skip.
    apply keepsSettled_bind. intros column _.
    destruct (decide _); [apply (keepsSettled_flip c)|apply keepsSettled_skip].
Qed.

Lemma keepsSettled_handleDrop target : keepsSettled (handleDrop r target).
Proof.
  unfold handleDrop.
  destruct (draggedCard r) as [dragged|] eqn:Hdrag; [|apply keepsSettled_skip].
  assert (Hdragged : faceUp (card dragged) = true).
  { destruct Hr as (_ & _ & _ & Hd). by rewrite Hdrag in Hd. }
  apply keepsSettled_seq; [|by apply keepsSettled_setDraggedCard].
  destruct target;
    auto using keepsSettled_skip, keepsSettled_placeOnFoundation,
      keepsSettled_placeOnTableau.
Qed.

Lemma keepsSettled_handleDoubleClick c src idx :
  keepsSettled (handleDoubleClick r c src idx).
Proof.
  unfold handleDoubleClick, autoMoveToFoundation.
  destruct (faceUp c) eqn:Hup; [|apply keepsSettled_skip].
  apply keepsSettled_bind. intros [b u] Hu. cbn.
  apply autoMoveLoop_queues in Hu as [->|[i ->]]; [apply keepsSettled_skip|].
  apply keepsSettled_moveCard. by repeat constructor.
Qed.

Lemma keepsSettled_handleUndo : keepsSettled (handleUndo r).
Proof.
  unfold handleUndo, putGameState.
  destruct (last (gameHistory r)) as [previousState|] eqn:Hlast;
    [|apply keepsSettled_skip].
  assert (Hprev : topsFaceUp previousState).
  { destruct Hr as (_ & Hh & _). apply last_is_Some_snoc in Hlast as [h Hh'].
    rewrite Hh' in Hh. apply Forall_app in Hh as [_ Hp]. by inversion Hp. }
  apply keepsSettled_seq;
    [by apply keepsSettled_setGameState; intros g g' _ [= <-]|].
  apply keepsSettled_seq; [apply keepsSettled_pop|].
  by apply keepsSettled_setSelectedCard.
Qed.

Lemma keepsSettled_handleStockClick : keepsSettled (handleStockClick r).
Proof.
  apply keepsSettled_seq.
  - apply keepsSettled_saveGameState, Hr.
  - apply keepsSettled_setGameStateWriting, stockUpdater_topsFaceUp.
Qed.

Lemma keepsSettled_foundationClick i : keepsSettled (foundationClick r i).
Proof.
  unfold foundationClick.
  destruct (selectedCard r) as [selected|] eqn:Hsel; [|apply keepsSettled_skip].
  assert (Hselected : faceUp (card selected) = true).
  { destruct Hr as (_ & _ & Hs & _). by rewrite Hsel in Hs. }
  apply keepsSettled_bind. intros [|] _; [|apply keepsSettled_skip].
  apply keepsSettled_seq; [|by apply keepsSettled_setSelectedCard].
  apply keepsSettled_moveCard. by repeat constructor.
Qed.

Lemma keepsSettled_columnClick i : keepsSettled (columnClick r i).
Proof.
  unfold columnClick.
  destruct (selectedCard r) as [selected|] eqn:Hsel; [|apply keepsSettled_skip].
  assert (Hselected : faceUp (card selected) = true).
  { destruct Hr as (_ & _ & Hs & _). by rewrite Hsel in Hs. }
  destruct (tableau (gameState r) !! i) as [[|]|]; try apply keepsSettled_skip.
  apply keepsSettled_bind. intros [|] _; [|apply keepsSettled_skip].
  apply keepsSettled_bind. intros sequence Hseq.
  apply keepsSettled_seq; [|by apply keepsSettled_setSelectedCard].
  apply keepsSettled_moveCard. by eapply cardsToMove_faceUp.
Qed.

Lemma keepsSettled_dragStart c src idx : keepsSettled (dragStart r c src idx).
Proof.
  unfold dragStart, handleDragStart.
  destruct (faceUp c) eqn:Hup; [|apply keepsSettled_skip].
  by apply keepsSettled_setDraggedCard.
Qed.

End SettledHandlers.

Lemma keepsSettled_dealCards (rand : nat → nat) :
  keepsSettled (dealCards rand).
Proof.
  unfold dealCards. apply keepsSettled_setGameState. intros g g' _ Hdealt.
  destruct (dealt_layout (createDeck rand) (createDeck_length rand))
    as (g0 & Hg0 & _ & _ & Htops & _).
  rewrite Hg0 in Hdealt. injection Hdealt as <-.
  unfold topsFaceUp. rewrite forallb_forall in Htops.
  apply Forall_forall. intros column Hcol.
  apply topFaceUp_topOnly, Htops. by apply list_elem_of_In.
Qed.

Lemma keepsSettled_confirmRestart (rand : nat → nat) :
  keepsSettled (confirmRestart rand).
Proof.
  unfold confirmRestart.
  apply keepsSettled_seq; [apply keepsSettled_dealCards|].
  apply keepsSettled_seq; [apply keepsSettled_clear|].
  by apply keepsSettled_setSelectedCard.
Qed.

Ltac keepsSettled_step :=
  lazymatch goal with
  | |- keepsSettled (match ?x with _ => _ end) => destruct x
  | |- keepsSettled (_ ;> _) => apply keepsSettled_seq
  | |- keepsSettled skip => exact keepsSettled_skip
  | |- keepsSettled (handleStockClick _) => by apply keepsSettled_handleStockClick
  | |- keepsSettled (handleUndo _) => by apply keepsSettled_handleUndo
  | |- keepsSettled (handleCardClick _ _ _ _) =>
      by apply keepsSettled_handleCardClick
  | |- keepsSettled (handleDoubleClick _ _ _ _) =>
      by apply keepsSettled_handleDoubleClick
  | |- keepsSettled (handleDrop _ _) => by apply keepsSettled_handleDrop
  | |- keepsSettled (dragStart _ _ _ _) => by apply keepsSettled_dragStart
  | |- keepsSettled (foundationClick _ _) => by apply keepsSettled_foundationClick
  | |- keepsSettled (columnClick _ _) => by apply keepsSettled_columnClick
  | |- keepsSettled (confirmRestart _) => apply keepsSettled_confirmRestart
  | |- keepsSettled (dealCards _) => apply keepsSettled_dealCards
  end.

Lemma keepsSettled_handlerOf (e : Event) (r : Store) :
  settled r → keepsSettled (handlerOf e r).
Proof.
  intros Hr.
  destruct e; cbv beta iota zeta delta [handlerOf]; repeat keepsSettled_step.
Qed.

Lemma settled_initialStore : settled initialStore.
Proof.
  unfold settled, initialStore, topsFaceUp, topFaceUp. cbn.
  split_and!; try done. by repeat constructor.
Qed.

Lemma reachable_settled (s : Store) : reachable s → settled s.
Proof.
  induction 1 as [rand s Hdeal|s e s' _ IH Hfire].
  - exact (keepsSettled_render _ initialStore s
             (keepsSettled_dealCards rand) settled_initialStore Hdeal).
  - exact (keepsSettled_render _ s s' (keepsSettled_handlerOf e s IH) IH Hfire).
Qed.

(** The events of a session with the pointer drag: the events of the game,
    a pointer press on a card ([onPointerDown] of the waste card, of a
    foundation's top card and of every card of a column), the release over
    a drop target or over none, and the timer that ends the return
    animation. *)
Inductive DragEvent :=
  | GameEvent (e : Event)
  | PointerDownWaste
  | PointerDownFoundation (i : nat)
  | PointerDownTableauCard (col k : nat)
  | PointerUp (dropTarget : option PileId)
  | ReturnTimeout.

Definition fireD (d : DragStore) (ev : DragEvent) : option DragStore :=
  let g := gameState (base d) in
  match ev with
  | GameEvent e => liftUpd (handlerOf e (base d)) d
  | PointerDownWaste =>
      match last (waste g) with
      | Some c => handleCustomDragStart c Waste None d
      | None => Some d
      end
  | PointerDownFoundation i =>
      match foundations g !! i ≫= last with
      | Some c => handleCustomDragStart c (Foundation i) None d
      | None => Some d
      end
  | PointerDownTableauCard col k =>
      match tableau g !! col ≫= (.!! k) with
      | Some c => handleCustomDragStart c (Tableau col) (Some k) d
      | None => Some d
      end
  | PointerUp dropTarget => handleGlobalPointerUp d dropTarget d
  | ReturnTimeout => returnTimeout d
  end.

Inductive reachableD : DragStore → Prop :=
  | reachableD_deal rand s :
      dealCards rand initialStore = Some s →
      reachableD {| base := s; customDragCard := None;
                    isDragging := false; isReturning := false |}
  | reachableD_fire d ev d' :
      reachableD d → fireD d ev = Some d' → reachableD d'.

Definition settledD (d : DragStore) : Prop :=
  settled (base d) ∧ faceUpIntent (customDragCard d).

Lemma liftUpd_render (u : Upd) (d : DragStore) :
  liftUpd u d
  = s ← u (base d);
    Some {| base := s; customDragCard := customDragCard d;
            isDragging := isDragging d; isReturning := isReturning d |}.
Proof.
  unfold renderDrag, render, liftUpd. cbn.
  by destruct (enqueue u (startBatch (base d))).
Qed.

(** Running a batch that only writes the cells of the drag. *)
Ltac drag_cells :=
  unfold renderDrag, commitDrag, startDragBatch, commit, startBatch; cbn.

Lemma handleCustomDragStart_settled c src idx (d d' : DragStore) :
  settledD d → handleCustomDragStart c src idx d = Some d' → settledD d'.
Proof.
  intros [Hb Hc]. destruct d as [[g sel drag hist] cust dragging returning].
  unfold handleCustomDragStart.
  destruct (faceUp c) eqn:Hup; drag_cells; by intros [= <-].
Qed.

Lemma pointerUp_settled (d d' : DragStore) (dropTarget : option PileId) :
  settledD d → handleGlobalPointerUp d dropTarget d = Some d' → settledD d'.
Proof.
  intros [Hb Hc]. unfold handleGlobalPointerUp.
  destruct (isDragging d) eqn:Hdragging.
  2:{ destruct d as [[g sel drag hist] cust dragging returning].
      drag_cells. intros [= <-]. by split. }
  destruct (customDragCard d) as [dragged|] eqn:Hcustom.
  2:{ destruct d as [[g sel drag hist] cust dragging returning].
      cbn in Hcustom. subst cust. drag_cells. intros [= <-]. by split. }
  cbn in Hc. unfold pointerDrop.
  destruct (pointerValid d dragged dropTarget) as [[|]|];
    cbn [letDUpd from_option]; [| |done].
  - destruct dropTarget as [[| |i|i]|].
    1,2,5: destruct d as [[g sel drag hist] cust dragging returning];
           drag_cells; intros [= <-]; by split.
    + rewrite pointer_recorded.
      rewrite pointerFoundationUpdater_moveCard.
      destruct (moveCardUpdater _ _ _ _) as [g|] eqn:Hmove; cbn; [|done].
      intros [= <-]. split; [|done]. cbn.
      destruct Hb as (Hg & Hh & Hsel & Hdrag). split_and!; try done.
      * eapply moveCardUpdater_topsFaceUp; [|exact Hg|exact Hmove].
        by repeat constructor.
      * unfold mostRecent. apply Forall_drop, Forall_app. split; [done|].
        constructor; [|done]. by apply topsFaceUp_afterWrites.
    + rewrite pointerCardsToMove_sequenceOf.
      destruct (sequenceOf (base d) dragged) as [sequence|] eqn:Hseq;
        cbn [fmap option_fmap option_map letDUpd from_option]; [|done].
      rewrite pointer_recorded.
      rewrite pointerTableauUpdater_moveCard.
      destruct (moveCardUpdater _ _ _ _) as [g|] eqn:Hmove; cbn; [|done].
      intros [= <-]. split; [|done]. cbn.
      destruct Hb as (Hg & Hh & Hsel & Hdrag). split_and!; try done.
      * eapply moveCardUpdater_topsFaceUp; [|exact Hg|exact Hmove].
        by eapply cardsToMove_faceUp.
      * unfold mostRecent. apply Forall_drop, Forall_app. split; [done|].
        constructor; [|done]. by apply topsFaceUp_afterWrites.
  - destruct d as [[g sel drag hist] cust dragging returning].
    drag_cells. intros [= <-]. split; [done|]. cbn in Hcustom |- *.
    by rewrite Hcustom.
Qed.

Lemma fireD_settled (d d' : DragStore) (ev : DragEvent) :
  settledD d → fireD d ev = Some d' → settledD d'.
Proof.
  intros Hd. destruct ev as [e|  |i|col k|dropTarget|];
    cbv beta iota zeta delta [fireD].
  - rewrite liftUpd_render.
    destruct (handlerOf e (base d) (base d)) as [s|] eqn:Hs; cbn; [|done].
    intros [= <-]. destruct Hd as [Hb Hc]. split; [|done]. cbn.
    exact (keepsSettled_render _ (base d) s
             (keepsSettled_handlerOf e (base d) Hb) Hb Hs).
  - destruct (last _); [by apply handleCustomDragStart_settled|by intros [= <-]].
  - destruct (_ ≫= _); [by apply handleCustomDragStart_settled|by intros [= <-]].
  - destruct (_ ≫= _); [by apply handleCustomDragStart_settled|by intros [= <-]].
  - by apply pointerUp_settled.
  - destruct Hd as [Hb _].
    destruct d as [[g sel drag hist] cust dragging returning].
    unfold returnTimeout. drag_cells. intros [= <-]. by split.
Qed.

Lemma reachableD_settled (d : DragStore) : reachableD d → settledD d.
Proof.
  induction 1 as [rand s Hdeal|d ev d' _ IH Hfire].
  - split; [|done]. cbn.
    exact (keepsSettled_render _ initialStore s
             (keepsSettled_dealCards rand) settled_initialStore Hdeal).
  - by eapply fireD_settled.
Qed.

(** X11. In every store a session reaches, by the events of the game and
    by the pointer drag, every column of the tableau is empty or has a
    face-up top card, and the same holds in every snapshot of the history.
    Hence the flip branch of [handleCardClick] never fires there: a click
    on a face-down card of an existing pile leaves the store as it is. *)
Theorem tops_stay_face_up (d : DragStore) :
  reachableD d →
  topsFaceUp (gameState (base d))
  ∧ Forall topsFaceUp (gameHistory (base d))
  ∧ (∀ c src idx,
       faceUp c = false →
       pileExists (gameState (base d)) src →
       handleCardClick (base d) c src idx (base d) = Some (base d)).
Proof.
  intros Hreach. destruct (reachableD_settled d Hreach) as [(Hg & Hh & _) _].
  split_and!; [done|done|].
  intros c src idx Hdown Hsrc. unfold handleCardClick. rewrite Hdown.
  cbn [negb].
  destruct src as [| |i|col]; try apply render_skip.
  cbn in Hsrc. apply lookup_lt_is_Some in Hsrc as [column Hcol].
  rewrite Hcol. cbn [letUpd from_option].
  destruct (decide (last column = Some c)) as [Htop|]; [|apply render_skip].
  pose proof (Forall_lookup_1 _ _ _ _ Hg Hcol) as Hup.
  unfold topFaceUp in Hup. rewrite Htop in Hup. cbn in Hup. congruence.
Qed.

Definition x11_rand (i : nat) : nat := i.

Lemma tops_stay_face_up_witness :
  ∃ d, reachableD d
     ∧ topsFaceUp (gameState (base d))
     ∧ Forall topsFaceUp (gameHistory (base d))
     ∧ (∀ c src idx,
          faceUp c = false →
          pileExists (gameState (base d)) src →
          handleCardClick (base d) c src idx (base d) = Some (base d)).
Proof.
  destruct (dealCards_fresh x11_rand initialStore) as (g & Hdeal & _).
  eexists. split.
  - exact (reachableD_deal x11_rand _ Hdeal).
  - apply tops_stay_face_up. exact (reachableD_deal x11_rand _ Hdeal).
Defined.

(** ** What [moveCard] removes and what it adds *)





(** ** Placements keep the piles in order *)

(** A foundation pile in order: one suit, ranks 1, 2, 3, ... from the
    bottom. *)
Definition foundationRun (pile : list Card) : Prop :=
  ∃ su, ∀ k c, pile !! k = Some c → suit c = su ∧ rank c = Z.of_nat k + 1.

Lemma foundationRun_snoc (r : Store) (i : nat) (pile : list Card) (c : Card) :
  foundations (gameState r) !! i = Some pile →
  foundationRun pile →
  canPlaceOnFoundation r c i = Some true →
  foundationRun (pile ++ [c]).
Proof.
  intros Hpile [su Hrun]. unfold canPlaceOnFoundation. rewrite Hpile. cbn.
  destruct (last pile) as [topCard|] eqn:Htop.
  - intros [= Hok]. apply andb_true_iff in Hok as [Hsuit Hrank].
    apply bool_decide_eq_true in Hsuit, Hrank.
    apply last_is_Some_snoc in Htop as [pile' ->].
    destruct (Hrun (length pile') topCard) as [Hsu Hrk];
      [by apply list_lookup_middle|].
    exists su. intros k c' Hk.
    destruct (decide (k < length (pile' ++ [topCard]))%nat) as [Hlt|Hge].
    + rewrite lookup_app_l in Hk by done. by apply Hrun.
    + rewrite lookup_app_r in Hk by lia.
      rewrite length_app in Hk, Hge. cbn in Hk, Hge.
      destruct (k - (length pile' + 1))%nat as [|n] eqn:Hn; [|by destruct n].
      injection Hk as <-. split; [congruence|]. rewrite Hrank, Hrk. lia.
  - apply last_None in Htop as ->. intros [= Hok].
    apply bool_decide_eq_true in Hok.
    exists (suit c). intros [|k] c' Hk; [|done].
    injection Hk as <-. done.
Qed.

Lemma removeFromSource_other_foundation (from : Intent) (cards : list Card)
    (g g' : GameState) (i : nat) :
  source from ≠ Foundation i →
  removeFromSource from cards g = Some g' →
  foundations g' !! i = foundations g !! i.
Proof.
  intros Hne. unfold removeFromSource.
  destruct (source from) as [| |j|j].
  - by intros [= <-].
  - by intros [= <-].
  - destruct (foundations g !! j); cbn; [|done]. intros [= <-]. cbn.
    apply list_lookup_insert_ne. congruence.
  - destruct (tableau g !! j); cbn; [|done]. by intros [= <-].
Qed.

(** The updater of a move of one card onto a foundation. *)
Lemma moveCardUpdater_foundation (g : GameState) (from : Intent) (i : nat)
    (pile : list Card) :
  foundations g !! i = Some pile →
  source from ≠ Foundation i →
  pileExists g (source from) →
  ∃ g', moveCardUpdater from (Foundation i) None g = Some g'
      ∧ foundations g' !! i = Some (pile ++ [card from])
      ∧ length (foundations g') = length (foundations g)
      ∧ length (tableau g') = length (tableau g).
Proof.
  intros Hpile Hne Hsrc. unfold moveCardUpdater.
  destruct (removeFromSource_total from (cardsToMoveOf from None) g Hsrc)
    as (g1 & Hrem & Hf & Ht).
  rewrite Hrem. cbn [mbind option_bind].
  pose proof (removeFromSource_other_foundation _ _ _ _ i Hne Hrem) as Hsame.
  rewrite Hpile in Hsame.
  unfold addToDestination. rewrite Hsame. cbn.
  eexists. split; [done|]. cbn. split_and!.
  - apply list_lookup_insert_eq. by eapply lookup_lt_Some.
  - by rewrite length_insert.
  - done.
Qed.

(** The batches that place a card: one [moveCard] and the setter that
    clears the selection. *)
Lemma select_recorded (g0 : GameState) (writes : GameState → list CardRef)
    (f : GameState → option GameState) (r : Store) :
  ((saveGameState g0 ;> setGameStateWriting writes f) ;> setSelectedCard None) r
  = g ← f (gameState r);
    Some {| gameState := g; selectedCard := None;
            draggedCard := draggedCard r;
            gameHistory :=
              mostRecent 10
                (gameHistory r ++ [afterWrites (writes (gameState r)) g0]) |}.
Proof.
  unfold render, seq_upd, saveGameState, setGameHistory, setGameStateWriting,
    setSelectedCard, commit, startBatch, mostRecent.
  cbn. destruct (f (gameState r)); cbn; [|done].
  rewrite cloneState_id.
  change (-10) with (- Z.of_nat 10). by rewrite slice_tail.
Qed.

(** X12. A placement on a foundation that the predicate accepts, from any
    other existing pile, by a native drop, by a pointer drop or by a click
    on the empty foundation slot: the event succeeds and puts exactly the
    intent's card on top of that foundation; if the pile was in order (one
    suit, ranks from the ace up) it still is, one rank higher. *)
Theorem foundation_placement_keeps_order (r : Store) (from : Intent)
    (i : nat) (pile : list Card) :
  foundations (gameState r) !! i = Some pile →
  foundationRun pile →
  source from ≠ Foundation i →
  pileExists (gameState r) (source from) →
  canPlaceOnFoundation r (card from) i = Some true →
  (draggedCard r = Some from →
   ∃ s, fire r (DropOnFoundation i) = Some s
      ∧ foundations (gameState s) !! i = Some (pile ++ [card from]))
  ∧ (∀ d, base d = r → isDragging d = true → customDragCard d = Some from →
     ∃ d', fireD d (PointerUp (Some (Foundation i))) = Some d'
         ∧ foundations (gameState (base d')) !! i
           = Some (pile ++ [card from]))
  ∧ (selectedCard r = Some from → pile = [] →
     ∃ s, fire r (ClickFoundation i) = Some s
        ∧ foundations (gameState s) !! i = Some (pile ++ [card from]))
  ∧ foundationRun (pile ++ [card from])
  ∧ rank (card from) = Z.of_nat (length pile) + 1.
Proof.
  intros Hpile Hrun Hne Hsrc Hcan.
  destruct (moveCardUpdater_foundation (gameState r) from i pile Hpile Hne Hsrc)
    as (g' & Hmove & Hfound & _).
  pose proof (foundationRun_snoc r i pile (card from) Hpile Hrun Hcan) as Hrun'.
  split_and!.
  - intros Hdrag. unfold fire, dispatch, handlerOf, handleDrop.
    rewrite Hdrag. unfold placeOnFoundation. rewrite Hcan.
    cbn [letUpd from_option]. unfold moveCard.
    rewrite drop_recorded, Hmove. cbn [mbind option_bind].
    eexists. split; [done|]. exact Hfound.
  - intros d Hbase Hdragging Hcustom. subst r.
    cbv beta iota zeta delta [fireD]. unfold handleGlobalPointerUp.
    rewrite Hdragging, Hcustom. unfold pointerDrop.
    rewrite pointerValid_foundation, Hcan. cbn [letDUpd from_option].
    rewrite pointer_recorded, pointerFoundationUpdater_moveCard, Hmove.
    cbn [mbind option_bind]. eexists. split; [done|]. exact Hfound.
  - intros Hsel ->. unfold fire, dispatch, handlerOf.
    cbv zeta. rewrite Hpile. cbn [mbind option_bind last].
    unfold foundationClick. rewrite Hsel, Hcan.
    cbn [letUpd from_option]. unfold moveCard.
    rewrite select_recorded, Hmove. cbn [mbind option_bind].
    eexists. split; [done|]. exact Hfound.
  - exact Hrun'.
  - destruct Hrun' as [su Hsu].
    destruct (Hsu (length pile) (card from)) as [_ Hrk];
      [by apply list_lookup_middle|].
    exact Hrk.
Qed.

Lemma foundation_placement_keeps_order_witness :
  let ace := mkCard hearts 1 true "hearts-1" in
  let two := mkCard hearts 2 true "hearts-2" in
  let from := mkIntent two Waste None in
  let r := mkStore (mkGameState [] [two] [[ace]; []; []; []]
                      [[]; []; []; []; []; []; []]) None (Some from) [] in
  (∃ s, fire r (DropOnFoundation 0) = Some s
      ∧ foundations (gameState s) !! 0%nat = Some ([ace] ++ [two]))
  ∧ foundationRun ([ace] ++ [two])
  ∧ rank two = Z.of_nat (length [ace]) + 1.
Proof.
  intros ace two from r.
  destruct (foundation_placement_keeps_order r from 0 [ace])
    as (Hdrop & _ & _ & Hrun & Hrank).
  - reflexivity.
  - exists hearts. intros [|[|k]] c Hk; [|done|done].
    injection Hk as <-. done.
  - discriminate.
  - exact I.
  - reflexivity.
  - split_and!; [apply Hdrop; reflexivity|exact Hrun|exact Hrank].
Defined.

(** *** A click on the top card of a foundation *)






Lemma extension_id (prev : option Card) (cards : list Card) :
  runFrom prev cards → extension prev cards = cards.
Proof.
  revert prev. induction cards as [|c cards IH]; intros prev; [done|].
  cbn. intros (Hup & Hfol & Hrest).
  rewrite (proj2 (accepts_spec prev c)) by done. by rewrite IH.
Qed.

(** X13. The sequence move.  The selected card sits at index [i] of a
    column, the cards from there to the top of the column form a run, and
    the predicate accepts the card on another column.  Then the placement
    succeeds and moves exactly those cards, in order, onto the target; the
    source column keeps its first [i] cards with its new top turned
    face-up; they continue the target downwards from its top card (or
    start an empty column with a king); stock, waste and foundations are
    untouched and every card is kept. *)
Theorem tableau_placement_moves_the_run (r : Store) (from : Intent)
    (src dst i : nat) (column target : list Card) :
  source from = Tableau src →
  index from = Some i →
  tableau (gameState r) !! src = Some column →
  column !! i = Some (card from) →
  validRun (drop i column) →
  src ≠ dst →
  tableau (gameState r) !! dst = Some target →
  canPlaceOnTableau r (card from) dst = Some true →
  ∃ s, placeOnTableau r from dst r = Some s
     ∧ tableau (gameState s) !! src = Some (flipTop (take i column))
     ∧ tableau (gameState s) !! dst = Some (target ++ drop i column)
     ∧ stock (gameState s) = stock (gameState r)
     ∧ waste (gameState s) = waste (gameState r)
     ∧ foundations (gameState s) = foundations (gameState r)
     ∧ identity <$> allCards (gameState s)
       ≡ₚ identity <$> allCards (gameState r)
     ∧ match last target with
       | Some t => runFrom (Some t) (drop i column)
       | None => rank (card from) = 13
       end.
Proof.
  intros Hsource Hindex Hcol Hi Hrun Hne Htarget Hcan.
  assert (Hlt : (i < length column)%nat) by (by eapply lookup_lt_Some).
  assert (Hseq : sequenceOf r from = Some (Some (drop i column))).
  { unfold sequenceOf, getMoveableSequence. rewrite Hsource, Hindex, Hcol. cbn.
    rewrite moveableLoop_extension. cbn. by rewrite extension_id. }
  assert (Hlen : length (drop i column) = S (length column - S i)).
  { rewrite length_drop. lia. }
  unfold placeOnTableau. rewrite Hcan. cbn [letUpd from_option].
  rewrite Hseq. cbn [letUpd from_option].
  rewrite moveCard_recorded, recordedMove_spec.
  destruct (moveCardUpdater from (Tableau dst) (Some (drop i column))
              (gameState r)) as [g'|] eqn:Hmove.
  2:{ exfalso. unfold moveCardUpdater, removeFromSource in Hmove.
      rewrite Hsource, Hcol in Hmove. cbn in Hmove.
      rewrite list_lookup_insert_ne in Hmove by done.
      rewrite Htarget in Hmove. done. }
  cbn [mbind option_bind]. eexists. split; [done|]. cbn [gameState].
  assert (Hcons : identity <$> allCards g'
                  ≡ₚ identity <$> allCards (gameState r)).
  { apply (moveCardUpdater_conserves from (Tableau dst)
             (Some (drop i column)) (gameState r) g' column); try done.
    - by rewrite Hsource.
    - by rewrite Hsource.
    - cbn. intros Hnil. rewrite Hnil in Hlen. done.
    - rewrite Hsource. cbn. rewrite length_drop.
      replace (length column - (length column - i))%nat with i by lia.
      done. }
  unfold moveCardUpdater, removeFromSource in Hmove.
  rewrite Hsource, Hcol in Hmove. cbn in Hmove.
  rewrite list_lookup_insert_ne in Hmove by done.
  rewrite Htarget in Hmove. cbn in Hmove. injection Hmove as <-. cbn.
  cbn in Hcons. rewrite Hlen, slice_init in Hcons |- *.
  replace (length column - S (length column - S i))%nat with i in Hcons |- *
    by lia.
  split_and!; try done.
  - rewrite list_lookup_insert_ne by done.
    apply list_lookup_insert_eq. by eapply lookup_lt_Some.
  - apply list_lookup_insert_eq. rewrite length_insert.
    by eapply lookup_lt_Some.
  - unfold canPlaceOnTableau in Hcan. rewrite Htarget in Hcan. cbn in Hcan.
    destruct (last target) as [t|].
    + injection Hcan as Hok. apply andb_true_iff in Hok as [Hcolor Hrank].
      apply negb_true_iff, eqb_isRedSuit in Hcolor.
      apply bool_decide_eq_true in Hrank.
      rewrite (drop_S _ _ _ Hi) in Hrun |- *. cbn in Hrun |- *.
      destruct Hrun as (Hup & _ & Hrest). split_and!; done.
    + injection Hcan as Hok. by apply bool_decide_eq_true in Hok.
Qed.

Lemma tableau_placement_moves_the_run_witness :
  let three := mkCard hearts 3 false "hearts-3" in
  let seven := mkCard spades 7 true "spades-7" in
  let six := mkCard hearts 6 true "hearts-6" in
  let eight := mkCard diamonds 8 true "diamonds-8" in
  let from := mkIntent seven (Tableau 0) (Some 1%nat) in
  let r := mkStore (mkGameState [] [] [[]; []; []; []]
                      [[three; seven; six]; [eight]; []; []; []; []; []])
                   None None [] in
  ∃ s, placeOnTableau r from 1 r = Some s
     ∧ tableau (gameState s) !! 0%nat = Some [mkCard hearts 3 true "hearts-3"]
     ∧ tableau (gameState s) !! 1%nat = Some [eight; seven; six].
Proof.
  intros three seven six eight from r.
  destruct (tableau_placement_moves_the_run r from 0 1 1
              [three; seven; six] [eight])
    as (s & Hs & Hsrc & Hdst & _); try reflexivity.
  - cbn. unfold follows. cbn. split_and!; try done.
  - done.
  - exists s. split_and!; done.
Defined.

(** ** The hint *)

(** The messages of [getHint]; columns are numbered from 1. *)
Definition msgWaste : string := "Move the waste pile card to a foundation!".

Definition msgToFoundation (col : nat) : string :=
  "Move a card from column " +:+ showNat (col + 1) +:+ " to a foundation!".

Definition msgFlip (col : nat) : string :=
  "Click the face-down card in column " +:+ showNat (col + 1)
  +:+ " to flip it!".

Definition msgMove (sourceCol targetCol : nat) : string :=
  "Move a card from column " +:+ showNat (sourceCol + 1) +:+ " to column "
  +:+ showNat (targetCol + 1) +:+ "!".

Definition msgDraw : string := "Draw cards from the stock pile!".

Definition msgNone : string :=
  "No obvious moves available. Try looking for sequences to move!".

(** Some foundation accepts the card. *)
Definition fitsFoundation (r : Store) (c : Card) : Prop :=
  ∃ i, (i < 4)%nat ∧ canPlaceOnFoundation r c i = Some true.

(** The top card of a column. *)
Definition topOf (r : Store) (col : nat) (c : Card) : Prop :=
  ∃ column, tableau (gameState r) !! col = Some column ∧ last column = Some c.

(** What each scan of [getHint] looks for. *)
Definition wasteToFoundation (r : Store) : Prop :=
  ∃ c, last (waste (gameState r)) = Some c ∧ faceUp c = true
     ∧ fitsFoundation r c.

Definition colToFoundation (r : Store) (col : nat) : Prop :=
  ∃ c, topOf r col c ∧ faceUp c = true ∧ fitsFoundation r c.

Definition colFaceDown (r : Store) (col : nat) : Prop :=
  ∃ c, topOf r col c ∧ faceUp c = false.

Definition colToCol (r : Store) (sourceCol targetCol : nat) : Prop :=
  sourceCol ≠ targetCol
  ∧ ∃ c, topOf r sourceCol c ∧ faceUp c = true
       ∧ canPlaceOnTableau r c targetCol = Some true.

Lemma firstHint_seq (body : nat → option (option string)) (a n : nat) :
  (∀ i, (a ≤ i < a + n)%nat → is_Some (body i)) →
  (firstHint body (seq a n) = Some None
   ∧ ∀ i, (a ≤ i < a + n)%nat → body i = Some None)
  ∨ (∃ i m, (a ≤ i < a + n)%nat
          ∧ body i = Some (Some m)
          ∧ (∀ j, (a ≤ j < i)%nat → body j = Some None)
          ∧ firstHint body (seq a n) = Some (Some m)).
Proof.
  revert a. induction n as [|n IH]; intros a Htotal; cbn.
  - left. split; [done|]. intros i ?. lia.
  - destruct (Htotal a) as [[m|] Ha]; [lia| |]; rewrite Ha; cbn.
    + right. exists a, m. split; [lia|]. split; [done|]. split; [|done].
      intros j ?. lia.
    + destruct (IH (S a)) as [[Hnone Hall]|(i & m & Hi & Hbody & Hbefore & Hres)].
      { intros i ?. apply Htotal. lia. }
      * left. split; [done|]. intros i Hi.
        destruct (decide (i = a)) as [->|]; [done|]. apply Hall. lia.
      * right. exists i, m. split; [lia|]. split; [done|]. split; [|done].
        intros j Hj. destruct (decide (j = a)) as [->|]; [done|].
        apply Hbefore. lia.
Qed.

Section HintScans.

Variable r : Store.
Hypothesis Hfour : length (foundations (gameState r)) = 4%nat.
Hypothesis Hseven : length (tableau (gameState r)) = 7%nat.

Lemma foundationScan_spec (c : Card) (message : string) :
  (fitsFoundation r c ∧ foundationScan r c message = Some (Some message))
  ∨ (¬ fitsFoundation r c ∧ foundationScan r c message = Some None).
Proof.
  unfold foundationScan. change [0; 1; 2; 3]%nat with (seq 0 4).
  destruct (firstHint_seq
              (λ i, ok ← canPlaceOnFoundation r c i;
                    Some (if ok : bool then Some message else None)) 0 4)
    as [[Hres Hall]|(i & m & Hi & Hbody & _ & Hres)].
  - intros i Hi.
    destruct (canPlaceOnFoundation_total r c i) as [b ->]; [lia|]. done.
  - right. split; [|done]. intros (i & Hi & Hfit).
    specialize (Hall i ltac:(lia)). rewrite Hfit in Hall. done.
  - left.
    destruct (canPlaceOnFoundation r c i) as [[|]|] eqn:Hfit; cbn in Hbody;
      [|done|done].
    injection Hbody as <-. split; [|done]. exists i. split; [lia|done].
Qed.

Lemma column_exists (col : nat) :
  (col < 7)%nat → ∃ column, tableau (gameState r) !! col = Some column.
Proof. intros H. apply lookup_lt_is_Some. lia. Qed.

Lemma wasteScan_spec :
  (wasteToFoundation r ∧ wasteScan r = Some (Some msgWaste))
  ∨ (¬ wasteToFoundation r ∧ wasteScan r = Some None).
Proof.
  unfold wasteScan, wasteToFoundation.
  destruct (last (waste (gameState r))) as [c|] eqn:Hlast.
  - destruct (faceUp c) eqn:Hup.
    + destruct (foundationScan_spec c msgWaste) as [[Hfit Hres]|[Hnot Hres]].
      * left. split; [eauto|done].
      * right. split; [|done]. intros (c' & [= <-] & _ & Hfit). done.
    + right. split; [|done]. intros (c' & [= <-] & Hup' & _). congruence.
  - right. split; [|done]. intros (c' & ? & _). done.
Qed.

Lemma columnToFoundation_spec (col : nat) :
  (col < 7)%nat →
  (colToFoundation r col
   ∧ columnToFoundation r col = Some (Some (msgToFoundation col)))
  ∨ (¬ colToFoundation r col ∧ columnToFoundation r col = Some None).
Proof.
  intros Hcol. destruct (column_exists col Hcol) as [column Hcolumn].
  unfold columnToFoundation, colToFoundation, topOf. rewrite Hcolumn. cbn.
  destruct (last column) as [c|] eqn:Hlast.
  - destruct (faceUp c) eqn:Hup.
    + destruct (foundationScan_spec c (msgToFoundation col))
        as [[Hfit Hres]|[Hnot Hres]].
      * left. split; [|done]. exists c. split; [eauto|done].
      * right. split; [|done].
        intros (c' & (column' & [= <-] & Hl) & _ & Hfit).
        rewrite Hlast in Hl. injection Hl as <-. done.
    + right. split; [|done].
      intros (c' & (column' & [= <-] & Hl) & Hup' & _).
      rewrite Hlast in Hl. injection Hl as <-. congruence.
  - right. split; [|done].
    intros (c' & (column' & [= <-] & Hl) & _). rewrite Hlast in Hl. done.
Qed.

Lemma columnToFlip_spec (col : nat) :
  (col < 7)%nat →
  (colFaceDown r col ∧ columnToFlip r col = Some (Some (msgFlip col)))
  ∨ (¬ colFaceDown r col ∧ columnToFlip r col = Some None).
Proof.
  intros Hcol. destruct (column_exists col Hcol) as [column Hcolumn].
  unfold columnToFlip, colFaceDown, topOf. rewrite Hcolumn. cbn.
  destruct (last column) as [c|] eqn:Hlast.
  - destruct (faceUp c) eqn:Hup; cbn.
    + right. split; [|done].
      intros (c' & (column' & [= <-] & Hl) & Hup').
      rewrite Hlast in Hl. injection Hl as <-. congruence.
    + left. split; [|done]. exists c. split; [eauto|done].
  - right. split; [|done].
    intros (c' & (column' & [= <-] & Hl) & _). rewrite Hlast in Hl. done.
Qed.

Lemma columnToColumn_spec (sourceCol : nat) :
  (sourceCol < 7)%nat →
  (∃ targetCol, (targetCol < 7)%nat
     ∧ colToCol r sourceCol targetCol
     ∧ (∀ t, (t < targetCol)%nat → ¬ colToCol r sourceCol t)
     ∧ columnToColumn r sourceCol = Some (Some (msgMove sourceCol targetCol)))
  ∨ ((∀ t, (t < 7)%nat → ¬ colToCol r sourceCol t)
     ∧ columnToColumn r sourceCol = Some None).
Proof.
  intros Hcol. destruct (column_exists sourceCol Hcol) as [column Hcolumn].
  unfold columnToColumn, colToCol, topOf. rewrite Hcolumn. cbn.
  destruct (last column) as [c|] eqn:Hlast.
  2:{ right. split; [|done].
      intros t _ (_ & c' & (column' & [= <-] & Hl) & _).
      rewrite Hlast in Hl. done. }
  destruct (faceUp c) eqn:Hup.
  2:{ right. split; [|done].
      intros t _ (_ & c' & (column' & [= <-] & Hl) & Hup' & _).
      rewrite Hlast in Hl. injection Hl as <-. congruence. }
  set (body := λ targetCol : nat,
         if decide (sourceCol ≠ targetCol) then
           ok ← canPlaceOnTableau r c targetCol;
           Some (if ok : bool then Some (msgMove sourceCol targetCol) else None)
         else Some None).
  assert (Hbody : ∀ t, (t < 7)%nat →
            (sourceCol ≠ t ∧ canPlaceOnTableau r c t = Some true
             ∧ body t = Some (Some (msgMove sourceCol t)))
            ∨ (¬ (sourceCol ≠ t ∧ canPlaceOnTableau r c t = Some true)
               ∧ body t = Some None)).
  { intros t Ht. unfold body. destruct (decide (sourceCol ≠ t)) as [Hne|Heq].
    - destruct (column_exists t Ht) as [tcol Htcol].
      unfold canPlaceOnTableau. rewrite Htcol. cbn.
      destruct (last tcol) as [tc|]; cbn.
      + destruct (negb _ && _); [left|right]; split_and!; try done.
        intros [_ ?]. done.
      + destruct (bool_decide _); [left|right]; split_and!; try done.
        intros [_ ?]. done.
    - right. split; [|done]. intros [? _]. done. }
  destruct (firstHint_seq body 0 7)
    as [[Hres Hall]|(t & m & Ht & Hbt & Hbefore & Hres)].
  - intros t Ht. destruct (Hbody t) as [(_ & _ & ->)|[_ ->]]; [lia|done|done].
  - right. split; [|exact Hres].
    intros t Ht (Hne & c' & (column' & [= <-] & Hl) & _ & Hcan).
    rewrite Hlast in Hl. injection Hl as <-.
    destruct (Hbody t Ht) as [(_ & _ & Hb)|[Hnot _]].
    + rewrite (Hall t) in Hb by lia. done.
    + apply Hnot. done.
  - left. exists t. split; [lia|].
    destruct (Hbody t) as [(Hne & Hcan & Hb)|[_ Hb]]; [lia| |congruence].
    rewrite Hbt in Hb. injection Hb as ->.
    split_and!.
    + done.
    + exists c. split; [eauto|done].
    + intros t' Ht' (Hne' & c' & (column' & [= <-] & Hl) & _ & Hcan').
      rewrite Hlast in Hl. injection Hl as <-.
      destruct (Hbody t') as [(_ & _ & Hb')|[Hnot _]]; [lia| |].
      * rewrite (Hbefore t') in Hb' by lia. done.
      * apply Hnot. done.
    + exact Hres.
Qed.

End HintScans.

(** The first rule of [getHint] that applies, in the order of the source:
    the waste card to a foundation, the first column whose top card goes to
    a foundation, the first column whose top card is face-down, the first
    source column (and for it the first target column) whose top card goes
    to another column, the stock, and else nothing. *)
Inductive HintCase (r : Store) : string → Prop :=
  | hint_waste :
      wasteToFoundation r →
      HintCase r msgWaste
  | hint_foundation col :
      ¬ wasteToFoundation r →
      (col < 7)%nat → colToFoundation r col →
      (∀ j, (j < col)%nat → ¬ colToFoundation r j) →
      HintCase r (msgToFoundation col)
  | hint_flip col :
      ¬ wasteToFoundation r →
      (∀ j, (j < 7)%nat → ¬ colToFoundation r j) →
      (col < 7)%nat → colFaceDown r col →
      (∀ j, (j < col)%nat → ¬ colFaceDown r j) →
      HintCase r (msgFlip col)
  | hint_move sourceCol targetCol :
      ¬ wasteToFoundation r →
      (∀ j, (j < 7)%nat → ¬ colToFoundation r j) →
      (∀ j, (j < 7)%nat → ¬ colFaceDown r j) →
      (sourceCol < 7)%nat → (targetCol < 7)%nat →
      colToCol r sourceCol targetCol →
      (∀ t, (t < targetCol)%nat → ¬ colToCol r sourceCol t) →
      (∀ s t, (s < sourceCol)%nat → (t < 7)%nat → ¬ colToCol r s t) →
      HintCase r (msgMove sourceCol targetCol)
  | hint_draw :
      ¬ wasteToFoundation r →
      (∀ j, (j < 7)%nat → ¬ colToFoundation r j) →
      (∀ j, (j < 7)%nat → ¬ colFaceDown r j) →
      (∀ s t, (s < 7)%nat → (t < 7)%nat → ¬ colToCol r s t) →
      stock (gameState r) ≠ [] →
      HintCase r msgDraw
  | hint_none :
      ¬ wasteToFoundation r →
      (∀ j, (j < 7)%nat → ¬ colToFoundation r j) →
      (∀ j, (j < 7)%nat → ¬ colFaceDown r j) →
      (∀ s t, (s < 7)%nat → (t < 7)%nat → ¬ colToCol r s t) →
      stock (gameState r) = [] →
      HintCase r msgNone.

Lemma orElse_found (m : string) (rest : option (option string)) :
  orElse (Some (Some m)) rest = Some (Some m).
Proof. done. Qed.

Lemma orElse_next (rest : option (option string)) :
  orElse (Some None) rest = rest.
Proof. done. Qed.

(** X14. On a board with four foundations and seven columns [getHint]
    returns a message, and the message is the one of the first rule that
    applies, the rules being tried in this order: the face-up waste card
    fits a foundation; a column's face-up top card fits a foundation
    (lowest such column); a column's top card is face-down (lowest such
    column); the face-up top card of a column fits another column (lowest
    source column, then lowest target column); the stock is not empty;
    nothing.  Only top cards are looked at: a run that could move as a
    whole is not a rule. *)
Theorem getHint_first_rule_that_applies (r : Store) :
  length (foundations (gameState r)) = 4%nat →
  length (tableau (gameState r)) = 7%nat →
  ∃ m, getHint r = Some m ∧ HintCase r m.
Proof.
  intros Hfour Hseven. unfold getHint.
  destruct (wasteScan_spec r Hfour Hseven) as [[Hw ->]|[Hw ->]].
  { rewrite orElse_found. eexists. split; [done|]. by constructor. }
  rewrite orElse_next.
  destruct (firstHint_seq (columnToFoundation r) 0 7)
    as [[-> Hnf]|(col & m & Hcol & Hbody & Hbefore & ->)].
  { intros i Hi.
    destruct (columnToFoundation_spec r Hfour Hseven i) as [[_ ->]|[_ ->]];
      [lia|done|done]. }
  2:{ rewrite orElse_found. exists m. split; [done|].
      destruct (columnToFoundation_spec r Hfour Hseven col)
        as [[Hyes Hres]|[_ Hres]]; [lia| |congruence].
      rewrite Hbody in Hres. injection Hres as ->.
      apply hint_foundation; [done|lia|done|].
      intros j Hj Hyes'.
      destruct (columnToFoundation_spec r Hfour Hseven j)
        as [[_ Hres]|[Hnot _]]; [lia| |done].
      rewrite Hbefore in Hres by lia. done. }
  rewrite orElse_next.
  assert (Hnof : ∀ j, (j < 7)%nat → ¬ colToFoundation r j).
  { intros j Hj Hyes.
    destruct (columnToFoundation_spec r Hfour Hseven j)
      as [[_ Hres]|[Hnot _]]; [lia| |done].
    rewrite Hnf in Hres by lia. done. }
  destruct (firstHint_seq (columnToFlip r) 0 7)
    as [[-> Hnd]|(col & m & Hcol & Hbody & Hbefore & ->)].
  { intros i Hi.
    destruct (columnToFlip_spec r Hfour Hseven i) as [[_ ->]|[_ ->]];
      [lia|done|done]. }
  2:{ rewrite orElse_found. exists m. split; [done|].
      destruct (columnToFlip_spec r Hfour Hseven col)
        as [[Hyes Hres]|[_ Hres]]; [lia| |congruence].
      rewrite Hbody in Hres. injection Hres as ->.
      apply hint_flip; [done|done|lia|done|].
      intros j Hj Hyes'.
      destruct (columnToFlip_spec r Hfour Hseven j)
        as [[_ Hres]|[Hnot _]]; [lia| |done].
      rewrite Hbefore in Hres by lia. done. }
  rewrite orElse_next.
  assert (Hnod : ∀ j, (j < 7)%nat → ¬ colFaceDown r j).
  { intros j Hj Hyes.
    destruct (columnToFlip_spec r Hfour Hseven j)
      as [[_ Hres]|[Hnot _]]; [lia| |done].
    rewrite Hnd in Hres by lia. done. }
  destruct (firstHint_seq (columnToColumn r) 0 7)
    as [[-> Hnm]|(s & m & Hs & Hbody & Hbefore & ->)].
  { intros i Hi.
    destruct (columnToColumn_spec r Hfour Hseven i)
      as [(t & _ & _ & _ & ->)|[_ ->]]; [lia|done|done]. }
  2:{ rewrite orElse_found. exists m. split; [done|].
      destruct (columnToColumn_spec r Hfour Hseven s)
        as [(t & Ht & Hyes & Hleast & Hres)|[_ Hres]]; [lia| |congruence].
      rewrite Hbody in Hres. injection Hres as ->.
      apply hint_move; [done|done|done|lia|done|done|done|].
      intros s' t' Hs' Ht' Hyes'.
      destruct (columnToColumn_spec r Hfour Hseven s')
        as [(t'' & _ & _ & _ & Hres)|[Hnot _]]; [lia| |by eapply Hnot].
      rewrite Hbefore in Hres by lia. done. }
  rewrite orElse_next.
  assert (Hnom : ∀ s t, (s < 7)%nat → (t < 7)%nat → ¬ colToCol r s t).
  { intros s t Hs Ht Hyes.
    destruct (columnToColumn_spec r Hfour Hseven s)
      as [(t' & _ & _ & _ & Hres)|[Hnot _]]; [lia| |by eapply Hnot].
    rewrite Hnm in Hres by lia. done. }
  cbn [mbind option_bind].
  destruct (decide (0 < length (stock (gameState r)))%nat) as [Hstock|Hstock].
  - exists msgDraw. split; [done|]. apply hint_draw; try done.
    intros Hnil. rewrite Hnil in Hstock. cbn in Hstock. lia.
  - exists msgNone. split; [done|]. apply hint_none; try done.
    destruct (stock (gameState r)); [done|]. cbn in Hstock. lia.
Qed.

(** A board on which the second rule is the first that applies: the waste
    is empty, column 1 is empty, and the top of column 2 is an ace. *)
Definition hintBoard : Store :=
  {| gameState :=
       {| stock := [];
          waste := [];
          foundations := [[]; []; []; []];
          tableau :=
            [ [];
              [ {| suit := hearts; rank := 1; faceUp := true;
                   id := "hearts-1" |} ];
              []; []; []; []; [] ] |};
     selectedCard := None; draggedCard := None; gameHistory := [] |}.

Lemma getHint_first_rule_that_applies_witness :
  ∃ m, getHint hintBoard = Some m ∧ HintCase hintBoard m.
Proof.
  apply (getHint_first_rule_that_applies hintBoard); reflexivity.
Defined.

Lemma firstHint_found (body : nat → option (option string))
    (indices : list nat) (m : string) :
  firstHint body indices = Some (Some m) →
  ∃ i, i ∈ indices ∧ body i = Some (Some m).
Proof.
  induction indices as [|i rest IH]; cbn; [done|].
  destruct (body i) as [[m'|]|] eqn:Hbody; cbn; [| |done].
  - intros [= ->]. exists i. split; [left|done].
  - intros H. destruct (IH H) as (j & Hj & Hbj). exists j. split; [by right|done].
Qed.

Lemma foundationScan_message (r : Store) (c : Card) (message m : string) :
  foundationScan r c message = Some (Some m) → m = message.
Proof.
  intros H. apply firstHint_found in H as (i & _ & H).
  destruct (canPlaceOnFoundation r c i) as [[|]|]; cbn in H; congruence.
Qed.

Lemma msgFlip_first (col : nat) : ∃ rest, msgFlip col = String (Ascii.ascii_of_nat 67) rest.
Proof. eexists. reflexivity. Qed.

Ltac not_the_flip_message col :=
  let H := fresh in
  let rest := fresh in
  let Hrest := fresh in
  intros H; destruct (msgFlip_first col) as [rest Hrest];
  rewrite Hrest in H; cbn in H; discriminate H.

(** Where the tops are face-up, no hint is the flip message. *)
Lemma getHint_settled (r : Store) (col : nat) :
  topsFaceUp (gameState r) → getHint r ≠ Some (msgFlip col).
Proof.
  intros Htops. unfold getHint, orElse.
  destruct (wasteScan r) as [[m|]|] eqn:Hw; cbn [mbind option_bind]; [| |done].
  { unfold wasteScan in Hw.
    destruct (last (waste (gameState r))) as [c|]; [|done].
    destruct (faceUp c); [|done].
    apply foundationScan_message in Hw as ->. not_the_flip_message col. }
  destruct (firstHint (columnToFoundation r) (seq 0 7)) as [[m|]|] eqn:Hf;
    cbn [mbind option_bind]; [| |done].
  { apply firstHint_found in Hf as (i & _ & Hf).
    unfold columnToFoundation in Hf.
    destruct (tableau (gameState r) !! i) as [column|]; [|done].
    cbn [mbind option_bind] in Hf.
    destruct (last column) as [c|]; [|done].
    destruct (faceUp c); [|done].
    apply foundationScan_message in Hf as ->. not_the_flip_message col. }
  destruct (firstHint (columnToFlip r) (seq 0 7)) as [[m|]|] eqn:Hd;
    cbn [mbind option_bind]; [| |done].
  { apply firstHint_found in Hd as (i & _ & Hd).
    unfold columnToFlip in Hd.
    destruct (tableau (gameState r) !! i) as [column|] eqn:Hcolumn; [|done].
    cbn in Hd.
    apply (proj1 (Forall_lookup _ _) Htops) in Hcolumn.
    unfold topFaceUp in Hcolumn.
    destruct (last column) as [c|]; [|done]. cbn in Hcolumn.
    rewrite Hcolumn in Hd. done. }
  destruct (firstHint (columnToColumn r) (seq 0 7)) as [[m|]|] eqn:Hm;
    cbn [mbind option_bind]; [| |done].
  { apply firstHint_found in Hm as (s & _ & Hm).
    unfold columnToColumn in Hm.
    destruct (tableau (gameState r) !! s) as [column|]; [|done].
    cbn [mbind option_bind] in Hm.
    destruct (last column) as [c|]; [|done].
    destruct (faceUp c); [|done].
    apply firstHint_found in Hm as (t & _ & Hm).
    destruct (decide (s ≠ t)); [|done].
    destruct (canPlaceOnTableau r c t) as [[|]|]; cbn in Hm; [|done|done].
    injection Hm as <-. not_the_flip_message col. }
  destruct (decide _); not_the_flip_message col.
Qed.

(** X15. The flip rule of [getHint] never fires in a game: in every store
    that the deal and the events of the page (clicks, drags, pointer
    drags, undo, restart) lead to, the hint is not "Click the face-down
    card in column n to flip it!", for any column. *)
Theorem hint_never_asks_to_flip (d : DragStore) (col : nat) :
  reachableD d → getHint (base d) ≠ Some (msgFlip col).
Proof.
  intros Hreach. apply getHint_settled.
  by destruct (reachableD_settled d Hreach) as [[Htops _] _].
Qed.

Definition x15_rand (i : nat) : nat := i.

Lemma hint_never_asks_to_flip_witness :
  ∃ d, reachableD d ∧ getHint (base d) ≠ Some (msgFlip 0).
Proof.
  destruct (dealCards x15_rand initialStore) as [s|] eqn:Hdeal;
    [|by vm_compute in Hdeal].
  eexists. split.
  - exact (reachableD_deal x15_rand s Hdeal).
  - apply (hint_never_asks_to_flip _ 0%nat).
    exact (reachableD_deal x15_rand s Hdeal).
Defined.
